(** * cta-server: the synchronisation engine and its store access layer

    A shallow embedding of [src/DatabaseService.js], of the [Repository]
    class and of [CTAManager.update] (both in [src/CTAManager.js]),
    together with a model of the two collaborators the code talks to: the
    PostgreSQL pool and the IMX listing client; and of [getSupply]
    ([src/constants.js]), of the counting loops of
    [CTAManager.getCollectionStats] and of the array helpers.

    JavaScript numbers are modelled by [Z] (token identifiers, counters
    and surrogate keys are integers), objects by association lists,
    [Map] and [Set] by insertion-ordered lists, and [async] methods by a
    state-and-exception monad over a [world] that holds the store, the
    manager's fields and the scripted behaviour of the collaborators. *)

From Stdlib Require Import ZArith List Bool String Ascii Lia Sorted.
From Stdlib Require Import DecimalString.
Import ListNotations.
Open Scope string_scope.
Open Scope Z_scope.
Set Warnings "-register-all".

(* ================================================================== *)
(** ** JavaScript values and the string primitives the code relies on *)
(* ================================================================== *)

Module Js.

(** Primitive values.  [JNaN] is the result of a failed [parseInt]. *)
Inductive jsval : Type :=
| JUndef
| JNull
| JNaN
| JNum (n : Z)
| JStr (s : string)
| JBool (b : bool).

(** SameValueZero, the comparison of [Map.has], [Set.has] and
    [Array.prototype.includes]. *)
Definition same_value (a b : jsval) : bool :=
  match a, b with
  | JUndef, JUndef => true
  | JNull, JNull => true
  | JNaN, JNaN => true
  | JNum x, JNum y => Z.eqb x y
  | JStr x, JStr y => String.eqb x y
  | JBool x, JBool y => Bool.eqb x y
  | _, _ => false
  end.

(** [a === b] on primitive values. *)
Definition strict_equal (a b : jsval) : bool :=
  match a, b with
  | JNaN, JNaN => false
  | _, _ => same_value a b
  end.

(** Truthiness, as used by [c.foil ? 1 : 0]. *)
Definition truthy (v : jsval) : bool :=
  match v with
  | JUndef | JNull | JNaN => false
  | JNum n => negb (n =? 0)
  | JStr s => negb (String.eqb s "")
  | JBool b => b
  end.

Definition string_of_Z (z : Z) : string :=
  NilZero.string_of_int (Z.to_int z).

(** [String(v)], the conversion a template literal applies. *)
Definition to_string (v : jsval) : string :=
  match v with
  | JUndef => "undefined"
  | JNull => "null"
  | JNaN => "NaN"
  | JNum n => string_of_Z n
  | JStr s => s
  | JBool true => "true"
  | JBool false => "false"
  end.

(** Objects: own enumerable properties in insertion order. *)
Definition jsobj : Type := list (string * jsval).

(** [key in o] *)
Fixpoint has_key (k : string) (o : jsobj) : bool :=
  match o with
  | [] => false
  | (k', _) :: o' => if String.eqb k k' then true else has_key k o'
  end.

(** [o[k]]: [undefined] when the property is absent. *)
Fixpoint get (k : string) (o : jsobj) : jsval :=
  match o with
  | [] => JUndef
  | (k', v) :: o' => if String.eqb k k' then v else get k o'
  end.

(** [{...o, k: v}]: an existing property keeps its place. *)
Fixpoint set (k : string) (v : jsval) (o : jsobj) : jsobj :=
  match o with
  | [] => [(k, v)]
  | (k', v') :: o' =>
      if String.eqb k k' then (k, v) :: o' else (k', v') :: set k v o'
  end.

(** [const { [k]: unused, ...rest } = o] *)
Definition without (k : string) (o : jsobj) : jsobj :=
  filter (fun kv => negb (String.eqb k (fst kv))) o.

(** [xs.includes(v)] and [Set]/[Map] membership. *)
Definition includes (xs : list jsval) (v : jsval) : bool :=
  existsb (same_value v) xs.

(** [Set.prototype.add] *)
Definition set_add (v : jsval) (s : list jsval) : list jsval :=
  if includes s v then s else s ++ [v].

(** [Map] with primitive keys. *)
Section MapOps.
Context {V : Type}.

Fixpoint map_get (k : jsval) (m : list (jsval * V)) : option V :=
  match m with
  | [] => None
  | (k', v) :: m' => if same_value k k' then Some v else map_get k m'
  end.

Definition map_has (k : jsval) (m : list (jsval * V)) : bool :=
  match map_get k m with Some _ => true | None => false end.

Fixpoint map_set (k : jsval) (v : V) (m : list (jsval * V))
  : list (jsval * V) :=
  match m with
  | [] => [(k, v)]
  | (k', v') :: m' =>
      if same_value k k' then (k, v) :: m' else (k', v') :: map_set k v m'
  end.

Definition map_values (m : list (jsval * V)) : list V := map snd m.
Definition map_keys (m : list (jsval * V)) : list jsval := map fst m.
End MapOps.

(** [new Map(pairs)] *)
Definition map_of_pairs {V : Type} (ps : list (jsval * V)) : list (jsval * V) :=
  fold_left (fun m p => map_set (fst p) (snd p) m) ps [].

(** [m.get(k)] of a map whose values are primitives. *)
Definition map_get_val (k : jsval) (m : list (jsval * jsval)) : jsval :=
  match map_get k m with Some v => v | None => JUndef end.

(** *** Strings *)

(** [s.lastIndexOf(pat)], [-1] when [pat] does not occur. *)
Fixpoint lastIndexOf_from (pat s : string) (i acc : Z) : Z :=
  match s with
  | EmptyString => if prefix pat s then i else acc
  | String _ r =>
      lastIndexOf_from pat r (i + 1) (if prefix pat s then i else acc)
  end.

Definition lastIndexOf (s pat : string) : Z := lastIndexOf_from pat s 0 (-1).

(** [s.substring(start)] *)
Definition substring_from (s : string) (start : Z) : string :=
  let n := Z.to_nat (Z.max 0 start) in
  substring n (String.length s - n) s.

(** [s.replace(pat, by)] with a string pattern: the first occurrence only. *)
Fixpoint replace_first (pat by_ s : string) : string :=
  if prefix pat s
  then by_ ++ substring (String.length pat) (String.length s - String.length pat) s
  else match s with
       | EmptyString => EmptyString
       | String c r => String c (replace_first pat by_ r)
       end.

(** [s.split(sep)[0]] for a non-empty separator. *)
Fixpoint split_head (sep s : string) : string :=
  if prefix sep s then EmptyString
  else match s with
       | EmptyString => EmptyString
       | String c r => String c (split_head sep r)
       end.

(** *** [parseInt(s)] without a radix *)

Definition is_space (c : ascii) : bool :=
  let n := nat_of_ascii c in
  orb (Nat.eqb n 32) (andb (Nat.leb 9 n) (Nat.leb n 13)).

Definition dec_digit (c : ascii) : option Z :=
  let n := Z.of_nat (nat_of_ascii c) in
  if (48 <=? n) && (n <=? 57) then Some (n - 48) else None.

Definition hex_digit (c : ascii) : option Z :=
  let n := Z.of_nat (nat_of_ascii c) in
  if (48 <=? n) && (n <=? 57) then Some (n - 48)
  else if (97 <=? n) && (n <=? 102) then Some (n - 87)
  else if (65 <=? n) && (n <=? 70) then Some (n - 55)
  else None.

Fixpoint skip_spaces (s : string) : string :=
  match s with
  | String c r => if is_space c then skip_spaces r else s
  | EmptyString => s
  end.

(** The longest prefix of digits, read in [radix]; [None] when the
    first character is not a digit. *)
Fixpoint read_digits (radix : Z) (digit : ascii -> option Z)
         (s : string) (acc : option Z) : option Z :=
  match s with
  | String c r =>
      match digit c with
      | Some d =>
          read_digits radix digit r
            (Some (radix * match acc with Some a => a | None => 0 end + d))
      | None => acc
      end
  | EmptyString => acc
  end.

Definition read_unsigned (s : string) : option Z :=
  match s with
  | String "0" (String x r) =>
      if orb (Ascii.eqb x "x") (Ascii.eqb x "X")
      then read_digits 16 hex_digit r None
      else read_digits 10 dec_digit s None
  | _ => read_digits 10 dec_digit s None
  end.

Definition parseInt (s : string) : jsval :=
  let t := skip_spaces s in
  let '(neg, body) :=
    match t with
    | String "-" r => (true, r)
    | String "+" r => (false, r)
    | _ => (false, t)
    end in
  match read_unsigned body with
  | Some n => JNum (if neg then - n else n)
  | None => JNaN
  end.

(** *** [a + b] on primitive values *)

(** [Number(v)] for a value that is not a string. *)
Definition to_number (v : jsval) : jsval :=
  match v with
  | JUndef => JNaN
  | JNull => JNum 0
  | JBool b => JNum (if b then 1 else 0)
  | _ => v
  end.

Definition plus (a b : jsval) : jsval :=
  match a, b with
  | JStr x, _ => JStr (x ++ to_string b)
  | _, JStr y => JStr (to_string a ++ y)
  | _, _ =>
      match to_number a, to_number b with
      | JNum x, JNum y => JNum (x + y)
      | _, _ => JNaN
      end
  end.

(** [o[k] = v] on a plain object, for a number [v]: the setter of
    [__proto__] ignores a number; a new property comes last, as it
    does for a key that is no array index. *)
Definition assign (k : string) (v : jsval) (o : jsobj) : jsobj :=
  if String.eqb k "__proto__" then o else set k v o.

End Js.

(* ================================================================== *)
(** ** pg-format: how [%L] renders its argument                        *)
(* ================================================================== *)

Module PgFormat.
Import Js.

(** The argument of [%L]: a primitive or a (nested) array. *)
Inductive lit : Type :=
| LVal (v : jsval)
| LArr (l : list lit).

Definition is_quote (c : ascii) : bool := Ascii.eqb c "'".
Definition is_backslash (c : ascii) : bool := Ascii.eqb c "\".

Fixpoint has_backslash (s : string) : bool :=
  match s with
  | EmptyString => false
  | String c r => if is_backslash c then true else has_backslash r
  end.

(** The loop of [quoteLiteral]: quotes and backslashes are doubled. *)
Fixpoint escape (s : string) : string :=
  match s with
  | EmptyString => EmptyString
  | String c r =>
      if orb (is_quote c) (is_backslash c)
      then String c (String c (escape r))
      else String c (escape r)
  end.

Definition quote_text (s : string) : string :=
  (if has_backslash s then "E" else "") ++ "'" ++ escape s ++ "'".

Definition quote_scalar (v : jsval) : string :=
  match v with
  | JUndef | JNull => "NULL"
  | JBool false => "'f'"
  | JBool true => "'t'"
  | _ => quote_text (to_string v)
  end.

(** [quoteLiteral]: an array is the comma-joined list of its elements;
    an element that is itself an array is parenthesised by
    [arrayToList], with a leading space when it is not the first. *)
Fixpoint quoteLiteral (x : lit) : string :=
  match x with
  | LVal v => quote_scalar v
  | LArr l =>
      let fix elems (first : bool) (l : list lit) : list string :=
        match l with
        | [] => []
        | e :: r =>
            match e with
            | LArr a =>
                (if first then "(" else " (")
                  ++ String.concat ", "
                       ((fix each (a : list lit) : list string :=
                           match a with
                           | [] => []
                           | y :: ys => quoteLiteral y :: each ys
                           end) a)
                  ++ ")"
            | LVal v => quote_scalar v
            end :: elems false r
        end in
      String.concat "," (elems true l)
  end.

End PgFormat.

(* ================================================================== *)
(** ** The relational store behind the connection pool                 *)
(* ================================================================== *)

Module Store.
Import Js PgFormat.

(** The tables declared by [Repository._createSchema]. *)
Inductive table_name : Type :=
| UPDATE_HISTORY | ELEMENT | RARITY | FAMILY | CTA_USER
| CARD_META | CARD | MINT_PASS_TYPE | MINT_PASS.

Definition sql_name (t : table_name) : string :=
  match t with
  | UPDATE_HISTORY => "UPDATE_HISTORY"
  | ELEMENT => "ELEMENT"
  | RARITY => "RARITY"
  | FAMILY => "FAMILY"
  | CTA_USER => "CTA_USER"
  | CARD_META => "CARD_META"
  | CARD => "CARD"
  | MINT_PASS_TYPE => "MINT_PASS_TYPE"
  | MINT_PASS => "MINT_PASS"
  end.

Inductive coltype : Type := TInt | TText.

Record column : Type := Col {
  col_name : string;
  col_type : coltype;
  col_serial : bool;     (* SERIAL: defaults to the next sequence value *)
  col_notnull : bool;
  col_unique : bool      (* PRIMARY KEY or UNIQUE *)
}.

Definition serial_pk (n : string) : column := Col n TInt true true true.
Definition int_pk (n : string) : column := Col n TInt false true true.
Definition int_col (n : string) : column := Col n TInt false false false.
Definition text_col (n : string) : column := Col n TText false false false.
Definition text_notnull (n : string) : column := Col n TText false true false.
Definition text_unique (n : string) : column := Col n TText false true true.

(** The column lists of [_createSchema]. *)
Definition schema (t : table_name) : list column :=
  match t with
  | UPDATE_HISTORY =>
      [serial_pk "id"; text_notnull "update_timestamp";
       text_notnull "last_asset_timestamp"; int_col "assets_count"]
  | ELEMENT | RARITY | FAMILY => [serial_pk "id"; text_unique "name"]
  | CTA_USER => [serial_pk "id"; text_unique "address"]
  | CARD_META =>
      [int_pk "id"; text_col "name"; text_col "description";
       text_col "image_url"; text_col "advancement"; text_col "card_type";
       int_col "element_id"; int_col "rarity_id"; int_col "family_id"]
  | CARD =>
      [int_pk "id"; int_col "foil"; int_col "rank"; text_col "grade";
       int_col "animationLevel"; int_col "numbering"; int_col "power";
       text_col "created_at"; text_col "updated_at";
       int_col "card_meta_id"; int_col "user_id"]
  | MINT_PASS_TYPE =>
      [serial_pk "id"; text_col "pass_type"; text_col "name";
       text_col "description"; text_col "image_url"]
  | MINT_PASS =>
      [int_pk "id"; int_col "numbering"; text_col "created_at";
       text_col "updated_at"; int_col "mint_pass_type_id"; int_col "user_id"]
  end.

(** A stored row lists its columns in schema order. *)
Definition row : Type := jsobj.

Record table : Type := Table {
  rows : list row;
  seq : Z                (* next value of the table's id sequence *)
}.

Record database : Type := Database {
  update_history : table;
  element : table;
  rarity : table;
  family : table;
  cta_user : table;
  card_meta : table;
  card : table;
  mint_pass_type : table;
  mint_pass : table
}.

Definition get_table (t : table_name) (d : database) : table :=
  match t with
  | UPDATE_HISTORY => update_history d
  | ELEMENT => element d
  | RARITY => rarity d
  | FAMILY => family d
  | CTA_USER => cta_user d
  | CARD_META => card_meta d
  | CARD => card d
  | MINT_PASS_TYPE => mint_pass_type d
  | MINT_PASS => mint_pass d
  end.

Definition set_table (t : table_name) (x : table) (d : database) : database :=
  match t with
  | UPDATE_HISTORY =>
      Database x (element d) (rarity d) (family d) (cta_user d)
               (card_meta d) (card d) (mint_pass_type d) (mint_pass d)
  | ELEMENT =>
      Database (update_history d) x (rarity d) (family d) (cta_user d)
               (card_meta d) (card d) (mint_pass_type d) (mint_pass d)
  | RARITY =>
      Database (update_history d) (element d) x (family d) (cta_user d)
               (card_meta d) (card d) (mint_pass_type d) (mint_pass d)
  | FAMILY =>
      Database (update_history d) (element d) (rarity d) x (cta_user d)
               (card_meta d) (card d) (mint_pass_type d) (mint_pass d)
  | CTA_USER =>
      Database (update_history d) (element d) (rarity d) (family d) x
               (card_meta d) (card d) (mint_pass_type d) (mint_pass d)
  | CARD_META =>
      Database (update_history d) (element d) (rarity d) (family d)
               (cta_user d) x (card d) (mint_pass_type d) (mint_pass d)
  | CARD =>
      Database (update_history d) (element d) (rarity d) (family d)
               (cta_user d) (card_meta d) x (mint_pass_type d) (mint_pass d)
  | MINT_PASS_TYPE =>
      Database (update_history d) (element d) (rarity d) (family d)
               (cta_user d) (card_meta d) (card d) x (mint_pass d)
  | MINT_PASS =>
      Database (update_history d) (element d) (rarity d) (family d)
               (cta_user d) (card_meta d) (card d) (mint_pass_type d) x
  end.

Definition empty_table : table := Table [] 1.

Definition empty_database : database :=
  Database empty_table empty_table empty_table empty_table empty_table
           empty_table empty_table empty_table empty_table.

(** *** Statements

    The statements [DatabaseService] and the synchronisation path of
    [Repository] issue, kept as syntax trees; [sql_text] is the text
    the code builds for each of them. *)

Inductive fieldNames : Type :=
| FName (f : string)            (* a single field name, as a string *)
| FList (fs : list string).     (* an array of field names *)

Inductive statement : Type :=
| Select (t : table_name) (cols : list string)
| Insert (t : table_name) (fields : fieldNames) (newRows : list lit)
         (pkName : string)
| Update (t : table_name) (fields : fieldNames) (vals : lit)
         (pkName : string) (pkValue : jsval)
| Delete (t : table_name) (ids : list jsval).

Definition field_list (f : fieldNames) : list string :=
  match f with
  | FName s => [s]
  | FList l => l
  end.

(** [_fieldString] *)
Definition _fieldString (f : fieldNames) : string :=
  match f with
  | FName s => s
  | FList l => String.concat "," l
  end.

(** The layout of the template literals is flattened to single
    spaces; every interpolation and every [%L] is kept where the
    source has it. *)
Definition sql_text (s : statement) : string :=
  match s with
  | Select t cols =>
      "SELECT " ++ String.concat ", " cols ++ " FROM " ++ sql_name t
  | Insert t f newRows pk =>
      "INSERT INTO " ++ sql_name t ++ "(" ++ _fieldString f ++ ") VALUES "
        ++ quoteLiteral (LArr (map (fun r => LArr [r]) newRows))
        ++ " ON CONFLICT DO NOTHING RETURNING " ++ pk
  | Update t f vals pk pkv =>
      "UPDATE " ++ sql_name t ++ " SET (" ++ _fieldString f ++ ") = "
        ++ quoteLiteral (LArr [vals])
        ++ " WHERE " ++ pk ++ " = " ++ to_string pkv
  | Delete t ids =>
      "DELETE FROM " ++ sql_name t ++ " WHERE id IN ("
        ++ quoteLiteral (LArr (map LVal ids)) ++ ")"
  end.

(** *** What the store does with a statement

    Each statement is atomic: it either takes effect as a whole or is
    rejected and leaves the rows as they were.  Rejections that follow
    from the statement itself are modelled here (an empty [VALUES] or
    [IN] list does not parse; a literal that cannot be read in the
    column's type; a NOT NULL or uniqueness violation outside
    [ON CONFLICT DO NOTHING]).  Everything else that can make the
    store reject a statement (foreign keys, connectivity) is left to
    the fault schedule of the pool, see [World]. *)

Definition is_null (v : jsval) : bool :=
  match v with
  | JNull | JUndef => true
  | _ => false
  end.

Definition in_int4 (z : Z) : bool :=
  (-2147483648 <=? z) && (z <=? 2147483647).

(** An integer written as text: optional blanks, an optional sign,
    digits, optional blanks. *)
Fixpoint all_digits (s : string) : bool :=
  match s with
  | EmptyString => true
  | String c r =>
      match dec_digit c with
      | Some _ => all_digits r
      | None => String.eqb (skip_spaces s) ""
      end
  end.

Definition int_of_text (s : string) : option Z :=
  let t := skip_spaces s in
  let '(neg, body) :=
    match t with
    | String "-" r => (true, r)
    | String "+" r => (false, r)
    | _ => (false, t)
    end in
  match read_digits 10 dec_digit body None with
  | Some n => if all_digits body then Some (if neg then - n else n) else None
  | None => None
  end.

(** The value a quoted literal takes in a column of type [ty]. *)
Definition coerce (ty : coltype) (v : jsval) : option jsval :=
  match v, ty with
  | (JUndef | JNull), _ => Some JNull
  | JNum n, TInt => if in_int4 n then Some (JNum n) else None
  | JStr s, TInt =>
      match int_of_text s with
      | Some n => if in_int4 n then Some (JNum n) else None
      | None => None
      end
  | (JNaN | JBool _), TInt => None
  | JBool true, TText => Some (JStr "t")
  | JBool false, TText => Some (JStr "f")
  | _, TText => Some (JStr (to_string v))
  end.

Fixpoint find_column (n : string) (cols : list column) : option column :=
  match cols with
  | [] => None
  | c :: cs => if String.eqb n (col_name c) then Some c else find_column n cs
  end.

Fixpoint distinct_names (l : list string) : bool :=
  match l with
  | [] => true
  | x :: r => negb (existsb (String.eqb x) r) && distinct_names r
  end.

(** The target list names existing columns, each once, and the tuple
    has as many values. *)
Definition fields_ok (cols : list column) (fields : list string)
           (vals : list jsval) : bool :=
  Nat.eqb (List.length fields) (List.length vals)
  && forallb (fun f => match find_column f cols with
                       | Some _ => true | None => false end) fields
  && distinct_names fields.

(** The values of one tuple, from what [_fieldValues] produced. *)
Definition tuple_values (x : lit) : option (list jsval) :=
  match x with
  | LVal v => Some [v]
  | LArr l =>
      fold_right (fun e acc =>
                    match e, acc with
                    | LVal v, Some vs => Some (v :: vs)
                    | _, _ => None
                    end) (Some []) l
  end.

(** The row an [INSERT] builds from the given fields: a column that
    is not given takes the next sequence value when SERIAL and NULL
    otherwise. *)
Fixpoint make_row (cols : list column) (given : jsobj) (sq : Z)
  : option (row * Z) :=
  match cols with
  | [] => Some ([], sq)
  | c :: cs =>
      let cell :=
        if has_key (col_name c) given
        then match coerce (col_type c) (get (col_name c) given) with
             | Some v => Some (v, sq)
             | None => None
             end
        else if col_serial c then Some (JNum sq, sq + 1)
             else Some (JNull, sq) in
      match cell with
      | Some (v, sq') =>
          if col_notnull c && is_null v then None
          else match make_row cs given sq' with
               | Some (r, sq'') => Some ((col_name c, v) :: r, sq'')
               | None => None
               end
      | None => None
      end
  end.

(** A row conflicts when one of its non-null unique columns already
    holds the same value in some stored row. *)
Definition conflicts (cols : list column) (stored : list row) (r : row)
  : bool :=
  existsb (fun c =>
             col_unique c
             && negb (is_null (get (col_name c) r))
             && existsb (fun r' => same_value (get (col_name c) r')
                                              (get (col_name c) r)) stored)
          cols.

(** [INSERT ... ON CONFLICT DO NOTHING RETURNING pk], tuple by tuple. *)
Fixpoint insert_tuples (cols : list column) (fields : list string)
         (pk : string) (tuples : list lit)
         (stored : list row) (sq : Z) (returned : list jsobj)
  : option (list row * Z * list jsobj) :=
  match tuples with
  | [] => Some (stored, sq, returned)
  | t :: ts =>
      match tuple_values t with
      | None => None
      | Some vals =>
          if fields_ok cols fields vals
          then match make_row cols (combine fields vals) sq with
               | None => None
               | Some (r, sq') =>
                   if conflicts cols stored r
                   then insert_tuples cols fields pk ts stored sq' returned
                   else insert_tuples cols fields pk ts (stored ++ [r]) sq'
                          (returned ++ [[(pk, get pk r)]])
               end
          else None
      end
  end.

Definition exec_insert (cols : list column) (fields : list string)
           (pk : string) (tuples : list lit) (t : table)
  : option (list jsobj * table) :=
  match tuples, find_column pk cols with
  | [], _ => None
  | _, None => None
  | _, Some _ =>
      match insert_tuples cols fields pk tuples (rows t) (seq t) [] with
      | Some (stored, sq, returned) => Some (returned, Table stored sq)
      | None => None
      end
  end.

(** The integer the text after [WHERE pk =] denotes: [Some None] is
    [null], which no row equals.  Text that is not an integer makes
    the statement something else than a keyed update; it is counted
    as rejected. *)
Definition where_key (v : jsval) : option (option Z) :=
  match v with
  | JNum n => Some (Some n)
  | JNull => Some None
  | JStr s =>
      match int_of_text s with
      | Some n => Some (Some n)
      | None => None
      end
  | JUndef | JNaN | JBool _ => None
  end.

Fixpoint coerce_fields (cols : list column) (given : jsobj) : option jsobj :=
  match given with
  | [] => Some []
  | (f, v) :: g =>
      match find_column f cols, coerce_fields cols g with
      | Some c, Some g' =>
          match coerce (col_type c) v with
          | Some v' => Some ((f, v') :: g')
          | None => None
          end
      | _, _ => None
      end
  end.

Definition key_is (pk : string) (k : option Z) (r : row) : bool :=
  match k with
  | Some n => same_value (get pk r) (JNum n)
  | None => false
  end.

Definition overwrite (assigned : jsobj) (r : row) : row :=
  map (fun kv => (fst kv,
                  if has_key (fst kv) assigned
                  then get (fst kv) assigned else snd kv)) r.

Fixpoint distinct (vs : list jsval) : bool :=
  match vs with
  | [] => true
  | v :: r => negb (includes r v) && distinct r
  end.

Definition column_values (c : string) (rs : list row) : list jsval :=
  filter (fun v => negb (is_null v)) (map (get c) rs).

Definition unique_ok (cols : list column) (rs : list row) : bool :=
  forallb (fun c => negb (col_unique c)
                    || distinct (column_values (col_name c) rs)) cols.

Definition notnull_ok (cols : list column) (r : row) : bool :=
  forallb (fun c => negb (col_notnull c)
                    || negb (is_null (get (col_name c) r))) cols.

(** [UPDATE t SET (fields) = (vals) WHERE pk = key] *)
Definition exec_update (cols : list column) (fields : list string)
           (vals : lit) (pk : string) (pkValue : jsval) (t : table)
  : option (list jsobj * table) :=
  match tuple_values vals, find_column pk cols, where_key pkValue with
  | Some vs, Some (Col _ TInt _ _ _), Some key =>
      if fields_ok cols fields vs
      then match coerce_fields cols (combine fields vs) with
           | Some assigned =>
               let stored :=
                 map (fun r => if key_is pk key r
                               then overwrite assigned r else r) (rows t) in
               if forallb (fun r => negb (key_is pk key r)
                                    || notnull_ok cols (overwrite assigned r))
                          (rows t)
                  && unique_ok cols stored
               then Some ([], Table stored (seq t))
               else None
           | None => None
           end
      else None
  | _, _, _ => None
  end.

(** [DELETE FROM t WHERE id IN (ids)] *)
Fixpoint coerce_ids (ids : list jsval) : option (list jsval) :=
  match ids with
  | [] => Some []
  | v :: r =>
      match coerce TInt v, coerce_ids r with
      | Some v', Some r' => Some (v' :: r')
      | _, _ => None
      end
  end.

Definition exec_delete (ids : list jsval) (t : table)
  : option (list jsobj * table) :=
  match ids with
  | [] => None
  | _ =>
      match coerce_ids ids with
      | Some keys =>
          let keys := filter (fun k => negb (is_null k)) keys in
          Some ([], Table (filter (fun r => negb (includes keys (get "id" r)))
                                  (rows t))
                          (seq t))
      | None => None
      end
  end.

(** [SELECT cols FROM t] *)
Definition exec_select (schema_cols : list column) (cols : list string)
           (t : table) : option (list jsobj * table) :=
  if forallb (fun f => match find_column f schema_cols with
                       | Some _ => true | None => false end) cols
  then Some (map (fun r => map (fun f => (f, get f r)) cols) (rows t), t)
  else None.

Definition exec (s : statement) (d : database)
  : option (list jsobj * database) :=
  let on (t : table_name) (res : option (list jsobj * table)) :=
    match res with
    | Some (out, t') => Some (out, set_table t t' d)
    | None => None
    end in
  match s with
  | Select t cols => on t (exec_select (schema t) cols (get_table t d))
  | Insert t f newRows pk =>
      on t (exec_insert (schema t) (field_list f) pk newRows (get_table t d))
  | Update t f vals pk pkv =>
      on t (exec_update (schema t) (field_list f) vals pk pkv (get_table t d))
  | Delete t ids => on t (exec_delete ids (get_table t d))
  end.

(** *** The reports on the checkpoint table

    [SELECT c FROM UPDATE_HISTORY ORDER BY k DESC LIMIT 1]: the first
    row in descending order of [k], if there is a row.  In descending
    order NULL comes first. *)
Definition greatest (gt : row -> row -> bool) (l : list row) : option row :=
  fold_left (fun best r =>
               match best with
               | None => Some r
               | Some b => if gt r b then Some r else Some b
               end) l None.

(** Descending order of an integer column. *)
Definition int_after (c : string) (r b : row) : bool :=
  match get c r, get c b with
  | JNum x, JNum y => y <? x
  | JNum _, _ => false
  | _, JNum _ => true
  | _, _ => false
  end.

(** Descending order of a text column; how two strings compare is the
    collation of the database, [lt]. *)
Definition text_after (lt : string -> string -> bool) (c : string) (r b : row)
  : bool :=
  match get c r, get c b with
  | JStr x, JStr y => lt y x
  | JStr _, _ => false
  | _, JStr _ => true
  | _, _ => false
  end.

Definition first_desc (gt : row -> row -> bool) (c : string) (t : table)
  : list jsobj :=
  match greatest gt (rows t) with
  | Some r => [[(c, get c r)]]
  | None => []
  end.

Definition last_update_text : string :=
  "SELECT update_timestamp FROM UPDATE_HISTORY ORDER BY id DESC LIMIT 1".

Definition last_asset_timestamp_text : string :=
  "SELECT last_asset_timestamp FROM UPDATE_HISTORY ORDER BY update_timestamp DESC LIMIT 1".

End Store.

(* ================================================================== *)
(** ** The world the program runs in                                   *)
(* ================================================================== *)

Module World.
Import Js Store.

(** A record of the upstream feed. *)
Record asset : Type := Asset {
  user : jsval;
  status : jsval;
  token_id : jsval;
  metadata : jsobj;
  created_at : jsval;
  updated_at : jsval
}.

(** What [client.listAssets] was asked. *)
Record request : Type := Request {
  req_pageSize : Z;
  req_cursor : jsval
}.

(** What [client.listAssets] answers: [None] when the call rejects,
    otherwise the continuation cursor and the page. *)
Definition response : Type := option (jsval * list asset).

Record world : Type := World_ {
  db : database;
  faults : list bool;        (* pool: is the next statement rejected? *)
  sent : list string;        (* pool: the statements received so far *)
  feed : list response;      (* upstream: the answers to come *)
  requests : list request;   (* upstream: the calls made so far *)
  clock : nat -> string;     (* wall clock: the n-th reading *)
  ticks : nat;               (* readings taken so far *)
  assets_file : option (list asset);   (* assets.json, if readable *)
  (* fields of the CTAManager instance *)
  lastCursor : jsval;
  assetsFileAlreadyRead : bool
}.

Definition with_db (d : database) (w : world) : world :=
  World_ d (faults w) (sent w) (feed w) (requests w) (clock w) (ticks w)
         (assets_file w) (lastCursor w) (assetsFileAlreadyRead w).
Definition with_pool (f : list bool) (st : list string) (w : world) : world :=
  World_ (db w) f st (feed w) (requests w) (clock w) (ticks w)
         (assets_file w) (lastCursor w) (assetsFileAlreadyRead w).
Definition with_feed (f : list response) (rq : list request) (w : world)
  : world :=
  World_ (db w) (faults w) (sent w) f rq (clock w) (ticks w)
         (assets_file w) (lastCursor w) (assetsFileAlreadyRead w).
Definition with_ticks (n : nat) (w : world) : world :=
  World_ (db w) (faults w) (sent w) (feed w) (requests w) (clock w) n
         (assets_file w) (lastCursor w) (assetsFileAlreadyRead w).
Definition with_lastCursor (c : jsval) (w : world) : world :=
  World_ (db w) (faults w) (sent w) (feed w) (requests w) (clock w) (ticks w)
         (assets_file w) c (assetsFileAlreadyRead w).
Definition with_assetsFileAlreadyRead (b : bool) (w : world) : world :=
  World_ (db w) (faults w) (sent w) (feed w) (requests w) (clock w) (ticks w)
         (assets_file w) (lastCursor w) b.

(** Exceptions.  [OutOfFuel] is not one of the program's: it marks
    the bound of the model's loop, and [CTAManager.update] never
    returns it (lemma [update_fuel_suffices]). *)
Inductive error : Type :=
| StoreError      (* the pool rejected a statement *)
| FetchError      (* listAssets or the file read rejected *)
| TypeError       (* a property of null or undefined was read *)
| OutOfFuel.

Inductive outcome (A : Type) : Type :=
| Ret (a : A)
| Throw (e : error).
Arguments Ret {A} a.
Arguments Throw {A} e.

(** An [async] method: it runs in a world and leaves another. *)
Definition M (A : Type) : Type := world -> outcome A * world.

Definition ret {A} (a : A) : M A := fun w => (Ret a, w).
Definition throw {A} (e : error) : M A := fun w => (Throw e, w).

Definition bind {A B} (m : M A) (k : A -> M B) : M B :=
  fun w =>
    match m w with
    | (Ret a, w') => k a w'
    | (Throw e, w') => (Throw e, w')
    end.

(** [try { m } catch (error) { h }] *)
Definition try_catch {A} (m : M A) (h : error -> M A) : M A :=
  fun w =>
    match m w with
    | (Ret a, w') => (Ret a, w')
    | (Throw e, w') => h e w'
    end.

Definition lift {A} (o : outcome A) : M A := fun w => (o, w).

(** [for (const x of xs) await f(x)] *)
Fixpoint for_each {A} (f : A -> M unit) (xs : list A) : M unit :=
  match xs with
  | [] => ret tt
  | x :: r => bind (f x) (fun _ => for_each f r)
  end.

(** [pool.query(text)]: the statement is rejected when the schedule
    says so or when the store cannot execute it. *)
Definition pool_query (s : statement) : M (list jsobj) :=
  fun w =>
    let w1 := with_pool (tl (faults w)) (sent w ++ [sql_text s]) w in
    match faults w with
    | true :: _ => (Throw StoreError, w1)
    | _ =>
        match exec s (db w) with
        | Some (out, d) => (Ret out, with_db d w1)
        | None => (Throw StoreError, w1)
        end
    end.

(** [client.listAssets(params)] *)
Definition listAssets (rq : request) : M (jsval * list asset) :=
  fun w =>
    let w1 := with_feed (tl (feed w)) (requests w ++ [rq]) w in
    match feed w with
    | Some answer :: _ => (Ret answer, w1)
    | None :: _ => (Throw FetchError, w1)
    | [] => (Ret (req_cursor rq, []), w1)
    end.

(** [new Date().toISOString()] *)
Definition now : M string :=
  fun w => (Ret (clock w (ticks w)), with_ticks (S (ticks w)) w).

(** [JSON.parse(fs.readFileSync("assets.json"))] *)
Definition read_assets_file : M (list asset) :=
  fun w =>
    match assets_file w with
    | Some l => (Ret l, w)
    | None => (Throw FetchError, w)
    end.

(** [pool.query(text)] for a SELECT the store can always answer:
    only the fault schedule makes it reject. *)
Definition pool_select (text : string) (result : database -> list jsobj)
  : M (list jsobj) :=
  fun w =>
    let w1 := with_pool (tl (faults w)) (sent w ++ [text]) w in
    match faults w with
    | true :: _ => (Throw StoreError, w1)
    | _ => (Ret (result (db w)), w1)
    end.

End World.

Declare Scope js_scope.
Delimit Scope js_scope with js.
Notation "x <- m ;; k" := (World.bind m (fun x => k))
  (at level 61, m at next level, right associativity) : js_scope.
Notation "m ;;; k" := (World.bind m (fun _ => k))
  (at level 61, right associativity) : js_scope.

(* ================================================================== *)
(** ** src/DatabaseService.js                                          *)
(* ================================================================== *)

Module DatabaseService.
Import Js PgFormat Store World.
Local Open Scope js_scope.

(** An element of the [values] array: [insert] is called with
    objects and, for the dimension tables, with bare names. *)
Inductive item : Type :=
| Prim (v : jsval)
| Obj (o : jsobj).

(** [_fieldValues] on an object. *)
Definition field_values (f : fieldNames) (o : jsobj) : lit :=
  match f with
  | FName n => LVal (get n o)
  | FList fs => LArr (map (fun n => LVal (get n o)) fs)
  end.

(** [_fieldValues]: [None] is the TypeError of reading a property of
    [null] or [undefined] ([typeof null] is ["object"]).  The field
    names are column names, none of which a primitive carries. *)
Definition _fieldValues (f : fieldNames) (x : item) : option lit :=
  match x with
  | Obj o => Some (field_values f o)
  | Prim v =>
      match f with
      | FName _ =>
          match v with
          | JNull => None
          | _ => Some (LVal v)
          end
      | FList fs =>
          match fs, v with
          | _ :: _, (JNull | JUndef) => None
          | _, _ => Some (LArr (map (fun _ => LVal JUndef) fs))
          end
      end
  end.

(** [values.map((v) => ...)] with a callback that may throw. *)
Fixpoint map_values (f : fieldNames) (values : list item)
  : outcome (list lit) :=
  match values with
  | [] => Ret []
  | v :: r =>
      match _fieldValues f v with
      | None => Throw TypeError
      | Some x =>
          match map_values f r with
          | Ret xs => Ret (x :: xs)
          | Throw e => Throw e
          end
      end
  end.

(** [query]: a rejected statement yields the empty array. *)
Definition query (s : statement) : M (list jsobj) :=
  try_catch (pool_query s) (fun _ => ret []).

(** [delete]: awaits [pool.query] directly. *)
Definition delete (t : table_name) (ids : list jsval) : M unit :=
  pool_query (Delete t ids) ;;; ret tt.

Definition insert (t : table_name) (f : fieldNames) (pkName : string)
           (values : list item) : M (list jsval) :=
  newRows <- lift (map_values f values) ;;
  pkValues <- query (Insert t f newRows pkName) ;;
  ret (map (get pkName) pkValues).

Definition update (t : table_name) (f : fieldNames) (pkName : string)
           (values : list jsobj) : M unit :=
  for_each (fun value =>
              query (Update t f (field_values f value) pkName
                            (get pkName value)) ;;; ret tt)
           values.

Definition upsert (t : table_name) (fieldNames : list string)
           (pkName : string) (values : list jsobj) (insertPk : bool)
  : M unit :=
  pkValues <-
    insert t
      (FList (if insertPk then fieldNames
              else filter (fun f => negb (String.eqb f pkName)) fieldNames))
      pkName
      (if insertPk then map Obj values
       else map (fun v => Obj (without pkName v)) values) ;;
  let updatedRows :=
    match pkValues with
    | _ :: _ =>
        filter (fun v => has_key pkName v
                         && negb (includes pkValues (get pkName v))) values
    | [] => values
    end in
  match updatedRows with
  | _ :: _ => update t (FList fieldNames) pkName updatedRows
  | [] => ret tt
  end.

(** [query] on a SELECT given by its text and its result. *)
Definition query_select (text : string) (result : database -> list jsobj)
  : M (list jsobj) :=
  try_catch (pool_select text result) (fun _ => ret []).

End DatabaseService.

(* ================================================================== *)
(** ** src/Repository.js: the synchronisation path                     *)
(* ================================================================== *)

Module Repository.
Import Js PgFormat Store World.
Local Open Scope js_scope.

Definition jsmap : Type := list (jsval * jsval).

(** [_get_enum_table]: the map from value to row id. *)
Definition _get_enum_table (t : table_name) (fieldName : string) : M jsmap :=
  rs <- DatabaseService.query (Select t ["id"; fieldName]) ;;
  ret (map_of_pairs (map (fun r => (get fieldName r, get "id" r)) rs)).

Definition _insertNewValuesInEnumTable (t : table_name) (fieldName : string)
           (items : list jsval) (readExistingValues : M jsmap) : M unit :=
  existingValues <- readExistingValues ;;
  let newValues := filter (fun v => negb (map_has v existingValues)) items in
  match newValues with
  | _ :: _ =>
      DatabaseService.insert t (FName fieldName) "id"
                             (map DatabaseService.Prim newValues) ;;; ret tt
  | [] => ret tt
  end.

Definition _read_elements : M jsmap := _get_enum_table ELEMENT "name".
Definition _read_rarities : M jsmap := _get_enum_table RARITY "name".
Definition _read_families : M jsmap := _get_enum_table FAMILY "name".
Definition _read_users : M jsmap := _get_enum_table CTA_USER "address".

Definition _read_mint_pass_types : M jsmap :=
  rs <- DatabaseService.query (Select MINT_PASS_TYPE ["id"; "pass_type"]) ;;
  ret (map_of_pairs (map (fun r => (get "pass_type" r, get "id" r)) rs)).

Definition updateElements (elements : list jsval) : M unit :=
  _insertNewValuesInEnumTable ELEMENT "name" elements _read_elements.
Definition updateRarities (rarities : list jsval) : M unit :=
  _insertNewValuesInEnumTable RARITY "name" rarities _read_rarities.
Definition updateFamilies (families : list jsval) : M unit :=
  _insertNewValuesInEnumTable FAMILY "name" families _read_families.
Definition updateUsers (users : list jsval) : M unit :=
  _insertNewValuesInEnumTable CTA_USER "address" users _read_users.

Definition updateMetaCards (metaCards : list jsobj) : M unit :=
  match metaCards with
  | [] => ret tt
  | _ =>
      elements <- _read_elements ;;
      rarities <- _read_rarities ;;
      families <- _read_families ;;
      let rws :=
        map (fun r =>
               set "family_id" (map_get_val (get "family" r) families)
                (set "rarity_id" (map_get_val (get "rarity" r) rarities)
                 (set "element_id" (map_get_val (get "element" r) elements)
                  (set "card_type" (get "cardType" r)
                   (set "image_url" (get "imageUrl" r) r)))))
            metaCards in
      DatabaseService.upsert CARD_META
        ["id"; "name"; "description"; "image_url"; "advancement";
         "card_type"; "element_id"; "rarity_id"; "family_id"]
        "id" rws true
  end.

Definition updateCards (cards : list jsobj) : M unit :=
  match cards with
  | [] => ret tt
  | _ =>
      users <- _read_users ;;
      let rws :=
        map (fun c =>
               set "user_id" (map_get_val (get "user" c) users)
                (set "card_meta_id" (get "card_meta_id" c)
                 (set "power" (get "power" c)
                  (set "foil" (JNum (if truthy (get "foil" c) then 1 else 0))
                       c))))
            cards in
      DatabaseService.upsert CARD
        ["id"; "foil"; "rank"; "grade"; "animationLevel"; "numbering";
         "power"; "created_at"; "updated_at"; "card_meta_id"; "user_id"]
        "id" rws true
  end.

Definition updateMintPassTypes (mintPassTypes : list jsobj) : M unit :=
  match mintPassTypes with
  | [] => ret tt
  | _ =>
      existingPassTypes <- _read_mint_pass_types ;;
      let existingPassTypeNames := map_keys existingPassTypes in
      let rws :=
        map (fun p => set "image_url" (get "imageUrl" p)
                        (set "pass_type" (get "passType" p) p))
            (filter (fun p => negb (includes existingPassTypeNames
                                             (get "passType" p)))
                    mintPassTypes) in
      match rws with
      | _ :: _ =>
          DatabaseService.insert MINT_PASS_TYPE
            (FList ["pass_type"; "name"; "description"; "image_url"])
            "id" (map DatabaseService.Obj rws) ;;; ret tt
      | [] => ret tt
      end
  end.

(** The rows [updateMintPasses] hands to [upsert]. *)
Definition mint_pass_rows (existingPassTypes users : jsmap)
           (mintPasses : list jsobj) : list jsobj :=
  map (fun r =>
         set "user_id" (map_get_val (get "user" r) users)
             (set "mint_pass_type_id"
                  (map_get_val (get "passType" r) existingPassTypes) r))
      mintPasses.

Definition updateMintPasses (mintPasses : list jsobj) : M unit :=
  match mintPasses with
  | [] => ret tt
  | _ =>
      users <- _read_users ;;
      existingPassTypes <- _read_mint_pass_types ;;
      DatabaseService.upsert MINT_PASS
        ["id"; "numbering"; "created_at"; "updated_at";
         "mint_pass_type_id"; "user_id"]
        "id" (mint_pass_rows existingPassTypes users mintPasses) true
  end.

Definition burnPasses (passIds : list jsval) : M unit :=
  match passIds with
  | _ :: _ => DatabaseService.delete MINT_PASS passIds
  | [] => ret tt
  end.

Definition burnCards (cardIds : list jsval) : M unit :=
  match cardIds with
  | _ :: _ => DatabaseService.delete CARD cardIds
  | [] => ret tt
  end.

Definition recordUpdate (updateTimestamp lastAssetTimestamp assetsCount : jsval)
  : M unit :=
  DatabaseService.insert UPDATE_HISTORY
    (FList ["update_timestamp"; "last_asset_timestamp"; "assets_count"])
    "id"
    [DatabaseService.Obj
       [("update_timestamp", updateTimestamp);
        ("last_asset_timestamp", lastAssetTimestamp);
        ("assets_count", assetsCount)]] ;;; ret tt.

(** The argument of [update]. *)
Record batch : Type := Batch {
  arkomes : list jsval;
  rarities : list jsval;
  families : list jsval;
  users : list jsval;
  metaCards : list jsobj;
  cards : list jsobj;
  mintPassTypes : list jsobj;
  mintPasses : list jsobj
}.

Definition update (b : batch) : M unit :=
  updateElements (arkomes b) ;;;
  updateRarities (rarities b) ;;;
  updateFamilies (families b) ;;;
  updateUsers (users b) ;;;
  updateMetaCards (metaCards b) ;;;
  updateCards (cards b) ;;;
  updateMintPassTypes (mintPassTypes b) ;;;
  updateMintPasses (mintPasses b).

Definition burn (passIds cardIds : list jsval) : M unit :=
  burnPasses passIds ;;; burnCards cardIds.

(** [readLastAssetTimestamp]: [rows.length > 0 ? rows[0]... : undefined] *)
Definition readLastAssetTimestamp (lt : string -> string -> bool) : M jsval :=
  rs <- DatabaseService.query_select last_asset_timestamp_text
          (fun d => first_desc (text_after lt "update_timestamp")
                               "last_asset_timestamp" (update_history d)) ;;
  match rs with
  | r :: _ => ret (get "last_asset_timestamp" r)
  | [] => ret JUndef
  end.

(** [get_last_update]: [rows[0].update_timestamp] reads a property of
    [undefined] when there is no row. *)
Definition get_last_update : M jsval :=
  rs <- DatabaseService.query_select last_update_text
          (fun d => first_desc (int_after "id") "update_timestamp"
                               (update_history d)) ;;
  match rs with
  | r :: _ => ret (get "update_timestamp" r)
  | [] => throw TypeError
  end.

End Repository.

(* ================================================================== *)
(** ** src/CTAManager.js: the synchronisation cycle                    *)
(* ================================================================== *)

Module CTAManager.
Import Js PgFormat Store World.
Local Open Scope js_scope.

(** The values of [src/constants.js] the cycle reads. *)
Record config : Type := Config {
  ASSETS_SOURCE : string;
  CTA_PAGE_SIZE : Z;
  MAX_ASSETS_PER_UPDATE : Z
}.

Definition default_config : config := Config "imx" 1000 2000.

(** [url.substring(url.lastIndexOf("/") + 1)]; reading [substring]
    of anything but a string throws. *)
Definition image_filename (a : asset) : outcome string :=
  match get "image" (metadata a) with
  | JStr url => Ret (substring_from url (lastIndexOf url "/" + 1))
  | _ => Throw TypeError
  end.

Definition getMintPassType (a : asset) : outcome string :=
  match image_filename a with
  | Ret filename => Ret (replace_first ".png" "" filename)
  | Throw e => Throw e
  end.

Definition getMetaCardId (a : asset) : outcome string :=
  match image_filename a with
  | Ret filename => Ret (split_head "-" filename)
  | Throw e => Throw e
  end.

Definition _getNewAssetsPage (cfg : config) : M (list asset) :=
  fun w =>
    (answer <- listAssets (Request (CTA_PAGE_SIZE cfg) (lastCursor w)) ;;
     fun w' => (Ret (snd answer), with_lastCursor (fst answer) w')) w.

Definition getNextAssets (cfg : config) : M (list asset) :=
  if String.eqb (ASSETS_SOURCE cfg) "imx" then _getNewAssetsPage cfg
  else fun w =>
         if assetsFileAlreadyRead w then (Ret [], w)
         else read_assets_file (with_assetsFileAlreadyRead true w).

(** The maps and sets one iteration of the loop fills. *)
Record collected : Type := Collected {
  metaCards : list (jsval * jsobj);
  mintPassTypes : list (jsval * jsobj);
  users : list jsval;
  rarities : list jsval;
  elements : list jsval;
  families : list jsval;
  cards : list (jsval * jsobj);
  mintPasses : list (jsval * jsobj)
}.

Definition nothing_collected : collected :=
  Collected [] [] [] [] [] [] [] [].

Definition tokenType (a : asset) : jsval := get "tokenType" (metadata a).

Definition is_burned (a : asset) : bool :=
  same_value (status a) (JStr "burned").

Definition set_if_absent {V} (k : jsval) (v : V) (m : list (jsval * V))
  : list (jsval * V) :=
  if map_has k m then m else map_set k v m.

(** The MINT_PASS branch of the [forEach] callback. *)
Definition collect_mint_pass (a : asset) (c : collected) : outcome collected :=
  match getMintPassType a with
  | Throw e => Throw e
  | Ret passType =>
      let md := metadata a in
      Ret (Collected
             (metaCards c)
             (set_if_absent (JStr passType)
                [("passType", JStr passType);
                 ("name", get "name" md);
                 ("description", get "description" md);
                 ("imageUrl", get "image" md)]
                (mintPassTypes c))
             (users c) (rarities c) (elements c) (families c)
             (cards c)
             (set_if_absent (token_id a)
                [("id", parseInt (to_string (token_id a)));
                 ("passType", JStr passType);
                 ("user", user a);
                 ("numbering", get "numbering" md);
                 ("created_at", created_at a);
                 ("updated_at", updated_at a)]
                (mintPasses c)))
  end.

(** The CARD branch of the [forEach] callback. *)
Definition collect_card (a : asset) (c : collected) : outcome collected :=
  match getMetaCardId a with
  | Throw e => Throw e
  | Ret metaCardId =>
      let md := metadata a in
      Ret (Collected
             (set_if_absent (JStr metaCardId)
                [("id", JStr metaCardId);
                 ("name", get "name" md);
                 ("description", get "description" md);
                 ("imageUrl", get "image" md);
                 ("element", get "element" md);
                 ("rarity", get "rarity" md);
                 ("family", get "set" md);
                 ("advancement", get "advancement" md);
                 ("cardType", get "cardType" md)]
                (metaCards c))
             (mintPassTypes c)
             (set_add (user a) (users c))
             (set_add (get "rarity" md) (rarities c))
             (set_add (get "element" md) (elements c))
             (set_add (get "set" md) (families c))
             (set_if_absent (token_id a)
                [("id", parseInt (to_string (token_id a)));
                 ("card_meta_id", JStr metaCardId);
                 ("user", user a);
                 ("status", status a);
                 ("foil", get "foil" md);
                 ("rank", get "rank" md);
                 ("grade", get "grade" md);
                 ("power", get "power" md);
                 ("potential", get "potential" md);
                 ("numbering", get "numbering" md);
                 ("animationLevel", get "animationLevel" md);
                 ("created_at", created_at a);
                 ("updated_at", updated_at a)]
                (cards c))
             (mintPasses c))
  end.

Definition collect_one (a : asset) (c : collected) : outcome collected :=
  match (if same_value (tokenType a) (JStr "MINT_PASS")
         then collect_mint_pass a c else Ret c) with
  | Throw e => Throw e
  | Ret c1 =>
      if same_value (tokenType a) (JStr "CARD")
      then collect_card a c1 else Ret c1
  end.

(** [assets.filter((a) => a.status !== "burned").forEach(...)] *)
Fixpoint collect_all (l : list asset) (c : collected) : outcome collected :=
  match l with
  | [] => Ret c
  | a :: r =>
      match collect_one a c with
      | Throw e => Throw e
      | Ret c1 => collect_all r c1
      end
  end.

Definition collect (assets : list asset) : outcome collected :=
  collect_all (filter (fun a => negb (is_burned a)) assets) nothing_collected.

Definition batch_of (c : collected) : Repository.batch :=
  Repository.Batch (elements c) (rarities c) (families c) (users c)
                   (map_values (metaCards c)) (map_values (cards c))
                   (map_values (mintPassTypes c))
                   (map_values (mintPasses c)).

(** The identifiers of the burned records of one kind. *)
Definition burned_ids (kind : string) (assets : list asset) : list jsval :=
  map (fun a => parseInt (to_string (token_id a)))
      (filter (fun a => same_value (tokenType a) (JStr kind))
              (filter is_burned assets)).

(** The [try { assets = await this.getNextAssets(); ... } catch { return }]
    of [update]: [None] when the cycle is to be abandoned. *)
Definition try_next (cfg : config) : M (option (list asset)) :=
  try_catch (assets <- getNextAssets cfg ;; ret (Some assets))
            (fun _ => ret None).

(** The body of the [while] loop up to the next fetch. *)
Definition process_page (assets : list asset) : M unit :=
  updateTs <- now ;;
  c <- lift (collect assets) ;;
  Repository.update (batch_of c) ;;;
  Repository.burn (burned_ids "MINT_PASS" assets) (burned_ids "CARD" assets) ;;;
  match assets with
  | first :: _ =>
      let lastAssetTs := updated_at first in
      Repository.recordUpdate (JStr updateTs) lastAssetTs
                              (JNum (Z.of_nat (List.length assets)))
  | [] => ret tt
  end.

Fixpoint update_loop (fuel : nat) (cfg : config)
         (assets : list asset) (assetsCount : Z) : M unit :=
  if (0 <? Z.of_nat (List.length assets))
     && (assetsCount <? MAX_ASSETS_PER_UPDATE cfg)
  then match fuel with
       | O => throw OutOfFuel
       | S fuel' =>
           process_page assets ;;;
           next <- try_next cfg ;;
           match next with
           | None => ret tt
           | Some assets' =>
               update_loop fuel' cfg assets' (Z.of_nat (List.length assets'))
           end
       end
  else ret tt.

Definition update (cfg : config) : M unit :=
  fun w =>
    (first <- try_next cfg ;;
     match first with
     | None => ret tt
     | Some assets =>
         update_loop (S (List.length (feed w))) cfg assets
                     (Z.of_nat (List.length assets))
     end) w.

End CTAManager.

(* ================================================================== *)
(** ** src/constants.js: the supply of a card                          *)
(* ================================================================== *)

Module Constants.
Import Js.

Definition KNOWN_SUPPLY_RARITIES : list jsval :=
  [JStr "MYTHIC"; JStr "ULTRA_RARE"; JStr "SPECIAL_RARE"; JStr "RARE";
   JStr "UNCOMMON"; JStr "COMMON"].

(** One half of [CARD_SUPPLY]: by rarity, then by advancement. *)
Definition supplies : Type := list (string * list (string * Z)).

Definition CARD_SUPPLY_normal : supplies :=
  [("MYTHIC",
    [("STANDARD", 20000); ("ALTERNATIVE", 10000); ("ALTERNATIVE_COMBO", 5000)]);
   ("ULTRA_RARE",
    [("STANDARD", 60000); ("ALTERNATIVE", 30000); ("ALTERNATIVE_COMBO", 15000)]);
   ("SPECIAL_RARE",
    [("STANDARD", 100000); ("ALTERNATIVE", 40000); ("ALTERNATIVE_COMBO", 20000)]);
   ("RARE",
    [("STANDARD", 150000); ("ALTERNATIVE", 50000); ("ALTERNATIVE_COMBO", 25000)]);
   ("UNCOMMON",
    [("STANDARD", 400000); ("ALTERNATIVE", 100000); ("ALTERNATIVE_COMBO", 50000)]);
   ("COMMON",
    [("STANDARD", 800000); ("ALTERNATIVE", 300000); ("ALTERNATIVE_COMBO", 150000)])].

Definition CARD_SUPPLY_foil : supplies :=
  [("MYTHIC",
    [("STANDARD", 4000); ("ALTERNATIVE", 2000); ("ALTERNATIVE_COMBO", 1000)]);
   ("ULTRA_RARE",
    [("STANDARD", 12000); ("ALTERNATIVE", 6000); ("ALTERNATIVE_COMBO", 3000)]);
   ("SPECIAL_RARE",
    [("STANDARD", 20000); ("ALTERNATIVE", 8000); ("ALTERNATIVE_COMBO", 4000)]);
   ("RARE",
    [("STANDARD", 30000); ("ALTERNATIVE", 10000); ("ALTERNATIVE_COMBO", 5000)]);
   ("UNCOMMON",
    [("STANDARD", 80000); ("ALTERNATIVE", 20000); ("ALTERNATIVE_COMBO", 10000)]);
   ("COMMON",
    [("STANDARD", 160000); ("ALTERNATIVE", 60000); ("ALTERNATIVE_COMBO", 30000)])].

(** What reading a property of one of these object literals gives: the
    number of an own property, a member of [Object.prototype], or
    [undefined]. *)
Inductive member : Type :=
| Units (n : Z)
| Inherited (name : string)
| Missing.

Definition Object_prototype : list string :=
  ["constructor"; "__defineGetter__"; "__defineSetter__"; "hasOwnProperty";
   "__lookupGetter__"; "__lookupSetter__"; "isPrototypeOf";
   "propertyIsEnumerable"; "toString"; "valueOf"; "__proto__";
   "toLocaleString"].

Fixpoint own {V} (k : string) (o : list (string * V)) : option V :=
  match o with
  | [] => None
  | (k', v) :: o' => if String.eqb k k' then Some v else own k o'
  end.

(** [o[key]]: the key is converted to a string. *)
Definition member_of (o : list (string * Z)) (key : jsval) : member :=
  let k := to_string key in
  match own k o with
  | Some n => Units n
  | None => if existsb (String.eqb k) Object_prototype
            then Inherited k else Missing
  end.

(** The result of [getSupply]: [null], or an object of two fields.
    [Raises] stands for reading a property of [undefined]. *)
Inductive supply : Type :=
| Null
| Supply (non_foil foil : member)
| Raises.

Definition getSupply (card : jsobj) : supply :=
  if negb (includes KNOWN_SUPPLY_RARITIES (get "rarity" card)) then Null
  else
    if strict_equal (get "card_name" card) (JStr "Hannibal & Honora")
    then Supply (Units 10000) (Units 1000)
    else
      match own (to_string (get "rarity" card)) CARD_SUPPLY_normal,
            own (to_string (get "rarity" card)) CARD_SUPPLY_foil with
      | Some normal, Some foil =>
          Supply (member_of normal (get "advancement" card))
                 (member_of foil (get "advancement" card))
      | _, _ => Raises
      end.

End Constants.

(* ================================================================== *)
(** ** [CTAManager.getCollectionStats]: the two counting loops         *)
(* ================================================================== *)

Module CollectionStats.
Import Js.

(** The object kept for a card in [stdCollection] and [altCollection];
    [by_standard] and [by_foil] are the two objects of its [ranks], or
    of its [grades]. *)
Record card_stats : Type := CardStats {
  id : jsval;
  foil : bool;
  card_name : jsval;
  card_type : jsval;
  advancement : jsval;
  element : jsval;
  rarity : jsval;
  total_count : jsval;
  total_count_non_foil : jsval;
  total_count_foil : jsval;
  supply_percent : jsval;
  supply : Constants.supply;
  by_standard : jsobj;
  by_foil : jsobj
}.

(** The object literal of the loops, for row [c]. *)
Definition new_stats (zeros : jsobj) (c : jsobj) : card_stats :=
  {| id := get "id" c;
     foil := truthy (get "foil" c);
     card_name := get "card_name" c;
     card_type := get "card_type" c;
     advancement := get "advancement" c;
     element := get "element" c;
     rarity := get "rarity" c;
     total_count := JNum 0;
     total_count_non_foil := JNum 0;
     total_count_foil := JNum 0;
     supply_percent := JNum 0;
     supply := Constants.getSupply c;
     by_standard := zeros;
     by_foil := zeros |}.

(** The body of the loops: [slot] names the property of the
    breakdown that row [c] writes. *)
Definition count_row (slot : jsobj -> string) (zeros : jsobj)
           (collection : list (jsval * card_stats)) (c : jsobj)
  : list (jsval * card_stats) :=
  let cardCount := parseInt (to_string (get "count" c)) in
  let values :=
    match map_get (get "id" c) collection with
    | Some e => e
    | None => new_stats zeros c
    end in
  let is_foil := truthy (get "foil" c) in
  map_set (get "id" c)
    {| id := id values;
       foil := foil values;
       card_name := card_name values;
       card_type := card_type values;
       advancement := advancement values;
       element := element values;
       rarity := rarity values;
       total_count := plus (total_count values) cardCount;
       total_count_non_foil :=
         plus (total_count_non_foil values)
              (if is_foil then JNum 0 else cardCount);
       total_count_foil :=
         plus (total_count_foil values)
              (if is_foil then cardCount else JNum 0);
       supply_percent := supply_percent values;
       supply := supply values;
       by_standard :=
         if is_foil then by_standard values
         else assign (slot c) cardCount (by_standard values);
       by_foil :=
         if is_foil then assign (slot c) cardCount (by_foil values)
         else by_foil values |}
    collection.

Definition collect (slot : jsobj -> string) (zeros : jsobj)
           (cards : list jsobj) : list (jsval * card_stats) :=
  fold_left (count_row slot zeros) cards [].

(** [stdCards.forEach]: the breakdown is by rank. *)
Definition stdCollection (stdCards : list jsobj) : list (jsval * card_stats) :=
  collect (fun c => "r" ++ to_string (get "rank" c))
          [("r1", JNum 0); ("r2", JNum 0); ("r3", JNum 0); ("r4", JNum 0);
           ("r5", JNum 0)]
          stdCards.

(** [altCards.forEach]: the breakdown is by grade. *)
Definition altCollection (altCards : list jsobj) : list (jsval * card_stats) :=
  collect (fun c => to_string (get "grade" c))
          [("C", JNum 0); ("B", JNum 0); ("A", JNum 0); ("S", JNum 0)]
          altCards.

End CollectionStats.

(* ================================================================== *)
(** ** The array helpers                                               *)
(* ================================================================== *)

Module Utils.

(** [partition]: [reduce] pushes every item on one of two arrays. *)
Definition partition {A} (data : list A) (filter : A -> bool)
  : list A * list A :=
  fold_left (fun r o => if filter o
                        then ((fst r ++ [o])%list, snd r)
                        else (fst r, (snd r ++ [o])%list))
            data ([], []).

(** [rows.splice(0, size)]: the delete count is clamped to
    [0 .. rows.length]; the removed items and what is left of [rows]. *)
Definition splice0 {A} (rows : list A) (size : Z) : list A * list A :=
  let n := Z.to_nat (Z.max 0 size) in
  (firstn n rows, skipn n rows).

(** The [while (rows.length)] loop of [splitInChunks], on its two
    variables; [None] when [fuel] iterations did not end it. *)
Fixpoint splitInChunks_loop {A} (fuel : nat) (rows : list A)
         (chunks : list (list A)) (size : Z)
  : option (list (list A) * list A) :=
  match rows with
  | [] => Some (chunks, rows)
  | _ :: _ =>
      match fuel with
      | O => None
      | S k =>
          let '(removed, rest) := splice0 rows size in
          splitInChunks_loop k rest (chunks ++ [removed])%list size
      end
  end.

(** [splitInChunks]: the chunks, and the array [rows] as the call
    leaves it. *)
Definition splitInChunks {A} (fuel : nat) (rows : list A) (size : Z)
  : option (list (list A) * list A) :=
  splitInChunks_loop fuel rows [] size.

End Utils.

(* ================================================================== *)
(** ** Notions used to state the properties                            *)
(* ================================================================== *)

Module Spec.
Import Js PgFormat Store World.

(** Identifiers as [parseInt] yields them for numeric token ids. *)
Definition int_ids (ids : list jsval) : bool :=
  forallb (fun v => match v with JNum n => in_int4 n | _ => false end) ids.

(** The pool rejects nothing of what is still to come. *)
Definition no_faults (w : world) : Prop := Forall (fun b => b = false) (faults w).


(** The dimension tables and the method that feeds each of them. *)
Inductive dimension : Type := Element | Rarity | Family | UserAddress.

Definition dim_table (d : dimension) : table_name :=
  match d with
  | Element => ELEMENT
  | Rarity => RARITY
  | Family => FAMILY
  | UserAddress => CTA_USER
  end.

Definition dim_field (d : dimension) : string :=
  match d with
  | UserAddress => "address"
  | _ => "name"
  end.

Definition upsertDimensionValues (d : dimension) (items : list jsval) : M unit :=
  match d with
  | Element => Repository.updateElements items
  | Rarity => Repository.updateRarities items
  | Family => Repository.updateFamilies items
  | UserAddress => Repository.updateUsers items
  end.

(** What a method does to the store is within relation [R]. *)
Definition db_step (R : database -> database -> Prop) {A} (m : M A) : Prop :=
  forall w, R (db w) (db (snd (m w))).

(** Table [t] only grows: the rows it had stay as they are, in place,
    and each added row carries in column [f] one of [items], read as
    text, that no row of the table had; values of [f] that were
    pairwise distinct stay so. *)
Definition grows_by_new (t : table_name) (f : string) (items : list jsval)
           (d d' : database) : Prop :=
  exists added,
    rows (get_table t d') = (rows (get_table t d) ++ added)%list
    /\ (forall r, In r added ->
                  (exists v, In v items /\ coerce TText v = Some (get f r))
                  /\ ~ In (get f r) (map (get f) (rows (get_table t d))))
    /\ (NoDup (map (get f) (rows (get_table t d))) ->
        NoDup (map (get f) (rows (get_table t d')))).


(** *** The upsert of the specification

    An atomic upsert applies the candidates one after the other: a
    candidate whose key is stored replaces the stored row, in place;
    any other candidate becomes a new row. *)

Definition same_key (pk : string) (a b : row) : bool :=
  same_value (get pk a) (get pk b).

Definition replace_row (pk : string) (r : row) (stored : list row) : list row :=
  map (fun r' => if same_key pk r' r then r else r') stored.



(** The row of [batch] that has the key of [r], or [r] itself. *)
Definition replaced_by (pk : string) (batch : list row) (r : row) : row :=
  match find (fun b => same_key pk r b) batch with
  | Some b => b
  | None => r
  end.

Definition is_fresh (pk : string) (stored : list row) (r : row) : bool :=
  negb (existsb (fun r' => same_key pk r' r) stored).


(** The tables written through [upsert], all keyed by an integer id. *)
Definition keyed (t : table_name) : bool :=
  match t with
  | CARD_META | CARD | MINT_PASS => true
  | _ => false
  end.

(** The field list the repository passes for them: every column. *)
Definition all_fields (t : table_name) : list string :=
  map col_name (schema t).

(** The fields of a candidate, as the statement hands them over. *)
Definition given (t : table_name) (v : jsobj) : jsobj :=
  map (fun f => (f, get f v)) (all_fields t).

(** The row the store makes of a candidate, when it accepts it. *)
Definition stored_form (t : table_name) (v : jsobj) : option row :=
  match make_row (schema t) (given t v) 0 with
  | Some (r, _) => Some r
  | None => None
  end.

Definition row_of (t : table_name) (v : jsobj) : row :=
  match stored_form t v with
  | Some r => r
  | None => []
  end.

(** Rows have the columns of the schema and distinct, non-null ids. *)
Definition table_ok (t : table_name) (x : table) : Prop :=
  Forall (fun r => map fst r = all_fields t) (rows x)
  /\ Forall (fun r => is_null (get "id" r) = false) (rows x)
  /\ NoDup (map (get "id") (rows x)).

(** A column without SERIAL, NOT NULL or UNIQUE. *)
Definition plain (c : column) : bool :=
  negb (col_serial c) && negb (col_notnull c) && negb (col_unique c).

(** Every run of [m] relates the world it starts in to the one it
    leaves. *)
Definition step (R : world -> world -> Prop) {A} (m : M A) : Prop :=
  forall w, R w (snd (m w)).

Definition statement_table (s : statement) : table_name :=
  match s with
  | Select t _ | Insert t _ _ _ | Update t _ _ _ _ | Delete t _ => t
  end.

(** *** The cycle *)

(** A world with the upstream side and the retained cursor replaced. *)
Definition upstream (f : list response) (rq : list request) (c : jsval)
           (w : world) : world :=
  with_lastCursor c (with_feed f rq w).

(** [m] neither reads nor writes the upstream side and the cursor. *)
Definition framed {A} (m : M A) : Prop :=
  forall f rq c w,
    m (upstream f rq c w) = (fst (m w), upstream f rq c (snd (m w))).

(** What the feed holds when the cycle ends after the pages it has
    processed: nothing more, or a fetch that fails. *)
Definition stops (stop : list response) : Prop :=
  stop = [] \/ exists rest, stop = None :: rest.

(** The pages of a cycle, processed one after the other. *)
Definition process_pages (pages : list (list asset)) : M unit :=
  for_each CTAManager.process_page pages.

(** The checkpoint table as a store left to the program keeps it: the
    sequence is ahead of every id. *)
Definition history_fresh (w : world) : Prop :=
  forall r n, In r (rows (update_history (db w))) ->
              get "id" r = JNum n -> n < seq (update_history (db w)).

Definition history (w : world) : list row := rows (update_history (db w)).

(** The checkpoint row [recordUpdate] asks for. *)
Definition checkpoint_row (id : Z) (updateTs : string) (lastAssetTs count : jsval)
  : row :=
  [("id", JNum id); ("update_timestamp", JStr updateTs);
   ("last_asset_timestamp", lastAssetTs); ("assets_count", count)].

(** A value as a TEXT column keeps it. *)
Definition as_text (v : jsval) : jsval :=
  match coerce TText v with
  | Some x => x
  | None => JNull
  end.

Definition same_history (w w' : world) : Prop :=
  update_history (db w') = update_history (db w).

Definition keeps_no_faults (w w' : world) : Prop :=
  no_faults w -> no_faults w'.

(** [assets[0].updated_at] *)
Definition first_timestamp (page : list asset) : jsval :=
  match page with
  | first :: _ => updated_at first
  | [] => JUndef
  end.

(** What the checkpoint of a page holds besides the time of the cycle. *)
Definition page_checkpoint (page : list asset) : jsval * jsval :=
  (as_text (first_timestamp page), JNum (Z.of_nat (List.length page))).

(** A page whose checkpoint the store accepts. *)
Definition checkpointable (page : list asset) : Prop :=
  page <> [] /\ is_null (first_timestamp page) = false
  /\ in_int4 (Z.of_nat (List.length page)) = true.

(** *** Order of the checkpoints *)





Inductive subseq {A : Type} : list A -> list A -> Prop :=
| subseq_nil : subseq [] []
| subseq_skip (x : A) (l1 l2 : list A) : subseq l1 l2 -> subseq l1 (x :: l2)
| subseq_take (x : A) (l1 l2 : list A) : subseq l1 l2 -> subseq (x :: l1) (x :: l2).


(** *** What the repository reads back *)




(** *** The bound of the loop *)

(** [m] does not run out of fuel and leaves the source of the records
    (the feed still to come, the flag of the local file) as it is. *)
Definition bounded {A} (m : M A) : Prop :=
  forall w, fst (m w) <> Throw OutOfFuel
            /\ feed (snd (m w)) = feed w
            /\ assetsFileAlreadyRead (snd (m w)) = assetsFileAlreadyRead w.

(** What allows [update_loop] another [fuel] iterations: the page is
    empty, or there are fewer answers left than fuel, or the local
    file has been read. *)
Definition enough (cfg : CTAManager.config) (fuel : nat) (assets : list asset)
           (w : world) : Prop :=
  assets = []
  \/ (String.eqb (CTAManager.ASSETS_SOURCE cfg) "imx" = true
      /\ (List.length (feed w) < fuel)%nat)
  \/ (String.eqb (CTAManager.ASSETS_SOURCE cfg) "imx" = false
      /\ assetsFileAlreadyRead w = true /\ (0 < fuel)%nat).

(** *** Relations between the store before and after a method *)


(** Table [t] lost rows only, each with an id listed in [ids]; the
    rows left are in the order they had. *)
Definition lost_listed (t : table_name) (ids : list jsval) (d d' : database)
  : Prop :=
  exists keep,
    rows (get_table t d') = filter keep (rows (get_table t d))
    /\ (forall r, In r (rows (get_table t d)) -> keep r = false ->
                  exists k, In k ids /\ coerce TInt k = Some (get "id" r))
    /\ seq (get_table t d') = seq (get_table t d).

(** *** Records a page can be made of *)





(** [m] returns normally in every world. *)
Definition returns {A} (m : M A) : Prop :=
  forall w, exists a, fst (m w) = Ret a.

(** A record the classification looks at: live, and a card or a
    pass. *)
Definition relevant (a : asset) : bool :=
  negb (CTAManager.is_burned a)
  && (same_value (CTAManager.tokenType a) (JStr "CARD")
      || same_value (CTAManager.tokenType a) (JStr "MINT_PASS")).

(** The live records of one kind. *)
Definition live (kind : string) (assets : list asset) : list asset :=
  filter (fun a => negb (CTAManager.is_burned a)
                   && same_value (CTAManager.tokenType a) (JStr kind)) assets.

(** The maps and sets of a classification hold each key once. *)
Definition keys_distinct (c : CTAManager.collected) : Prop :=
  NoDup (map fst (CTAManager.metaCards c))
  /\ NoDup (map fst (CTAManager.mintPassTypes c))
  /\ NoDup (CTAManager.users c)
  /\ NoDup (CTAManager.rarities c)
  /\ NoDup (CTAManager.elements c)
  /\ NoDup (CTAManager.families c)
  /\ NoDup (map fst (CTAManager.cards c))
  /\ NoDup (map fst (CTAManager.mintPasses c)).

(** [c'] has the card keys, pass keys and owners of [c]. *)
Definition extends (c c' : CTAManager.collected) : Prop :=
  incl (map fst (CTAManager.cards c)) (map fst (CTAManager.cards c'))
  /\ incl (map fst (CTAManager.mintPasses c)) (map fst (CTAManager.mintPasses c'))
  /\ incl (CTAManager.users c) (CTAManager.users c').

(** *** Image URLs *)

(** [s] does not hold the character [c]. *)
Fixpoint lacks (c : ascii) (s : string) : bool :=
  match s with
  | EmptyString => true
  | String x r => negb (Ascii.eqb x c) && lacks c r
  end.

(** [url] is [file], or a path that ends in [/file]. *)
Definition ends_in_file (url file : string) : Prop :=
  lacks "/" file = true
  /\ (url = file \/ exists dir, url = dir ++ "/" ++ file).

(** *** How a cycle ends

    The answer that ends a cycle after the pages it has processed:
    nothing more to fetch, a fetch that fails, or a page the loop does
    not enter because it is empty or has reached the ceiling. *)
Definition halts (cfg : CTAManager.config) (stop : list response) : Prop :=
  match stop with
  | Some (_, a) :: _ =>
      a = [] \/ CTAManager.MAX_ASSETS_PER_UPDATE cfg <= Z.of_nat (List.length a)
  | _ => True
  end.

(** The cursor the manager retains then, [prev] being the one of the
    last page processed. *)
Definition final_cursor (stop : list response) (prev : jsval) : jsval :=
  match stop with
  | Some (c, _) :: _ => c
  | _ => prev
  end.

(** *** Tables with a serial key *)

(** The sequence of the table is ahead of every id it holds, as it is
    when the ids were all drawn from the sequence. *)
Definition ids_behind (x : table) : Prop :=
  forall r n, In r (rows x) -> get "id" r = JNum n -> n < seq x.

(** Every id of the table is a number below its sequence, as in a
    table whose ids were all drawn from the sequence. *)
Definition serial_ids (x : table) : Prop :=
  forall r, In r (rows x) -> exists k, get "id" r = JNum k /\ k < seq x.

(** *** Pass types as the store keeps them *)

Definition pass_type_fields : list string :=
  ["pass_type"; "name"; "description"; "image_url"].

(** The row an INSERT without id makes of [v] when the sequence is at
    [id]. *)
Definition pass_type_row (id : Z) (v : jsobj) : row :=
  [("id", JNum id);
   ("pass_type", as_text (get "pass_type" v));
   ("name", as_text (get "name" v));
   ("description", as_text (get "description" v));
   ("image_url", as_text (get "image_url" v))].

Fixpoint pass_type_rows (sq : Z) (vs : list jsobj) : list row :=
  match vs with
  | [] => []
  | v :: r => pass_type_row sq v :: pass_type_rows (sq + 1) r
  end.


(** The advancements [CARD_SUPPLY] lists. *)
Definition listed_advancements : list string :=
  ["STANDARD"; "ALTERNATIVE"; "ALTERNATIVE_COMBO"].

Definition is_units (m : Constants.member) : bool :=
  match m with Constants.Units _ => true | _ => false end.

(** *** The statistics of the collection *)


(** The count of a row of the statistics queries, as the loops read
    it. *)
Definition row_count (c : jsobj) : jsval := parseInt (to_string (get "count" c)).

(** The counts of the rows of card [k], added up from 0 in the order
    of the rows. *)
Definition sum_of_counts (k : jsval) (cards : list jsobj) : jsval :=
  fold_left plus
            (map row_count (filter (fun c => same_value k (get "id" c)) cards))
            (JNum 0).

(** The values of [vs] without repetition, each at its first place. *)
Definition distinct (vs : list jsval) : list jsval :=
  fold_left (fun s v => set_add v s) vs [].



End Spec.

(** Concrete data for the examples. *)
Module Samples.
Import Js PgFormat Store World.

Definition iso (n : nat) : string := "T" ++ string_of_Z (Z.of_nat n).

(** A freshly initialised store on which nothing ever fails. *)
Definition fresh : world :=
  World_ empty_database [] [] [] [] iso 0 None JUndef false.

Definition on_db (d : database) : world := with_db d fresh.
Definition on_feed (f : list response) : world := with_feed f [] fresh.
Definition failing (w : world) : world := with_pool [true] (sent w) w.

Definition card_row (id : Z) (grade : string) (owner : jsval) : row :=
  [("id", JNum id); ("foil", JNum 0); ("rank", JNum 1); ("grade", JStr grade);
   ("animationLevel", JNull); ("numbering", JNull); ("power", JNull);
   ("created_at", JStr "c"); ("updated_at", JStr "u");
   ("card_meta_id", JNull); ("user_id", owner)].

Definition three_cards : database :=
  set_table CARD
    (Table [card_row 1 "A" JNull; card_row 2 "B" JNull; card_row 3 "C" JNull] 1)
    empty_database.


(** An active record of the feed. *)
Definition card_asset (id owner image updated : string) : asset :=
  Asset (JStr owner) (JStr "imx") (JStr id)
        [("tokenType", JStr "CARD"); ("name", JStr "Hannibal");
         ("image", JStr image); ("rarity", JStr "RARE");
         ("element", JStr "FIRE"); ("set", JStr "S1");
         ("foil", JBool false); ("rank", JNum 1); ("grade", JStr "C")]
        (JStr "2022-01-01") (JStr updated).

Definition pass_asset (id owner image updated : string) : asset :=
  Asset (JStr owner) (JStr "imx") (JStr id)
        [("tokenType", JStr "MINT_PASS"); ("name", JStr "Gold pass");
         ("image", JStr image)]
        (JStr "2022-01-01") (JStr updated).

(** Ceiling of two records, pages of one. *)
Definition small_budget : CTAManager.config := CTAManager.Config "imx" 1 2.

Definition page1 : list asset :=
  [card_asset "1" "0xA" "https://cdn/10-0001.png" "2022-03-01"].
Definition page2 : list asset :=
  [card_asset "2" "0xB" "https://cdn/10-0002.png" "2022-03-02"].
Definition page3 : list asset :=
  [card_asset "3" "0xC" "https://cdn/11-0001.png" "2022-03-03"].

Definition three_pages : list response :=
  [Some (JStr "cur1", page1); Some (JStr "cur2", page2);
   Some (JStr "cur3", page3)].

(** A page of two records with different update times. *)
Definition two_records : list asset :=
  [card_asset "1" "0xA" "https://cdn/10-0001.png" "2022-03-01";
   card_asset "2" "0xB" "https://cdn/10-0002.png" "2022-03-05"].



(** Candidates for the CARD table: card 2 is stored already (see
    [three_cards]), card 7 is new. *)
Definition card_candidate (id : Z) (grade : string) : jsobj :=
  [("id", JNum id); ("card_meta_id", JNull); ("user", JStr "0xA");
   ("status", JStr "imx"); ("foil", JNum 0); ("rank", JNum 1);
   ("grade", JStr grade); ("created_at", JStr "c"); ("updated_at", JStr "u");
   ("user_id", JNull)].

Definition mixed_batch : list jsobj :=
  [card_candidate 2 "S"; card_candidate 7 "A"].

(** A store that knows the pass type [gold] under an old name, and a
    candidate that carries a new one. *)
Definition gold_stored : database :=
  set_table MINT_PASS_TYPE
    (Table [[("id", JNum 1); ("pass_type", JStr "gold"); ("name", JStr "Old name");
             ("description", JNull); ("image_url", JStr "https://cdn/gold.png")]] 2)
    empty_database.

Definition gold_candidate : jsobj :=
  [("passType", JStr "gold"); ("name", JStr "New name");
   ("description", JUndef); ("imageUrl", JStr "https://cdn/gold.png")].


Definition one_page_then_failure : list response :=
  [Some (JStr "cur1", page1); None].


(** A page with a card of one owner and a pass of another. *)
Definition card_and_pass : list asset :=
  [card_asset "1" "0xA" "https://cdn/10-0001.png" "2022-03-01";
   pass_asset "7" "0xB" "https://cdn/gold.png" "2022-03-02"].



(** A live card whose element is [null]. *)
Definition card_without_element : asset :=
  Asset (JStr "0xA") (JStr "imx") (JStr "5")
        [("tokenType", JStr "CARD"); ("name", JStr "Hannibal");
         ("image", JStr "https://cdn/10-0001.png"); ("rarity", JStr "RARE");
         ("element", JNull); ("set", JStr "S1")]
        (JStr "2022-01-01") (JStr "2022-03-04").

(** The local source, and a world whose [assets.json] holds a page. *)
Definition local_config : CTAManager.config := CTAManager.Config "local" 1000 2000.

Definition on_file (l : list asset) : world :=
  World_ empty_database [] [] [] [] iso 0 (Some l) JUndef false.


(** Two rows of the statistics query for one card: three non-foil
    cards of rank 1 and four foil cards of rank 2. *)
Definition stats_rows : list jsobj :=
  [[("id", JNum 7); ("foil", JNum 0); ("card_name", JStr "Aurora");
    ("advancement", JStr "STANDARD"); ("rarity", JStr "RARE");
    ("rank", JNum 1); ("count", JStr "3")];
   [("id", JNum 7); ("foil", JNum 1); ("card_name", JStr "Aurora");
    ("advancement", JStr "STANDARD"); ("rarity", JStr "RARE");
    ("rank", JNum 2); ("count", JStr "4")]].

End Samples.

(* ================================================================== *)
(** ** Basic facts about the store and the monad                       *)
(* ================================================================== *)

Import Js PgFormat Store World.

Lemma set_get_table_same (t : table_name) (d : database) :
  set_table t (get_table t d) d = d.
Proof. destruct t, d; reflexivity. Qed.

Lemma get_set_table_same (t : table_name) (x : table) (d : database) :
  get_table t (set_table t x d) = x.
Proof. destruct t; reflexivity. Qed.

Lemma get_set_table_other (t t' : table_name) (x : table) (d : database) :
  t <> t' -> get_table t' (set_table t x d) = get_table t' d.
Proof. destruct t, t'; intros H; try reflexivity; exfalso; apply H; reflexivity. Qed.

Lemma table_eta (t : table) : Table (rows t) (seq t) = t.
Proof. destruct t; reflexivity. Qed.

Lemma same_value_eq (a b : jsval) : same_value a b = true <-> a = b.
Proof.
  destruct a, b; simpl; split; intros H; try congruence; try discriminate.
  - apply Z.eqb_eq in H; congruence.
  - inversion H; apply Z.eqb_refl.
  - apply String.eqb_eq in H; congruence.
  - inversion H; apply String.eqb_refl.
  - apply Bool.eqb_prop in H; congruence.
  - inversion H; apply Bool.eqb_reflx.
Qed.

Lemma same_value_refl (a : jsval) : same_value a a = true.
Proof. apply same_value_eq; reflexivity. Qed.

Lemma same_value_sym (a b : jsval) : same_value a b = same_value b a.
Proof.
  destruct (same_value a b) eqn:E.
  - apply same_value_eq in E; subst; symmetry; apply same_value_refl.
  - destruct (same_value b a) eqn:E'; [|reflexivity].
    apply same_value_eq in E'; subst; rewrite same_value_refl in E; discriminate.
Qed.

Lemma includes_In (xs : list jsval) (v : jsval) :
  includes xs v = true <-> In v xs.
Proof.
  unfold includes; rewrite existsb_exists; split.
  - intros [x [Hx E]]; apply same_value_eq in E; subst; assumption.
  - intros H; exists v; split; [assumption | apply same_value_refl].
Qed.

(** *** The pool and [query] *)

Lemma pool_query_cases (s : statement) (w : world) :
  let w1 := with_pool (tl (faults w)) (sent w ++ [sql_text s]) w in
  (fst (pool_query s w) = Throw StoreError /\ snd (pool_query s w) = w1)
  \/ (exists out d, hd false (faults w) = false
                    /\ exec s (db w) = Some (out, d)
                    /\ pool_query s w = (Ret out, with_db d w1)).
Proof.
  unfold pool_query; simpl.
  destruct (faults w) as [|[|] fs] eqn:F; simpl.
  - destruct (exec s (db w)) as [[out d]|] eqn:E; [right | left]; eauto.
  - left; auto.
  - destruct (exec s (db w)) as [[out d]|] eqn:E; [right | left]; eauto.
Qed.

Lemma query_cases (s : statement) (w : world) :
  let w1 := with_pool (tl (faults w)) (sent w ++ [sql_text s]) w in
  DatabaseService.query s w = (Ret [], w1)
  \/ (exists out d, hd false (faults w) = false
                    /\ exec s (db w) = Some (out, d)
                    /\ DatabaseService.query s w = (Ret out, with_db d w1)).
Proof.
  unfold DatabaseService.query, try_catch.
  destruct (pool_query_cases s w) as [[H1 H2] | [out [d [Hf [He Hq]]]]].
  - left. destruct (pool_query s w) as [o w']; simpl in *; subst; reflexivity.
  - right. exists out, d. rewrite Hq. auto.
Qed.

Lemma query_returns (s : statement) (w : world) :
  exists rs, fst (DatabaseService.query s w) = Ret rs.
Proof.
  destruct (query_cases s w) as [H | [out [d [_ [_ H]]]]]; rewrite H; simpl; eauto.
Qed.





(** *** [delete] *)

Lemma coerce_int_ids (ids : list jsval) :
  Spec.int_ids ids = true -> coerce_ids ids = Some ids.
Proof.
  induction ids as [|v r IH]; simpl; [reflexivity|].
  intros H; apply andb_prop in H; destruct H as [Hv Hr].
  destruct v; try discriminate. simpl. rewrite Hv, (IH Hr). reflexivity.
Qed.

Lemma int_ids_not_null (ids : list jsval) :
  Spec.int_ids ids = true -> filter (fun k => negb (is_null k)) ids = ids.
Proof.
  induction ids as [|v r IH]; simpl; [reflexivity|].
  intros H; apply andb_prop in H; destruct H as [Hv Hr].
  destruct v; try discriminate. simpl. rewrite (IH Hr). reflexivity.
Qed.

Lemma filter_all {A} (p : A -> bool) (l : list A) :
  (forall x, In x l -> p x = true) -> filter p l = l.
Proof.
  induction l as [|a l IH]; simpl; intros H; [reflexivity|].
  rewrite (H a (or_introl eq_refl)), IH; [reflexivity|].
  intros x Hx; apply H; right; assumption.
Qed.

(** The store-layer [delete] sends [DELETE ... WHERE id IN ()] for an
    empty list, which the store rejects, and the rejection is thrown. *)
Lemma delete_empty_list_raises :
  DatabaseService.delete CARD [] (Samples.on_db Samples.three_cards)
  = (Throw StoreError,
     with_pool [] ["DELETE FROM CARD WHERE id IN ()"]
               (Samples.on_db Samples.three_cards)).
Proof. reflexivity. Qed.

(** C6 (amended): with a non-empty list of integer ids and a store
    that accepts the statement, [delete] removes exactly the rows whose
    id is in the list, touches no other table, and changes nothing when
    no row has such an id; the no-op on the empty list is that of
    [burnCards] and [burnPasses], which then issue no statement. *)
Theorem delete_removes_exactly_ids (t : table_name) (ids : list jsval) (w : world) :
  ids <> [] ->
  Spec.int_ids ids = true ->
  hd false (faults w) = false ->
  fst (DatabaseService.delete t ids w) = Ret tt
  /\ rows (get_table t (db (snd (DatabaseService.delete t ids w))))
     = filter (fun r => negb (includes ids (get "id" r)))
              (rows (get_table t (db w)))
  /\ (forall t', t <> t' ->
        get_table t' (db (snd (DatabaseService.delete t ids w)))
        = get_table t' (db w))
  /\ ((forall r, In r (rows (get_table t (db w))) ->
                 includes ids (get "id" r) = false) ->
      db (snd (DatabaseService.delete t ids w)) = db w)
  /\ Repository.burnCards [] w = (Ret tt, w)
  /\ Repository.burnPasses [] w = (Ret tt, w).
Proof.
  intros Hne Hint Hf.
  assert (E : exec (Delete t ids) (db w)
              = Some ([], set_table t
                            (Table (filter (fun r => negb (includes ids (get "id" r)))
                                           (rows (get_table t (db w))))
                                   (seq (get_table t (db w))))
                            (db w))).
  { simpl. unfold exec_delete. destruct ids as [|i r]; [congruence|].
    rewrite (coerce_int_ids _ Hint), (int_ids_not_null _ Hint). reflexivity. }
  unfold DatabaseService.delete, bind.
  destruct (pool_query_cases (Delete t ids) w) as [[H1 H2] | [out [d [_ [He Hq]]]]].
  - exfalso. unfold pool_query in H1. destruct (faults w) as [|[|] fs];
      simpl in Hf; try discriminate; rewrite E in H1; discriminate.
  - rewrite Hq. rewrite E in He. inversion He; subst out d. simpl.
    split; [reflexivity|].
    split; [rewrite get_set_table_same; reflexivity|].
    split; [intros t' Ht; apply get_set_table_other; assumption|].
    split; [|split; reflexivity].
    intros Hnone. rewrite filter_all.
    + rewrite table_eta. apply set_get_table_same.
    + intros r Hr. rewrite (Hnone r Hr). reflexivity.
Qed.

Lemma delete_removes_exactly_ids_witness :
  rows (get_table CARD
          (db (snd (DatabaseService.delete CARD [JNum 2; JNum 9]
                      (Samples.on_db Samples.three_cards)))))
  = [Samples.card_row 1 "A" JNull; Samples.card_row 3 "C" JNull].
Proof.
  pose proof (delete_removes_exactly_ids CARD [JNum 2; JNum 9]
                (Samples.on_db Samples.three_cards)) as H.
  destruct H as [_ [H _]]; [discriminate | reflexivity | reflexivity |].
  rewrite H. reflexivity.
Defined.

(** *** What the cycle does on three concrete feeds *)


(* ================================================================== *)
(** ** Stepwise reasoning on what a method does to the world           *)
(* ================================================================== *)

Section Steps.
Variable R : world -> world -> Prop.
Hypothesis R_refl : forall w, R w w.
Hypothesis R_trans : forall a b c, R a b -> R b c -> R a c.

Lemma step_ret {A} (a : A) : Spec.step R (ret a).
Proof. intros w; apply R_refl. Qed.

Lemma step_throw {A} (e : error) : Spec.step R (@throw A e).
Proof. intros w; apply R_refl. Qed.

Lemma step_lift {A} (o : outcome A) : Spec.step R (lift o).
Proof. intros w; apply R_refl. Qed.

Lemma step_bind {A B} (m : M A) (k : A -> M B) :
  Spec.step R m -> (forall a, Spec.step R (k a)) -> Spec.step R (bind m k).
Proof.
  intros Hm Hk w. unfold bind. specialize (Hm w).
  destruct (m w) as [[a|e] w1]; simpl in *; [|assumption].
  eapply R_trans; [exact Hm | apply Hk].
Qed.

Lemma step_try_catch {A} (m : M A) (h : error -> M A) :
  Spec.step R m -> (forall e, Spec.step R (h e)) -> Spec.step R (try_catch m h).
Proof.
  intros Hm Hh w. unfold try_catch. specialize (Hm w).
  destruct (m w) as [[a|e] w1]; simpl in *; [assumption|].
  eapply R_trans; [exact Hm | apply Hh].
Qed.


(** The pool: [R] has to hold across a rejected statement and across
    what the store does with an accepted one. *)
Hypothesis R_pool : forall w st, R w (with_pool (tl (faults w)) st w).

Lemma step_pool_query (s : statement) :
  (forall w out d, exec s (db w) = Some (out, d) ->
                   R w (with_db d (with_pool (tl (faults w))
                                             (sent w ++ [sql_text s]) w))) ->
  Spec.step R (pool_query s).
Proof.
  intros He w.
  destruct (pool_query_cases s w) as [[_ H] | [out [d [_ [E H]]]]].
  - rewrite H. apply R_pool.
  - rewrite H. simpl. apply He with (out := out). assumption.
Qed.


End Steps.

(* ================================================================== *)
(** ** Properties that every method of the write path inherits          *)
(* ================================================================== *)

(** Reading the fields of the values fails with a TypeError or not at
    all. *)
Lemma map_values_error (f : fieldNames) (values : list DatabaseService.item)
      (e : error) :
  DatabaseService.map_values f values = Throw e -> e = TypeError.
Proof.
  induction values as [|v l IH]; simpl; [discriminate|].
  destruct (DatabaseService._fieldValues f v); [|congruence].
  destruct (DatabaseService.map_values f l); [discriminate|].
  intros H. inversion H; subst. apply IH. reflexivity.
Qed.

(** A property of computations that holds of [ret] and of [lift] at
    an outcome of the program, passes through [bind] and [try], and
    holds of every statement sent to the
    pool for a table other than UPDATE_HISTORY, holds of
    [Repository.update] and [Repository.burn]. *)
Section Closure.
Variable P : forall A, M A -> Prop.
Hypothesis P_ret : forall A (a : A), P A (ret a).
Hypothesis P_lift : forall A (o : outcome A), o <> Throw OutOfFuel -> P A (lift o).
Hypothesis P_bind :
  forall A B (m : M A) (k : A -> M B),
    P A m -> (forall a, P B (k a)) -> P B (bind m k).
Hypothesis P_try_catch :
  forall A (m : M A) (h : error -> M A),
    P A m -> (forall e, P A (h e)) -> P A (try_catch m h).
Hypothesis P_pool :
  forall s, Spec.statement_table s <> UPDATE_HISTORY -> P _ (pool_query s).

Lemma closed_for_each {A} (f : A -> M unit) (xs : list A) :
  (forall x, P _ (f x)) -> P _ (for_each f xs).
Proof.
  intros Hf. induction xs as [|x r IH]; simpl.
  - apply P_ret.
  - apply P_bind; [apply Hf | intros _; exact IH].
Qed.

Lemma closed_query (s : statement) :
  Spec.statement_table s <> UPDATE_HISTORY -> P _ (DatabaseService.query s).
Proof.
  intros Hs. apply P_try_catch; [apply P_pool; exact Hs|]. intros e. apply P_ret.
Qed.


Lemma closed_insert (t : table_name) (f : fieldNames) (pk : string)
      (values : list DatabaseService.item) :
  t <> UPDATE_HISTORY -> P _ (DatabaseService.insert t f pk values).
Proof.
  intros Ht. unfold DatabaseService.insert.
  apply P_bind.
  { apply P_lift. intros E. apply map_values_error in E. discriminate. }
  intros newRows.
  apply P_bind; [|intros; apply P_ret].
  apply closed_query. exact Ht.
Qed.

Lemma closed_update (t : table_name) (f : fieldNames) (pk : string)
      (values : list jsobj) :
  t <> UPDATE_HISTORY -> P _ (DatabaseService.update t f pk values).
Proof.
  intros Ht. unfold DatabaseService.update. apply closed_for_each. intros v.
  apply P_bind; [|intros; apply P_ret].
  apply closed_query. exact Ht.
Qed.

Lemma closed_upsert (t : table_name) (fs : list string) (pk : string)
      (values : list jsobj) (insertPk : bool) :
  t <> UPDATE_HISTORY -> P _ (DatabaseService.upsert t fs pk values insertPk).
Proof.
  intros Ht. unfold DatabaseService.upsert.
  apply P_bind; [apply closed_insert; exact Ht|]. intros pkValues.
  match goal with
  | |- P _ (match ?x with _ => _ end) => destruct x
  end; [apply P_ret | apply closed_update; exact Ht].
Qed.

Lemma closed_delete (t : table_name) (ids : list jsval) :
  t <> UPDATE_HISTORY -> P _ (DatabaseService.delete t ids).
Proof.
  intros Ht. unfold DatabaseService.delete.
  apply P_bind; [|intros; apply P_ret].
  apply P_pool. exact Ht.
Qed.

Lemma closed_get_enum_table (t : table_name) (f : string) :
  t <> UPDATE_HISTORY -> P _ (Repository._get_enum_table t f).
Proof.
  intros Ht. unfold Repository._get_enum_table.
  apply P_bind; [|intros; apply P_ret].
  apply closed_query. exact Ht.
Qed.

Lemma closed_insert_new_values (t : table_name) (f : string) (items : list jsval) :
  t <> UPDATE_HISTORY ->
  P _ (Repository._insertNewValuesInEnumTable
                 t f items (Repository._get_enum_table t f)).
Proof.
  intros Ht. unfold Repository._insertNewValuesInEnumTable.
  apply P_bind; [apply closed_get_enum_table; exact Ht|]. intros existing.
  destruct (filter _ items); [apply P_ret|].
  apply P_bind; [apply closed_insert; exact Ht|intros; apply P_ret].
Qed.

Lemma closed_read_mint_pass_types : P _ Repository._read_mint_pass_types.
Proof.
  unfold Repository._read_mint_pass_types.
  apply P_bind; [|intros; apply P_ret].
  apply closed_query. discriminate.
Qed.

Lemma closed_repository_update (b : Repository.batch) :
  P _ (Repository.update b).
Proof.
  unfold Repository.update.
  apply P_bind;
    [apply closed_insert_new_values; discriminate|intros _].
  apply P_bind;
    [apply closed_insert_new_values; discriminate|intros _].
  apply P_bind;
    [apply closed_insert_new_values; discriminate|intros _].
  apply P_bind;
    [apply closed_insert_new_values; discriminate|intros _].
  apply P_bind; [|intros _].
  { unfold Repository.updateMetaCards. destruct (Repository.metaCards b);
      [apply P_ret|].
    apply P_bind; [apply closed_get_enum_table; discriminate|intros ?].
    apply P_bind; [apply closed_get_enum_table; discriminate|intros ?].
    apply P_bind; [apply closed_get_enum_table; discriminate|intros ?].
    apply closed_upsert; discriminate. }
  apply P_bind; [|intros _].
  { unfold Repository.updateCards. destruct (Repository.cards b);
      [apply P_ret|].
    apply P_bind; [apply closed_get_enum_table; discriminate|intros ?].
    apply closed_upsert; discriminate. }
  apply P_bind; [|intros _].
  { unfold Repository.updateMintPassTypes. destruct (Repository.mintPassTypes b);
      [apply P_ret|].
    apply P_bind; [apply closed_read_mint_pass_types|intros ?].
    match goal with
    | |- P _ (match ?x with _ => _ end) => destruct x
    end; [apply P_ret|].
    apply P_bind; [apply closed_insert; discriminate|].
    intros; apply P_ret. }
  unfold Repository.updateMintPasses. destruct (Repository.mintPasses b);
    [apply P_ret|].
  apply P_bind; [apply closed_get_enum_table; discriminate|intros ?].
  apply P_bind; [apply closed_read_mint_pass_types|intros ?].
  apply closed_upsert; discriminate.
Qed.

Lemma closed_repository_burn (passIds cardIds : list jsval) :
  P _ (Repository.burn passIds cardIds).
Proof.
  unfold Repository.burn, Repository.burnPasses, Repository.burnCards.
  apply P_bind; [|intros _].
  - destruct passIds; [apply P_ret|apply closed_delete; discriminate].
  - destruct cardIds; [apply P_ret|apply closed_delete; discriminate].
Qed.

End Closure.

Lemma exec_select_same (t : table_name) (cols : list string) (d : database)
      (out : list jsobj) (d' : database) :
  exec (Select t cols) d = Some (out, d') -> d' = d.
Proof.
  simpl. unfold exec_select.
  destruct (forallb _ cols); [|discriminate].
  intros H; inversion H; apply set_get_table_same.
Qed.

Lemma exec_other_table (s : statement) (t : table_name) (d : database)
      (out : list jsobj) (d' : database) :
  exec s d = Some (out, d') ->
  Spec.statement_table s <> t ->
  get_table t d' = get_table t d.
Proof.
  destruct s as [u cols|u f nr pk|u f v pk pv|u ids]; simpl;
    match goal with
    | |- match ?x with _ => _ end = _ -> _ =>
        destruct x as [[o t']|]; [|discriminate]
    end;
    intros H Hne; inversion H; apply get_set_table_other; assumption.
Qed.

(* ================================================================== *)
(** ** Dimension tables                                                *)
(* ================================================================== *)

Lemma grows_by_new_refl (t : table_name) (f : string) (items : list jsval)
      (d : database) : Spec.grows_by_new t f items d d.
Proof.
  exists []. rewrite app_nil_r. split; [reflexivity|].
  split; [intros r []|auto].
Qed.

Lemma grows_by_new_trans (t : table_name) (f : string) (items : list jsval)
      (a b c : database) :
  Spec.grows_by_new t f items a b -> Spec.grows_by_new t f items b c ->
  Spec.grows_by_new t f items a c.
Proof.
  intros [ad1 [E1 [N1 D1]]] [ad2 [E2 [N2 D2]]].
  exists (ad1 ++ ad2)%list. split; [rewrite E2, E1, app_assoc; reflexivity|].
  split; [|auto].
  intros r Hr. apply in_app_or in Hr. destruct Hr as [Hr|Hr]; [auto|].
  destruct (N2 r Hr) as [Hv Hn]. split; [assumption|].
  intros Hin. apply Hn. rewrite E1, map_app. apply in_or_app; left; assumption.
Qed.

Lemma grows_by_new_same_table (t : table_name) (f : string) (items : list jsval)
      (d d' : database) :
  get_table t d' = get_table t d -> Spec.grows_by_new t f items d d'.
Proof.
  intros E. unfold Spec.grows_by_new. rewrite E.
  exists []. rewrite app_nil_r. split; [reflexivity|].
  split; [intros r []|auto].
Qed.

Lemma NoDup_snoc {A} (l : list A) (x : A) :
  NoDup l -> ~ In x l -> NoDup (l ++ [x]).
Proof.
  induction l as [|a l IH]; simpl; intros ND Hx.
  - constructor; [intros []|constructor].
  - inversion ND; subst. constructor.
    + intros Hin. apply in_app_or in Hin. destruct Hin as [Hin|[E|[]]]; [auto|].
      subst. apply Hx. left; reflexivity.
    + apply IH; [assumption|]. intros Hin. apply Hx. right; assumption.
Qed.

Section EnumTable.
Variable f : string.
Hypothesis f_not_id : String.eqb "id" f = false.

Local Abbreviation cols := [serial_pk "id"; text_unique f] (only parsing).

Lemma f_not_id' : String.eqb f "id" = false.
Proof. rewrite String.eqb_sym. exact f_not_id. Qed.

Lemma enum_make_row (v : jsval) (sq : Z) (r : row) (sq' : Z) :
  make_row cols [(f, v)] sq = Some (r, sq') ->
  exists v', coerce TText v = Some v' /\ is_null v' = false
             /\ r = [("id", JNum sq); (f, v')].
Proof.
  cbn [make_row has_key serial_pk text_unique col_name col_serial
       col_notnull col_type get].
  rewrite f_not_id, String.eqb_refl. cbn [is_null andb].
  destruct (coerce TText v) as [v'|]; [|discriminate].
  destruct (is_null v') eqn:N; [discriminate|].
  intros H; inversion H; subst. exists v'; auto.
Qed.

Lemma enum_fields_ok (vals : list jsval) :
  fields_ok cols [f] vals = true -> exists v, vals = [v].
Proof.
  unfold fields_ok. intros H.
  apply andb_prop in H; destruct H as [H _].
  apply andb_prop in H; destruct H as [H _].
  destruct vals as [|v [|v' r]]; simpl in H; try discriminate.
  exists v; reflexivity.
Qed.

Lemma enum_no_conflict (stored : list row) (sq : Z) (v' : jsval) :
  is_null v' = false ->
  conflicts cols stored [("id", JNum sq); (f, v')] = false ->
  ~ In v' (map (get f) stored).
Proof.
  intros N C Hin. unfold conflicts in C. simpl existsb in C.
  rewrite f_not_id', String.eqb_refl in C. rewrite N in C. simpl in C.
  apply orb_false_elim in C; destruct C as [_ C].
  apply orb_false_elim in C; destruct C as [C _].
  apply in_map_iff in Hin; destruct Hin as [r' [E Hr']].
  assert (X : existsb (fun r' => same_value (get f r') v') stored = true).
  { apply existsb_exists. exists r'; split; [assumption|].
    rewrite E. apply same_value_refl. }
  rewrite X in C. discriminate.
Qed.

Lemma enum_insert_tuples (tuples : list lit) :
  forall stored sq returned stored' sq' returned',
    insert_tuples cols [f] "id" tuples stored sq returned
    = Some (stored', sq', returned') ->
    exists added,
      stored' = (stored ++ added)%list
      /\ (forall r, In r added ->
                    (exists t v, In t tuples /\ tuple_values t = Some [v]
                                 /\ coerce TText v = Some (get f r))
                    /\ ~ In (get f r) (map (get f) stored))
      /\ (NoDup (map (get f) stored) -> NoDup (map (get f) stored')).
Proof.
  induction tuples as [|t ts IH]; intros stored sq returned stored' sq' returned'.
  - simpl. intros H; inversion H; subst. exists []. rewrite app_nil_r.
    split; [reflexivity|]. split; [intros r []|auto].
  - cbn [insert_tuples].
    destruct (tuple_values t) as [vals|] eqn:T; [|discriminate].
    destruct (fields_ok cols [f] vals) eqn:F; [|discriminate].
    destruct (enum_fields_ok _ F) as [v Ev]; subst vals.
    simpl combine.
    destruct (make_row cols [(f, v)] sq) as [[r sq1]|] eqn:Mk; [|discriminate].
    destruct (enum_make_row _ _ _ _ Mk) as [v' [Cv [Nv Er]]].
    destruct (conflicts cols stored r) eqn:C.
    + intros H. destruct (IH _ _ _ _ _ _ H) as [added [E [P D]]].
      exists added. split; [assumption|]. split; [|assumption].
      intros r0 Hr0. destruct (P r0 Hr0) as [[t0 [v0 [Ht0 X]]] Y].
      split; [|assumption]. exists t0, v0. split; [right|]; assumption.
    + intros H. destruct (IH _ _ _ _ _ _ H) as [added [E [P D]]].
      assert (Gr : get f r = v').
      { subst r. simpl. rewrite f_not_id', String.eqb_refl. reflexivity. }
      assert (Hnew : ~ In (get f r) (map (get f) stored)).
      { rewrite Gr. subst r. eapply enum_no_conflict; eassumption. }
      exists (r :: added). split; [rewrite E, <- app_assoc; reflexivity|].
      split.
      * intros r0 [Hr0|Hr0].
        -- subst r0. split; [|assumption].
           exists t, v. split; [left; reflexivity|]. split; [assumption|].
           rewrite Gr; assumption.
        -- destruct (P r0 Hr0) as [[t0 [v0 [Ht0 X]]] Y]. split.
           ++ exists t0, v0. split; [right|]; assumption.
           ++ intros Hin. apply Y. rewrite map_app. apply in_or_app; left; assumption.
      * intros ND. apply D. rewrite map_app. simpl.
        apply NoDup_snoc; assumption.
Qed.

End EnumTable.

Lemma grows_by_new_incl (t : table_name) (f : string) (items items' : list jsval)
      (d d' : database) :
  incl items items' ->
  Spec.grows_by_new t f items d d' -> Spec.grows_by_new t f items' d d'.
Proof.
  intros Hi [added [E [P D]]]. exists added. split; [assumption|].
  split; [|assumption]. intros r Hr. destruct (P r Hr) as [[v [Hv Cv]] N].
  split; [|assumption]. exists v. split; [apply Hi|]; assumption.
Qed.

Lemma map_values_prims (f : string) (vs : list jsval) (xs : list lit) :
  DatabaseService.map_values (FName f) (map DatabaseService.Prim vs) = Ret xs ->
  xs = map LVal vs.
Proof.
  revert xs. induction vs as [|v r IH]; simpl; intros xs H.
  - inversion H; reflexivity.
  - destruct v; try discriminate;
      (destruct (DatabaseService.map_values (FName f) (map DatabaseService.Prim r))
        as [ys|e]; [|discriminate];
       inversion H; subst; rewrite (IH ys eq_refl); reflexivity).
Qed.

Lemma enum_exec_insert (t : table_name) (f : string) (vs : list jsval)
      (d : database) (out : list jsobj) (d' : database) :
  String.eqb "id" f = false ->
  schema t = [serial_pk "id"; text_unique f] ->
  exec (Insert t (FName f) (map LVal vs) "id") d = Some (out, d') ->
  Spec.grows_by_new t f vs d d'.
Proof.
  intros Hf Hs. simpl. rewrite Hs. unfold exec_insert.
  destruct (map LVal vs) as [|x xs] eqn:Ex; [discriminate|]. rewrite <- Ex.
  destruct (find_column "id" _); [|destruct (map LVal vs); discriminate].
  destruct (insert_tuples _ _ _ _ _ _ _) as [[[stored sq] returned]|] eqn:I;
    [|destruct (map LVal vs); discriminate].
  intros H. assert (d' = set_table t (Table stored sq) d)
    by (destruct (map LVal vs); inversion H; reflexivity).
  subst d'. clear H.
  destruct (enum_insert_tuples f Hf _ _ _ _ _ _ _ I) as [added [E [P D]]].
  exists added. rewrite get_set_table_same. simpl rows.
  split; [assumption|]. split; [|assumption].
  intros r Hr. destruct (P r Hr) as [[t0 [v [Ht0 [Tv Cv]]]] N].
  split; [|assumption]. exists v. split; [|assumption].
  apply in_map_iff in Ht0. destruct Ht0 as [v0 [E0 Hv0]]. subst t0.
  simpl in Tv. inversion Tv; subst. assumption.
Qed.

Lemma enum_read_keeps_db (t : table_name) (f : string) (w : world) :
  db (snd (Repository._get_enum_table t f w)) = db w.
Proof.
  unfold Repository._get_enum_table, bind.
  destruct (query_cases (Select t ["id"; f]) w) as [H | [out [d [_ [E H]]]]];
    rewrite H; simpl; [reflexivity|].
  eapply exec_select_same; eassumption.
Qed.

Lemma insert_new_values_grows (t : table_name) (f : string) (items : list jsval) :
  String.eqb "id" f = false ->
  schema t = [serial_pk "id"; text_unique f] ->
  Spec.db_step (Spec.grows_by_new t f items)
    (Repository._insertNewValuesInEnumTable t f items
       (Repository._get_enum_table t f)).
Proof.
  intros Hf Hs w. unfold Repository._insertNewValuesInEnumTable.
  unfold bind at 1.
  pose proof (enum_read_keeps_db t f w) as Hread.
  destruct (Repository._get_enum_table t f w) as [[existing|e] w1]; simpl in Hread;
    [|simpl; rewrite Hread; apply grows_by_new_refl].
  rewrite <- Hread.
  set (newValues := filter (fun v => negb (map_has v existing)) items).
  assert (Hincl : incl newValues items) by (intros v Hv; apply filter_In in Hv; tauto).
  destruct newValues as [|n ns] eqn:En; [apply grows_by_new_refl|].
  rewrite <- En in *. clear En n ns.
  unfold DatabaseService.insert, lift, bind, ret.
  destruct (DatabaseService.map_values _ _) as [xs|e] eqn:Mv;
    [|simpl; apply grows_by_new_refl].
  apply map_values_prims in Mv. subst xs.
  destruct (query_cases (Insert t (FName f) (map LVal newValues) "id") w1)
    as [H | [out [d [_ [E H]]]]]; rewrite H; simpl; [apply grows_by_new_refl|].
  eapply grows_by_new_incl; [exact Hincl|].
  eapply enum_exec_insert; eassumption.
Qed.

(** C4: whatever the candidate list and whatever the store answers,
    the dimension upsert leaves every row the table had in place and
    unchanged, adds only rows whose name is one of the candidates and
    was not in the table, and keeps names unique; candidates that all
    name existing rows leave the table exactly as it was. *)
Theorem dimension_upsert_append_only (d : Spec.dimension) (items : list jsval)
        (w : world) :
  let t := Spec.dim_table d in
  let f := Spec.dim_field d in
  let before := rows (get_table t (db w)) in
  let after :=
    rows (get_table t (db (snd (Spec.upsertDimensionValues d items w)))) in
  (exists added,
      after = (before ++ added)%list
      /\ (forall r, In r added ->
                    (exists v, In v items /\ coerce TText v = Some (get f r))
                    /\ ~ In (get f r) (map (get f) before))
      /\ (NoDup (map (get f) before) -> NoDup (map (get f) after)))
  /\ ((forall v, In v items ->
                 (exists s, v = JStr s) /\ In v (map (get f) before)) ->
      after = before).
Proof.
  intros t f before after.
  assert (G : Spec.grows_by_new t f items (db w)
                (db (snd (Spec.upsertDimensionValues d items w)))).
  { subst t f. destruct d; simpl;
      apply insert_new_values_grows; reflexivity. }
  split; [exact G|].
  intros Hall. destruct G as [added [E [P _]]].
  destruct added as [|r added].
  - subst after before. rewrite E, app_nil_r. reflexivity.
  - exfalso. destruct (P r (or_introl eq_refl)) as [[v [Hv Cv]] N].
    destruct (Hall v Hv) as [[s Es] Hin]. subst v. simpl in Cv.
    inversion Cv as [Eg]. apply N. rewrite <- Eg. exact Hin.
Qed.

(* ================================================================== *)
(** ** Rows with a key: the two-phase upsert against the atomic one    *)
(* ================================================================== *)

Section Keyed.
Variable pk : string.

Local Abbreviation key := (get pk) (only parsing).
Local Abbreviation keys := (map (get pk)) (only parsing).

Lemma same_key_iff (a b : row) : Spec.same_key pk a b = true <-> key a = key b.
Proof. unfold Spec.same_key. apply same_value_eq. Qed.



Lemma exists_same_key (stored : list row) (r : row) :
  existsb (fun r' => Spec.same_key pk r' r) stored = true <-> In (key r) (keys stored).
Proof.
  rewrite existsb_exists, in_map_iff. split.
  - intros [x [Hx E]]. exists x. apply same_key_iff in E. auto.
  - intros [x [E Hx]]. exists x. split; [assumption|]. apply same_key_iff; assumption.
Qed.

Lemma is_fresh_iff (stored : list row) (r : row) :
  Spec.is_fresh pk stored r = true <-> ~ In (key r) (keys stored).
Proof.
  unfold Spec.is_fresh. rewrite negb_true_iff, <- exists_same_key.
  destruct (existsb _ stored); split; intros; congruence.
Qed.

Lemma keys_replace_row (r : row) (stored : list row) :
  keys (Spec.replace_row pk r stored) = keys stored.
Proof.
  unfold Spec.replace_row. rewrite map_map. apply map_ext_in. intros a _.
  destruct (Spec.same_key pk a r) eqn:E; [|reflexivity].
  apply same_key_iff in E. congruence.
Qed.

Lemma replaced_by_absent (batch : list row) (r : row) :
  ~ In (key r) (keys batch) -> Spec.replaced_by pk batch r = r.
Proof.
  intros H. unfold Spec.replaced_by.
  destruct (find _ batch) as [b|] eqn:F; [|reflexivity].
  apply find_some in F. destruct F as [Hb E]. apply same_key_iff in E.
  exfalso. apply H. rewrite E. apply in_map. assumption.
Qed.


Lemma replaced_by_cons (a : row) (batch : list row) (r : row) :
  Spec.replaced_by pk (a :: batch) r
  = if Spec.same_key pk r a then a else Spec.replaced_by pk batch r.
Proof. unfold Spec.replaced_by. simpl. destruct (Spec.same_key pk r a); reflexivity. Qed.


(** Replacing the rows of [us] one by one. *)
Lemma fold_replace_rows (us : list row) :
  forall stored,
    NoDup (keys us) ->
    fold_left (fun s r => Spec.replace_row pk r s) us stored
    = map (Spec.replaced_by pk us) stored.
Proof.
  induction us as [|u l IH]; intros stored ND; simpl.
  - unfold Spec.replaced_by. simpl. rewrite map_id. reflexivity.
  - inversion ND as [|x l' Hn ND']; subst. rewrite IH by assumption.
    unfold Spec.replace_row. rewrite map_map. apply map_ext. intros a.
    rewrite replaced_by_cons. destruct (Spec.same_key pk a u) eqn:E; [|reflexivity].
    apply replaced_by_absent. assumption.
Qed.


End Keyed.

(* ================================================================== *)
(** ** Tables keyed by an integer id                                   *)
(* ================================================================== *)

Lemma assoc_get_map (g : string -> jsval) (names : list string) (f : string) :
  In f names -> get f (map (fun n => (n, g n)) names) = g f.
Proof.
  induction names as [|n l IH]; simpl; intros H; [contradiction|].
  destruct (String.eqb f n) eqn:E.
  - apply String.eqb_eq in E. subst. reflexivity.
  - destruct H as [H|H]; [subst; rewrite String.eqb_refl in E; discriminate|].
    apply IH. assumption.
Qed.

Lemma assoc_has_key_map (g : string -> jsval) (names : list string) (f : string) :
  In f names -> has_key f (map (fun n => (n, g n)) names) = true.
Proof.
  induction names as [|n l IH]; simpl; intros H; [contradiction|].
  destruct (String.eqb f n) eqn:E; [reflexivity|].
  destruct H as [H|H]; [subst; rewrite String.eqb_refl in E; discriminate|].
  apply IH. assumption.
Qed.

Lemma has_key_In (k : string) (o : jsobj) :
  has_key k o = true <-> In k (map fst o).
Proof.
  induction o as [|[k' v] o IH]; simpl; [split; [discriminate|contradiction]|].
  destruct (String.eqb k k') eqn:E.
  - apply String.eqb_eq in E. subst. split; auto.
  - rewrite IH. split; [auto|]. intros [H|H]; [|assumption].
    subst. rewrite String.eqb_refl in E. discriminate.
Qed.

(** An object whose property names are distinct is the list of its
    properties, each with the value [get] finds. *)
Lemma assoc_eta (o : jsobj) :
  NoDup (map fst o) -> map (fun k => (k, get k o)) (map fst o) = o.
Proof.
  induction o as [|[k v] o IH]; simpl; intros ND; [reflexivity|].
  inversion ND as [|x l Hn ND']; subst. rewrite String.eqb_refl. f_equal.
  rewrite <- (IH ND') at 2. apply map_ext_in. intros a Ha.
  destruct (String.eqb a k) eqn:E; [|reflexivity].
  apply String.eqb_eq in E. subst. contradiction.
Qed.

Lemma overwrite_whole (assigned r : row) :
  NoDup (map fst assigned) -> map fst r = map fst assigned ->
  overwrite assigned r = assigned.
Proof.
  intros ND Hs. unfold overwrite.
  transitivity (map (fun k => (k, get k assigned)) (map fst r)).
  - rewrite map_map. apply map_ext_in. intros [k v] Hkv. simpl.
    assert (Hk : In k (map fst assigned)).
    { rewrite <- Hs. apply in_map_iff. exists (k, v). auto. }
    apply has_key_In in Hk. rewrite Hk. reflexivity.
  - rewrite Hs. apply assoc_eta. assumption.
Qed.

Lemma distinct_NoDup (vs : list jsval) : distinct vs = true <-> NoDup vs.
Proof.
  induction vs as [|v l IH]; simpl.
  - split; [constructor|reflexivity].
  - rewrite andb_true_iff, negb_true_iff, IH. split.
    + intros [H1 H2]. constructor; [|assumption].
      intros Hin. apply includes_In in Hin. congruence.
    + intros ND. inversion ND; subst. split; [|assumption].
      destruct (includes l v) eqn:E; [|reflexivity].
      apply includes_In in E. contradiction.
Qed.

Lemma make_row_shape (cs : list column) (given : jsobj) :
  forall sq r sq',
    make_row cs given sq = Some (r, sq') -> map fst r = map col_name cs.
Proof.
  induction cs as [|c cs IH]; simpl; intros sq r sq' H.
  - inversion H; reflexivity.
  - destruct (if has_key (col_name c) given then _ else _) as [[v s1]|];
      [|discriminate].
    destruct (col_notnull c && is_null v); [discriminate|].
    destruct (make_row cs given s1) as [[r1 s2]|] eqn:M; [|discriminate].
    inversion H; subst. simpl. f_equal. eapply IH. eassumption.
Qed.

Lemma make_row_no_serial (cs : list column) (given : jsobj) :
  forallb (fun c => negb (col_serial c)) cs = true ->
  forall sq,
    make_row cs given sq
    = match make_row cs given 0 with
      | Some (r, _) => Some (r, sq)
      | None => None
      end.
Proof.
  induction cs as [|c cs IH]; simpl; intros Hs sq; [reflexivity|].
  apply andb_prop in Hs. destruct Hs as [Hc Hs].
  apply negb_true_iff in Hc. rewrite Hc.
  destruct (has_key (col_name c) given).
  - destruct (coerce (col_type c) (get (col_name c) given)) as [v|]; [|reflexivity].
    destruct (col_notnull c && is_null v); [reflexivity|].
    rewrite (IH Hs sq).
    destruct (make_row cs given 0) as [[r1 s1]|]; reflexivity.
  - destruct (col_notnull c && is_null JNull); [reflexivity|].
    rewrite (IH Hs sq).
    destruct (make_row cs given 0) as [[r1 s1]|]; reflexivity.
Qed.

Lemma make_row_coerced (cols cs : list column) (given : jsobj) :
  forall sq r sq',
    (forall c, In c cs ->
               has_key (col_name c) given = true
               /\ find_column (col_name c) cols = Some c) ->
    make_row cs given sq = Some (r, sq') ->
    coerce_fields cols (map (fun c => (col_name c, get (col_name c) given)) cs)
    = Some r.
Proof.
  induction cs as [|c cs IH]; simpl; intros sq r sq' Hc H.
  - inversion H; reflexivity.
  - destruct (Hc c (or_introl eq_refl)) as [Hk Hf]. rewrite Hk in H. rewrite Hf.
    destruct (coerce (col_type c) (get (col_name c) given)) as [v|]; [|discriminate].
    destruct (col_notnull c && is_null v); [discriminate|].
    destruct (make_row cs given sq) as [[r1 s2]|] eqn:M; [|discriminate].
    inversion H; subst.
    erewrite IH; [reflexivity| |eassumption].
    intros c' Hc'. apply Hc. right. assumption.
Qed.

Lemma find_column_distinct (cols : list column) (c : column) :
  NoDup (map col_name cols) -> In c cols ->
  find_column (col_name c) cols = Some c.
Proof.
  induction cols as [|a l IH]; simpl; intros ND Hc; [contradiction|].
  inversion ND as [|x l' Hn ND']; subst.
  destruct (String.eqb (col_name c) (col_name a)) eqn:E.
  - destruct Hc as [Hc|Hc]; [congruence|].
    apply String.eqb_eq in E. exfalso. apply Hn. rewrite <- E.
    apply in_map. assumption.
  - destruct Hc as [Hc|Hc]; [subst; rewrite String.eqb_refl in E; discriminate|].
    apply IH; assumption.
Qed.

Lemma coerce_key (x y : jsval) :
  coerce TInt x = Some y -> is_null y = false ->
  exists n, y = JNum n /\ where_key x = Some (Some n).
Proof.
  destruct x; simpl; intros H N; try discriminate;
    try (inversion H; subst; simpl in N; discriminate).
  - destruct (in_int4 n); [|discriminate]. inversion H; subst. eauto.
  - destruct (int_of_text s) as [n|]; [|discriminate].
    destruct (in_int4 n); [|discriminate]. inversion H; subst. eauto.
  - destruct b; discriminate.
Qed.

Lemma tuple_values_vals (vs : list jsval) :
  tuple_values (LArr (map LVal vs)) = Some vs.
Proof.
  simpl. induction vs as [|v l IH]; simpl; [reflexivity|].
  rewrite IH. reflexivity.
Qed.

Lemma combine_map_self {A B} (g : A -> B) (l : list A) :
  combine l (map g l) = map (fun a => (a, g a)) l.
Proof. induction l as [|a l IH]; simpl; [reflexivity|]. rewrite IH. reflexivity. Qed.

Lemma distinct_names_NoDup (l : list string) :
  NoDup l -> distinct_names l = true.
Proof.
  induction l as [|a l IH]; simpl; intros ND; [reflexivity|].
  inversion ND; subst. rewrite IH by assumption. rewrite andb_true_r.
  apply negb_true_iff. destruct (existsb (String.eqb a) l) eqn:E; [|reflexivity].
  apply existsb_exists in E. destruct E as [x [Hx E]].
  apply String.eqb_eq in E. subst. contradiction.
Qed.

Section KeyedTable.
Variable t : table_name.
Variable rest : list column.
Hypothesis schema_t : schema t = int_pk "id" :: rest.
Hypothesis rest_plain : forallb Spec.plain rest = true.
Hypothesis names_distinct : NoDup (Spec.all_fields t).

Local Abbreviation cols := (schema t) (only parsing).
Local Abbreviation fields := (Spec.all_fields t) (only parsing).
Local Abbreviation given := (Spec.given t) (only parsing).

Lemma keyed_fields : Spec.all_fields t = "id" :: map col_name rest.
Proof. unfold Spec.all_fields. rewrite schema_t. reflexivity. Qed.

Lemma keyed_id_field : In "id" (Spec.all_fields t).
Proof. rewrite keyed_fields. left; reflexivity. Qed.

Lemma keyed_no_serial : forallb (fun c => negb (col_serial c)) (schema t) = true.
Proof.
  rewrite schema_t. simpl. apply forallb_forall. intros c Hc.
  pose proof (proj1 (forallb_forall _ _) rest_plain c Hc) as P.
  unfold Spec.plain in P. apply andb_prop in P. destruct P as [P _].
  apply andb_prop in P. tauto.
Qed.

Lemma keyed_make_row (v : jsobj) (r : row) (sq : Z) :
  Spec.stored_form t v = Some r -> make_row (schema t) (given v) sq = Some (r, sq).
Proof.
  unfold Spec.stored_form. intros H.
  rewrite (make_row_no_serial _ _ keyed_no_serial sq).
  destruct (make_row (schema t) _ 0) as [[r0 s0]|]; [|discriminate].
  inversion H; reflexivity.
Qed.

Lemma keyed_shape (v : jsobj) (r : row) :
  Spec.stored_form t v = Some r -> map fst r = Spec.all_fields t.
Proof.
  intros H. apply keyed_make_row with (sq := 0) in H.
  apply make_row_shape in H. exact H.
Qed.

Lemma keyed_key (v : jsobj) (r : row) :
  Spec.stored_form t v = Some r ->
  exists n, get "id" r = JNum n /\ where_key (get "id" v) = Some (Some n).
Proof.
  intros H. apply keyed_make_row with (sq := 0) in H. revert H.
  rewrite schema_t at 1. cbn [make_row int_pk col_name col_type col_serial col_notnull].
  unfold Spec.given at 1 2.
  rewrite (assoc_has_key_map _ _ _ keyed_id_field).
  rewrite (assoc_get_map (fun f => get f v) _ _ keyed_id_field).
  destruct (coerce TInt (get "id" v)) as [y|] eqn:C; [|discriminate].
  cbn [andb]. destruct (is_null y) eqn:N; [discriminate|].
  destruct (make_row rest _ 0) as [[r1 s1]|]; [|discriminate].
  intros H. inversion H; subst. simpl.
  apply coerce_key; assumption.
Qed.

Lemma keyed_not_null (v : jsobj) (r : row) :
  Spec.stored_form t v = Some r -> is_null (get "id" r) = false.
Proof.
  intros H. destruct (keyed_key _ _ H) as [n [E _]]. rewrite E. reflexivity.
Qed.

Lemma keyed_coerce_fields (v : jsobj) (r : row) :
  Spec.stored_form t v = Some r -> coerce_fields (schema t) (given v) = Some r.
Proof.
  intros H. apply keyed_make_row with (sq := 0) in H.
  assert (E : map (fun c => (col_name c, get (col_name c) (given v))) (schema t)
              = given v).
  { transitivity (map (fun f => (f, get f (given v))) (Spec.all_fields t)).
    - unfold Spec.all_fields. rewrite map_map. reflexivity.
    - unfold Spec.given. apply map_ext_in. intros f Hf. f_equal.
      apply (assoc_get_map (fun f => get f v)). assumption. }
  rewrite <- E. eapply make_row_coerced; [|exact H].
  intros c Hc. split.
  - apply (assoc_has_key_map (fun f => get f v)). apply in_map. assumption.
  - apply find_column_distinct; assumption.
Qed.

Lemma keyed_notnull_ok (r : row) :
  is_null (get "id" r) = false -> notnull_ok (schema t) r = true.
Proof.
  intros N. unfold notnull_ok. rewrite schema_t. simpl. rewrite N. simpl.
  apply forallb_forall. intros c Hc.
  pose proof (proj1 (forallb_forall _ _) rest_plain c Hc) as P.
  unfold Spec.plain in P. apply andb_prop in P. destruct P as [P _].
  apply andb_prop in P. destruct P as [_ P]. rewrite P. reflexivity.
Qed.


Lemma keyed_unique_ok (stored : list row) :
  Forall (fun r => is_null (get "id" r) = false) stored ->
  NoDup (map (get "id") stored) ->
  unique_ok (schema t) stored = true.
Proof.
  intros Hn ND. unfold unique_ok. rewrite schema_t. simpl.
  apply andb_true_intro. split.
  - apply distinct_NoDup. unfold column_values.
    rewrite filter_all; [assumption|].
    intros x Hx. apply in_map_iff in Hx. destruct Hx as [r [E Hr]].
    rewrite Forall_forall in Hn. rewrite <- E, (Hn r Hr). reflexivity.
  - apply forallb_forall. intros c Hc.
    pose proof (proj1 (forallb_forall _ _) rest_plain c Hc) as P.
    unfold Spec.plain in P. apply andb_prop in P. destruct P as [_ P].
    rewrite P. reflexivity.
Qed.

Lemma keyed_fields_ok (v : jsobj) :
  fields_ok (schema t) (Spec.all_fields t)
            (map (fun n => get n v) (Spec.all_fields t)) = true.
Proof.
  unfold fields_ok. rewrite length_map, Nat.eqb_refl. simpl.
  rewrite (distinct_names_NoDup _ names_distinct), andb_true_r.
  apply forallb_forall. intros f Hf. unfold Spec.all_fields in Hf.
  apply in_map_iff in Hf. destruct Hf as [c [E Hc]]. subst f.
  rewrite (find_column_distinct (schema t) c names_distinct Hc). reflexivity.
Qed.

Lemma keyed_tuple (v : jsobj) :
  tuple_values (DatabaseService.field_values (FList (Spec.all_fields t)) v)
  = Some (map (fun n => get n v) (Spec.all_fields t)).
Proof.
  unfold DatabaseService.field_values.
  rewrite <- (map_map (fun n => get n v) LVal). apply tuple_values_vals.
Qed.

Lemma keyed_combine (v : jsobj) :
  combine (Spec.all_fields t) (map (fun n => get n v) (Spec.all_fields t))
  = given v.
Proof. apply combine_map_self. Qed.



(** One UPDATE of [upsert]: the stored row with the candidate's id, if
    any, becomes the candidate's row. *)
Lemma keyed_exec_update (v : jsobj) (r : row) (d : database) :
  Spec.table_ok t (get_table t d) ->
  Spec.stored_form t v = Some r ->
  exec (Update t (FList (Spec.all_fields t))
               (DatabaseService.field_values (FList (Spec.all_fields t)) v)
               "id" (get "id" v)) d
  = Some ([], set_table t
                (Table (Spec.replace_row "id" r (rows (get_table t d)))
                       (seq (get_table t d)))
                d).
Proof.
  intros [Hshape [Hnn Hnd]] S. cbn [exec field_list]. unfold exec_update.
  rewrite keyed_tuple, keyed_fields_ok, keyed_combine.
  assert (F : find_column "id" (schema t) = Some (int_pk "id"))
    by (rewrite schema_t; reflexivity).
  rewrite F. unfold int_pk.
  destruct (keyed_key _ _ S) as [n [Kr Kw]]. rewrite Kw.
  rewrite (keyed_coerce_fields _ _ S).
  assert (Hrs : map fst r = Spec.all_fields t) by (eapply keyed_shape; eassumption).
  assert (Est : map (fun r' => if key_is "id" (Some n) r' then overwrite r r' else r')
                    (rows (get_table t d))
                = Spec.replace_row "id" r (rows (get_table t d))).
  { unfold Spec.replace_row. apply map_ext_in. intros r' Hr'.
    unfold key_is, Spec.same_key. rewrite Kr.
    destruct (same_value (get "id" r') (JNum n)); [|reflexivity].
    apply overwrite_whole; [rewrite Hrs; assumption|].
    rewrite Forall_forall in Hshape. rewrite (Hshape r' Hr'), Hrs. reflexivity. }
  rewrite Est.
  assert (Hnull : forallb (fun r' => negb (key_is "id" (Some n) r')
                                     || notnull_ok (schema t) (overwrite r r'))
                          (rows (get_table t d)) = true).
  { apply forallb_forall. intros r' Hr'.
    destruct (key_is "id" (Some n) r'); [|reflexivity]. simpl.
    rewrite overwrite_whole; [|rewrite Hrs; assumption|].
    - apply keyed_notnull_ok. rewrite Kr. reflexivity.
    - rewrite Forall_forall in Hshape. rewrite (Hshape r' Hr'), Hrs. reflexivity. }
  rewrite Hnull.
  rewrite keyed_unique_ok; [reflexivity| |].
  - unfold Spec.replace_row. apply Forall_forall. intros x Hx.
    apply in_map_iff in Hx. destruct Hx as [r' [E Hr']].
    rewrite Forall_forall in Hnn.
    destruct (Spec.same_key "id" r' r); subst x; [rewrite Kr; reflexivity|auto].
  - rewrite keys_replace_row. assumption.
Qed.





Lemma table_ok_replaced (v : jsobj) (r : row) (x : table) :
  Spec.stored_form t v = Some r ->
  Spec.table_ok t x ->
  Spec.table_ok t (Table (Spec.replace_row "id" r (rows x)) (seq x)).
Proof.
  intros S [Hshape [Hnn Hnd]]. unfold Spec.table_ok. simpl.
  split; [|split].
  - unfold Spec.replace_row. apply Forall_forall. intros y Hy.
    apply in_map_iff in Hy. destruct Hy as [r' [E Hr']].
    rewrite Forall_forall in Hshape.
    destruct (Spec.same_key "id" r' r); subst y;
      [eapply keyed_shape; eassumption|auto].
  - unfold Spec.replace_row. apply Forall_forall. intros y Hy.
    apply in_map_iff in Hy. destruct Hy as [r' [E Hr']].
    rewrite Forall_forall in Hnn.
    destruct (Spec.same_key "id" r' r); subst y;
      [eapply keyed_not_null; eassumption|auto].
  - rewrite keys_replace_row. assumption.
Qed.

End KeyedTable.

Section TwoPhase.
Variable pk : string.

Local Abbreviation keys := (map (get pk)) (only parsing).





Lemma replaced_by_key (batch : list row) (r : row) :
  get pk (Spec.replaced_by pk batch r) = get pk r.
Proof.
  unfold Spec.replaced_by.
  destruct (find (fun x => Spec.same_key pk r x) batch) as [b'|] eqn:F;
    [|reflexivity].
  apply find_some in F. destruct F as [_ E]. apply same_key_iff in E. congruence.
Qed.





End TwoPhase.

(** *** A pool that rejects nothing *)

Lemma no_faults_hd (w : world) : Spec.no_faults w -> hd false (faults w) = false.
Proof.
  unfold Spec.no_faults. destruct (faults w) as [|b l]; simpl; [reflexivity|].
  intros H. inversion H; assumption.
Qed.

Lemma no_faults_after (w : world) (d : database) (s : string) :
  Spec.no_faults w ->
  Spec.no_faults (with_db d (with_pool (tl (faults w)) (sent w ++ [s]) w)).
Proof.
  unfold Spec.no_faults. simpl. destruct (faults w) as [|b l]; simpl; [auto|].
  intros H. inversion H; assumption.
Qed.

Lemma no_faults_pool (w : world) (st : list string) :
  Spec.no_faults w -> Spec.no_faults (with_pool (tl (faults w)) st w).
Proof.
  unfold Spec.no_faults. simpl. destruct (faults w) as [|b l]; simpl; [auto|].
  intros H. inversion H; assumption.
Qed.

Lemma query_accepted (s : statement) (w : world) (out : list jsobj) (d : database) :
  Spec.no_faults w ->
  exec s (db w) = Some (out, d) ->
  DatabaseService.query s w
  = (Ret out, with_db d (with_pool (tl (faults w)) (sent w ++ [sql_text s]) w)).
Proof.
  intros Hf He. apply no_faults_hd in Hf.
  unfold DatabaseService.query, try_catch, pool_query.
  destruct (faults w) as [|[|] l]; simpl in Hf; try discriminate;
    rewrite He; reflexivity.
Qed.


Lemma map_values_objects (f : fieldNames) (values : list jsobj) :
  DatabaseService.map_values f (map DatabaseService.Obj values)
  = Ret (map (DatabaseService.field_values f) values).
Proof.
  induction values as [|v l IH]; simpl; [reflexivity|]. rewrite IH. reflexivity.
Qed.


Lemma filter_true {A} (l : list A) : filter (fun _ => true) l = l.
Proof. induction l as [|a l IH]; simpl; [reflexivity|]. rewrite IH. reflexivity. Qed.

Section KeyedUpsert.
Variable t : table_name.
Variable rest : list column.
Hypothesis schema_t : schema t = int_pk "id" :: rest.
Hypothesis rest_plain : forallb Spec.plain rest = true.
Hypothesis names_distinct : NoDup (Spec.all_fields t).

Lemma keyed_update_loop (part : list jsobj) :
  forall w,
    Forall (fun v => Spec.stored_form t v <> None) part ->
    Spec.table_ok t (get_table t (db w)) ->
    Spec.no_faults w ->
    exists w',
      DatabaseService.update t (FList (Spec.all_fields t)) "id" part w = (Ret tt, w')
      /\ get_table t (db w')
         = Table (fold_left (fun s r => Spec.replace_row "id" r s)
                            (map (Spec.row_of t) part)
                            (rows (get_table t (db w))))
                 (seq (get_table t (db w)))
      /\ (forall t', t <> t' -> get_table t' (db w') = get_table t' (db w))
      /\ Spec.no_faults w'
      /\ Spec.table_ok t (get_table t (db w')).
Proof.
  unfold DatabaseService.update.
  induction part as [|v l IH]; intros w Hall Hok Hf.
  - exists w. simpl. rewrite table_eta. auto.
  - inversion Hall as [|x l' Hv Hl]; subst.
    destruct (Spec.stored_form t v) as [r|] eqn:S; [|congruence].
    cbn [for_each]. unfold bind at 1. unfold bind at 1.
    rewrite (query_accepted _ _ _ _ Hf
               (keyed_exec_update t rest schema_t rest_plain names_distinct
                                  v r (db w) Hok S)).
    unfold ret at 1.
    match goal with |- context [for_each _ l ?x] => set (w1 := x) end.
    assert (T1 : get_table t (db w1)
                 = Table (Spec.replace_row "id" r (rows (get_table t (db w))))
                         (seq (get_table t (db w))))
      by (subst w1; simpl; apply get_set_table_same).
    destruct (IH w1 Hl) as [w' [E [Tt [To [Hf' Hok']]]]].
    + rewrite T1. eapply table_ok_replaced; eassumption.
    + subst w1. apply no_faults_after. assumption.
    + exists w'. split; [exact E|]. split; [|split; [|auto]].
      * rewrite Tt, T1. simpl.
        assert (Er : Spec.row_of t v = r) by (unfold Spec.row_of; rewrite S; reflexivity).
        rewrite Er. reflexivity.
      * intros t' Ht'. rewrite (To t' Ht'). subst w1. simpl.
        apply get_set_table_other. assumption.
Qed.


End KeyedUpsert.

(* ================================================================== *)
(** ** The upsert of archetypes, cards and passes                      *)
(* ================================================================== *)

Lemma distinct_names_sound (l : list string) :
  distinct_names l = true -> NoDup l.
Proof.
  induction l as [|a l IH]; simpl; intros H; [constructor|].
  apply andb_prop in H. destruct H as [H1 H2]. constructor; [|auto].
  intros Hin. apply negb_true_iff in H1.
  assert (X : existsb (String.eqb a) l = true).
  { apply existsb_exists. exists a. split; [assumption|apply String.eqb_refl]. }
  congruence.
Qed.

Lemma keyed_schema (t : table_name) :
  Spec.keyed t = true ->
  exists rest, schema t = int_pk "id" :: rest
               /\ forallb Spec.plain rest = true
               /\ NoDup (Spec.all_fields t).
Proof.
  destruct t; simpl; intros H; try discriminate;
    eexists; (split; [reflexivity|]); (split; [reflexivity|]);
    apply distinct_names_sound; reflexivity.
Qed.

(** The field lists [Repository] passes to [upsert] name every column. *)
Lemma repository_field_lists :
  Spec.all_fields CARD_META
  = ["id"; "name"; "description"; "image_url"; "advancement"; "card_type";
     "element_id"; "rarity_id"; "family_id"]
  /\ Spec.all_fields CARD
     = ["id"; "foil"; "rank"; "grade"; "animationLevel"; "numbering"; "power";
        "created_at"; "updated_at"; "card_meta_id"; "user_id"]
  /\ Spec.all_fields MINT_PASS
     = ["id"; "numbering"; "created_at"; "updated_at"; "mint_pass_type_id";
        "user_id"].
Proof. repeat split. Qed.




(* ================================================================== *)
(** ** The write path and the upstream side do not meet                *)
(* ================================================================== *)

Lemma framed_ret {A} (a : A) : Spec.framed (ret a).
Proof. intros f rq c w. reflexivity. Qed.

Lemma framed_lift {A} (o : outcome A) : Spec.framed (lift o).
Proof. intros f rq c w. reflexivity. Qed.

Lemma framed_now : Spec.framed now.
Proof. intros f rq c w. reflexivity. Qed.

Lemma framed_bind {A B} (m : M A) (k : A -> M B) :
  Spec.framed m -> (forall a, Spec.framed (k a)) -> Spec.framed (bind m k).
Proof.
  intros Hm Hk f rq c w. unfold bind. rewrite Hm.
  destruct (m w) as [[a|e] w1]; simpl; [apply Hk|reflexivity].
Qed.

Lemma framed_try_catch {A} (m : M A) (h : error -> M A) :
  Spec.framed m -> (forall e, Spec.framed (h e)) -> Spec.framed (try_catch m h).
Proof.
  intros Hm Hh f rq c w. unfold try_catch. rewrite Hm.
  destruct (m w) as [[a|e] w1]; simpl; [reflexivity|apply Hh].
Qed.

Lemma framed_pool_query (s : statement) : Spec.framed (pool_query s).
Proof.
  intros f rq c w. unfold pool_query. simpl.
  destruct (faults w) as [|[|] l]; simpl; try reflexivity;
    destruct (exec s (db w)) as [[out d]|]; reflexivity.
Qed.

Lemma framed_repository_update (b : Repository.batch) :
  Spec.framed (Repository.update b).
Proof.
  apply (closed_repository_update (fun A m => Spec.framed m)).
  - intros; apply framed_ret.
  - intros; apply framed_lift.
  - intros; apply framed_bind; assumption.
  - intros; apply framed_try_catch; assumption.
  - intros; apply framed_pool_query.
Qed.

Lemma framed_repository_burn (passIds cardIds : list jsval) :
  Spec.framed (Repository.burn passIds cardIds).
Proof.
  apply (closed_repository_burn (fun A m => Spec.framed m)).
  - intros; apply framed_ret.
  - intros; apply framed_bind; assumption.
  - intros; apply framed_pool_query.
Qed.

Lemma framed_recordUpdate (a b c : jsval) :
  Spec.framed (Repository.recordUpdate a b c).
Proof.
  unfold Repository.recordUpdate, DatabaseService.insert.
  apply framed_bind; [|intros; apply framed_ret].
  apply framed_bind; [apply framed_lift|]. intros newRows.
  apply framed_bind; [|intros; apply framed_ret].
  apply framed_try_catch; [apply framed_pool_query|intros; apply framed_ret].
Qed.

Lemma framed_process_page (assets : list asset) :
  Spec.framed (CTAManager.process_page assets).
Proof.
  unfold CTAManager.process_page.
  apply framed_bind; [apply framed_now|]. intros updateTs.
  apply framed_bind; [apply framed_lift|]. intros cl.
  apply framed_bind; [apply framed_repository_update|]. intros _.
  apply framed_bind; [apply framed_repository_burn|]. intros _.
  destruct assets; [apply framed_ret|apply framed_recordUpdate].
Qed.

Lemma framed_process_pages (pages : list (list asset)) :
  Spec.framed (Spec.process_pages pages).
Proof.
  unfold Spec.process_pages. induction pages as [|p l IH]; simpl.
  - apply framed_ret.
  - apply framed_bind; [apply framed_process_page|intros _; exact IH].
Qed.

Lemma upstream_same (w : world) :
  Spec.upstream (feed w) (requests w) (lastCursor w) w = w.
Proof. destruct w; reflexivity. Qed.

Lemma upstream_upstream (f f' : list response) (rq rq' : list request)
      (c c' : jsval) (w : world) :
  Spec.upstream f rq c (Spec.upstream f' rq' c' w) = Spec.upstream f rq c w.
Proof. reflexivity. Qed.

(** What a framed method leaves of the upstream side: all of it. *)
Lemma framed_keeps_upstream {A} (m : M A) (w : world) :
  Spec.framed m ->
  feed (snd (m w)) = feed w
  /\ requests (snd (m w)) = requests w
  /\ lastCursor (snd (m w)) = lastCursor w.
Proof.
  intros Hm. pose proof (Hm (feed w) (requests w) (lastCursor w) w) as H.
  rewrite upstream_same in H.
  assert (E : snd (m w)
              = Spec.upstream (feed w) (requests w) (lastCursor w) (snd (m w))).
  { rewrite H at 1. reflexivity. }
  rewrite E. simpl. auto.
Qed.

(* ================================================================== *)
(** ** The cycle up to a failing fetch                                 *)
(* ================================================================== *)

Lemma with_feed_upstream (f : list response) (rq : list request) (w : world) :
  with_feed f rq w = Spec.upstream f rq (lastCursor w) w.
Proof. destruct w; reflexivity. Qed.

(** One fetch from the IMX source. *)
Lemma try_next_imx (cfg : CTAManager.config) (w : world) :
  CTAManager.ASSETS_SOURCE cfg = "imx" ->
  let rq := Request (CTAManager.CTA_PAGE_SIZE cfg) (lastCursor w) in
  CTAManager.try_next cfg w
  = match feed w with
    | Some (c, assets) :: f =>
        (Ret (Some assets), Spec.upstream f (requests w ++ [rq]) c w)
    | None :: f =>
        (Ret None, Spec.upstream f (requests w ++ [rq]) (lastCursor w) w)
    | [] =>
        (Ret (Some []), Spec.upstream [] (requests w ++ [rq]) (lastCursor w) w)
    end.
Proof.
  intros Hs rq. unfold CTAManager.try_next, CTAManager.getNextAssets.
  rewrite Hs. simpl String.eqb. cbv iota.
  unfold try_catch, bind, CTAManager._getNewAssetsPage, bind, listAssets.
  fold rq. destruct (feed w) as [|[[c assets]|] f]; reflexivity.
Qed.

Lemma process_pages_cons (p : list asset) (l : list (list asset)) (w : world) :
  Spec.process_pages (p :: l) w
  = match CTAManager.process_page p w with
    | (Ret _, w1) => Spec.process_pages l w1
    | (Throw e, w1) => (Throw e, w1)
    end.
Proof. reflexivity. Qed.

Lemma last_cons_default {A} (l : list A) (x d : A) :
  last (x :: l) d = last l x.
Proof.
  revert x d. induction l as [|y l IH]; intros x d; [reflexivity|].
  change (last (x :: y :: l) d) with (last (y :: l) d).
  rewrite (IH y d), (IH y x). reflexivity.
Qed.

(** An empty page ends the loop whatever fuel is left. *)
Lemma loop_on_empty_page (cfg : CTAManager.config) (fuel : nat) (n : Z)
      (w : world) :
  CTAManager.update_loop fuel cfg [] n w = (Ret tt, w).
Proof. destruct fuel; reflexivity. Qed.

Lemma loop_over_pages (cfg : CTAManager.config) (stop : list response) :
  CTAManager.ASSETS_SOURCE cfg = "imx" ->
  Spec.stops stop ->
  forall pages fuel assets w,
    assets <> [] ->
    Z.of_nat (List.length assets) < CTAManager.MAX_ASSETS_PER_UPDATE cfg ->
    Forall (fun p => snd p <> []
                     /\ Z.of_nat (List.length (snd p))
                        < CTAManager.MAX_ASSETS_PER_UPDATE cfg) pages ->
    feed w = (map Some pages ++ stop)%list ->
    (List.length pages < fuel)%nat ->
    fst (Spec.process_pages (assets :: map snd pages) w) = Ret tt ->
    CTAManager.update_loop fuel cfg assets (Z.of_nat (List.length assets)) w
    = (Ret tt,
       Spec.upstream (tl stop)
         (requests w
            ++ map (Request (CTAManager.CTA_PAGE_SIZE cfg))
                   (lastCursor w :: map fst pages))
         (last (map fst pages) (lastCursor w))
         (snd (Spec.process_pages (assets :: map snd pages) w))).
Proof.
  intros Hs Hstop. induction pages as [|[c1 a1] ps IH];
    intros fuel assets w Hne Hlt Hall Hfeed Hfuel Hok.
  - destruct fuel as [|fuel]; [inversion Hfuel|].
    cbn [CTAManager.update_loop].
    assert (C : (0 <? Z.of_nat (List.length assets))
                && (Z.of_nat (List.length assets)
                    <? CTAManager.MAX_ASSETS_PER_UPDATE cfg) = true).
    { apply andb_true_intro. split; [|apply Z.ltb_lt; assumption].
      apply Z.ltb_lt. destruct assets; [congruence|simpl; lia]. }
    rewrite C. unfold bind at 1.
    rewrite process_pages_cons in Hok. rewrite process_pages_cons.
    destruct (framed_keeps_upstream (CTAManager.process_page assets) w
                (framed_process_page assets)) as [Kf [Kr Kc]].
    destruct (CTAManager.process_page assets w) as [[[]|e] w1];
      [|simpl in Hok; discriminate].
    simpl in Kf, Kr, Kc. unfold bind at 1.
    rewrite (try_next_imx cfg w1 Hs). rewrite Kf, Hfeed, Kr, Kc.
    destruct Hstop as [E|[rest E]]; subst stop; simpl.
    + apply loop_on_empty_page.
    + reflexivity.
  - destruct fuel as [|fuel]; [inversion Hfuel|].
    cbn [CTAManager.update_loop].
    assert (C : (0 <? Z.of_nat (List.length assets))
                && (Z.of_nat (List.length assets)
                    <? CTAManager.MAX_ASSETS_PER_UPDATE cfg) = true).
    { apply andb_true_intro. split; [|apply Z.ltb_lt; assumption].
      apply Z.ltb_lt. destruct assets; [congruence|simpl; lia]. }
    rewrite C. unfold bind at 1.
    cbn [map snd] in Hok. cbn [map snd].
    rewrite process_pages_cons in Hok. rewrite process_pages_cons.
    destruct (framed_keeps_upstream (CTAManager.process_page assets) w
                (framed_process_page assets)) as [Kf [Kr Kc]].
    destruct (CTAManager.process_page assets w) as [[[]|e] w1];
      [|simpl in Hok; discriminate].
    simpl in Kf, Kr, Kc. unfold bind at 1.
    rewrite (try_next_imx cfg w1 Hs). rewrite Kf, Hfeed, Kr, Kc.
    cbn [map app].
    inversion Hall as [|x l [Hne1 Hlt1] Hall']; subst. simpl in Hne1, Hlt1.
    set (w2 := Spec.upstream _ _ c1 w1).
    pose proof (framed_process_pages (a1 :: map snd ps)
                  (map Some ps ++ stop)%list
                  (requests w ++ [Request (CTAManager.CTA_PAGE_SIZE cfg) (lastCursor w)])%list
                  c1 w1) as Fr.
    fold w2 in Fr.
    rewrite (IH fuel a1 w2 Hne1 Hlt1 Hall').
    + rewrite Fr. simpl snd. rewrite upstream_upstream.
      subst w2. simpl requests. simpl lastCursor.
      rewrite <- app_assoc. cbn [map fst app].
      rewrite last_cons_default. reflexivity.
    + reflexivity.
    + simpl in Hfuel. lia.
    + rewrite Fr. exact Hok.
Qed.

(* ================================================================== *)
(** ** Checkpoints                                                     *)
(* ================================================================== *)

Lemma same_history_closed :
  (forall A (a : A), Spec.step Spec.same_history (ret a))
  /\ (forall A (o : outcome A), Spec.step Spec.same_history (lift o))
  /\ (forall A B (m : M A) (k : A -> M B),
         Spec.step Spec.same_history m ->
         (forall a, Spec.step Spec.same_history (k a)) ->
         Spec.step Spec.same_history (bind m k))
  /\ (forall A (m : M A) (h : error -> M A),
         Spec.step Spec.same_history m ->
         (forall e, Spec.step Spec.same_history (h e)) ->
         Spec.step Spec.same_history (try_catch m h))
  /\ (forall s, Spec.statement_table s <> UPDATE_HISTORY ->
                Spec.step Spec.same_history (pool_query s)).
Proof.
  assert (Hr : forall w, Spec.same_history w w) by (intros w; reflexivity).
  assert (Ht : forall a b c, Spec.same_history a b -> Spec.same_history b c ->
                             Spec.same_history a c)
    by (unfold Spec.same_history; intros a b c H1 H2; congruence).
  split; [intros; apply step_ret; assumption|].
  split; [intros; apply step_lift; assumption|].
  split; [intros; apply step_bind; assumption|].
  split; [intros; apply step_try_catch; assumption|].
  intros s Hs. apply step_pool_query.
  - intros w st. reflexivity.
  - intros w out d E. unfold Spec.same_history. simpl.
    apply (exec_other_table s UPDATE_HISTORY _ _ _ E Hs).
Qed.

Lemma keeps_no_faults_closed :
  (forall A (a : A), Spec.step Spec.keeps_no_faults (ret a))
  /\ (forall A (o : outcome A), Spec.step Spec.keeps_no_faults (lift o))
  /\ (forall A B (m : M A) (k : A -> M B),
         Spec.step Spec.keeps_no_faults m ->
         (forall a, Spec.step Spec.keeps_no_faults (k a)) ->
         Spec.step Spec.keeps_no_faults (bind m k))
  /\ (forall A (m : M A) (h : error -> M A),
         Spec.step Spec.keeps_no_faults m ->
         (forall e, Spec.step Spec.keeps_no_faults (h e)) ->
         Spec.step Spec.keeps_no_faults (try_catch m h))
  /\ (forall s, Spec.step Spec.keeps_no_faults (pool_query s)).
Proof.
  assert (Hr : forall w, Spec.keeps_no_faults w w) by (intros w H; exact H).
  assert (Ht : forall a b c, Spec.keeps_no_faults a b -> Spec.keeps_no_faults b c ->
                             Spec.keeps_no_faults a c)
    by (unfold Spec.keeps_no_faults; intros a b c H1 H2 H; auto).
  split; [intros; apply step_ret; assumption|].
  split; [intros; apply step_lift; assumption|].
  split; [intros; apply step_bind; assumption|].
  split; [intros; apply step_try_catch; assumption|].
  intros s. apply step_pool_query.
  - intros w st H. apply no_faults_pool. assumption.
  - intros w out d E H. apply no_faults_after. assumption.
Qed.

(** Up to the checkpoint, a page leaves the checkpoint table alone. *)
Lemma writes_keep_history (b : Repository.batch) (passIds cardIds : list jsval) :
  Spec.step Spec.same_history (Repository.update b)
  /\ Spec.step Spec.same_history (Repository.burn passIds cardIds).
Proof.
  destruct same_history_closed as [H1 [H2 [H3 [H4 H5]]]]. split.
  - apply (closed_repository_update (fun A m => Spec.step Spec.same_history m));
      auto.
  - apply (closed_repository_burn (fun A m => Spec.step Spec.same_history m));
      auto.
Qed.

Lemma writes_keep_no_faults (b : Repository.batch) (passIds cardIds : list jsval) :
  Spec.step Spec.keeps_no_faults (Repository.update b)
  /\ Spec.step Spec.keeps_no_faults (Repository.burn passIds cardIds).
Proof.
  destruct keeps_no_faults_closed as [H1 [H2 [H3 [H4 H5]]]]. split.
  - apply (closed_repository_update (fun A m => Spec.step Spec.keeps_no_faults m));
      auto.
  - apply (closed_repository_burn (fun A m => Spec.step Spec.keeps_no_faults m));
      auto.
Qed.

Lemma as_text_not_null (v : jsval) :
  is_null v = false -> coerce TText v = Some (Spec.as_text v)
                       /\ is_null (Spec.as_text v) = false.
Proof.
  unfold Spec.as_text. destruct v as [| | |n|s|[|]]; simpl; intros H;
    try discriminate; auto.
Qed.

Lemma checkpoint_make_row (u : string) (ts cnt : jsval) (sq : Z) :
  make_row (schema UPDATE_HISTORY)
           [("update_timestamp", JStr u); ("last_asset_timestamp", ts);
            ("assets_count", cnt)] sq
  = match coerce TText ts, coerce TInt cnt with
    | Some ts', Some cnt' =>
        if is_null ts' then None
        else Some (Spec.checkpoint_row sq u ts' cnt', sq + 1)
    | _, _ => None
    end.
Proof.
  cbn -[coerce Z.add is_null].
  change (coerce TText (JStr u)) with (Some (JStr u)).
  cbn -[coerce Z.add].
  destruct (coerce TText ts) as [ts'|]; [destruct (is_null ts')|];
    destruct (coerce TInt cnt) as [cnt'|]; reflexivity.
Qed.

Lemma checkpoint_conflicts (stored : list row) (sq : Z) (u : string)
      (ts cnt : jsval) :
  conflicts (schema UPDATE_HISTORY) stored (Spec.checkpoint_row sq u ts cnt)
  = existsb (fun r' => same_value (get "id" r') (JNum sq)) stored.
Proof.
  unfold conflicts. cbn [schema existsb serial_pk text_notnull int_col
                         col_unique col_name andb orb].
  change (get "id" (Spec.checkpoint_row sq u ts cnt)) with (JNum sq).
  cbn [is_null negb andb]. rewrite orb_false_r. reflexivity.
Qed.

(** What the store does with the INSERT of [recordUpdate]. *)
Lemma checkpoint_exec (u : string) (ts cnt : jsval) (d : database) :
  exec (Insert UPDATE_HISTORY
               (FList ["update_timestamp"; "last_asset_timestamp"; "assets_count"])
               [LArr [LVal (JStr u); LVal ts; LVal cnt]] "id") d
  = match coerce TInt cnt with
    | Some cnt' =>
        if is_null ts then None
        else
          let sq := seq (update_history d) in
          let r := Spec.checkpoint_row sq u (Spec.as_text ts) cnt' in
          if existsb (fun r' => same_value (get "id" r') (JNum sq))
                     (rows (update_history d))
          then Some ([], set_table UPDATE_HISTORY
                           (Table (rows (update_history d)) (sq + 1)) d)
          else Some ([[("id", JNum sq)]],
                     set_table UPDATE_HISTORY
                       (Table (rows (update_history d) ++ [r]) (sq + 1)) d)
    | None => None
    end.
Proof.
  set (fs := ["update_timestamp"; "last_asset_timestamp"; "assets_count"]).
  assert (E0 : forall stored sq,
             insert_tuples (schema UPDATE_HISTORY) fs "id"
                           [LArr [LVal (JStr u); LVal ts; LVal cnt]] stored sq []
             = match make_row (schema UPDATE_HISTORY)
                              [("update_timestamp", JStr u);
                               ("last_asset_timestamp", ts);
                               ("assets_count", cnt)] sq with
               | None => None
               | Some (r, sq') =>
                   if conflicts (schema UPDATE_HISTORY) stored r
                   then Some (stored, sq', [])
                   else Some ((stored ++ [r])%list, sq', [[("id", get "id" r)]])
               end) by reflexivity.
  assert (E1 : exec (Insert UPDATE_HISTORY (FList fs)
                            [LArr [LVal (JStr u); LVal ts; LVal cnt]] "id") d
               = match insert_tuples (schema UPDATE_HISTORY) fs "id"
                                     [LArr [LVal (JStr u); LVal ts; LVal cnt]]
                                     (rows (update_history d))
                                     (seq (update_history d)) []
                 with
                 | Some (stored, sq, returned) =>
                     Some (returned, set_table UPDATE_HISTORY (Table stored sq) d)
                 | None => None
                 end).
  { cbn [exec field_list get_table]. unfold exec_insert.
    change (find_column "id" (schema UPDATE_HISTORY)) with (Some (serial_pk "id")).
    cbv iota.
    destruct (insert_tuples _ _ _ _ _ _ _) as [[[stored sq] returned]|];
      reflexivity. }
  rewrite E1, E0, checkpoint_make_row. clear E0 E1.
  destruct (is_null ts) eqn:Nts.
  - assert (X : coerce TText ts = Some JNull)
      by (destruct ts; simpl in Nts; try discriminate; reflexivity).
    rewrite X. simpl. destruct (coerce TInt cnt); reflexivity.
  - destruct (as_text_not_null ts Nts) as [Ets Nas]. rewrite Ets, Nas.
    destruct (coerce TInt cnt) as [cnt'|]; [|reflexivity].
    rewrite checkpoint_conflicts. cbv zeta.
    destruct (existsb (fun r' => same_value (get "id" r')
                                            (JNum (seq (update_history d))))
                      (rows (update_history d))); reflexivity.
Qed.

Lemma recordUpdate_query (u : string) (ts cnt : jsval) (w : world) :
  Repository.recordUpdate (JStr u) ts cnt w
  = (Ret tt,
     snd (DatabaseService.query
            (Insert UPDATE_HISTORY
                    (FList ["update_timestamp"; "last_asset_timestamp";
                            "assets_count"])
                    [LArr [LVal (JStr u); LVal ts; LVal cnt]] "id") w)).
Proof.
  unfold Repository.recordUpdate, DatabaseService.insert, bind, lift.
  cbn [DatabaseService.map_values DatabaseService._fieldValues
       DatabaseService.field_values map].
  change (get "update_timestamp" _) with (JStr u).
  change (get "last_asset_timestamp" _) with ts.
  change (get "assets_count" _) with cnt.
  destruct (query_returns
              (Insert UPDATE_HISTORY
                      (FList ["update_timestamp"; "last_asset_timestamp";
                              "assets_count"])
                      [LArr [LVal (JStr u); LVal ts; LVal cnt]] "id") w) as [rs H].
  destruct (DatabaseService.query _ w) as [o w']. simpl in H. subst o. reflexivity.
Qed.


Lemma recordUpdate_appends (u : string) (ts : jsval) (n : Z) (w : world) :
  Spec.no_faults w ->
  Spec.history_fresh w ->
  is_null ts = false ->
  in_int4 n = true ->
  let w' := snd (Repository.recordUpdate (JStr u) ts (JNum n) w) in
  Spec.history w'
  = (Spec.history w
       ++ [Spec.checkpoint_row (seq (update_history (db w))) u
                               (Spec.as_text ts) (JNum n)])%list
  /\ Spec.no_faults w'
  /\ Spec.history_fresh w'.
Proof.
  intros Hf Hfr Nts Hn w'. subst w'. rewrite recordUpdate_query. cbn [snd].
  assert (Hnone : existsb (fun r' => same_value (get "id" r')
                                                (JNum (seq (update_history (db w)))))
                          (rows (update_history (db w))) = false).
  { match goal with |- ?x = false => destruct x eqn:X end; [|reflexivity].
    apply existsb_exists in X. destruct X as [r [Hr E]].
    apply same_value_eq in E. specialize (Hfr r _ Hr E). lia. }
  erewrite query_accepted; [|assumption|].
  2:{ rewrite checkpoint_exec. cbn [coerce]. rewrite Hn, Nts. cbv zeta.
      rewrite Hnone. reflexivity. }
  cbn [snd]. split; [reflexivity|]. split; [apply no_faults_after; assumption|].
  intros r m Hr E. unfold Spec.history in *. simpl in Hr |- *.
  apply in_app_or in Hr. destruct Hr as [Hr|[Hr|[]]].
  - specialize (Hfr r m Hr E). lia.
  - subst r. simpl in E. inversion E. lia.
Qed.

Lemma process_page_unfold (assets : list asset) (w : world) :
  CTAManager.process_page assets w
  = let w0 := with_ticks (S (ticks w)) w in
    match CTAManager.collect assets with
    | Throw e => (Throw e, w0)
    | Ret c =>
        match Repository.update (CTAManager.batch_of c) w0 with
        | (Throw e, w1) => (Throw e, w1)
        | (Ret _, w1) =>
            match Repository.burn (CTAManager.burned_ids "MINT_PASS" assets)
                                  (CTAManager.burned_ids "CARD" assets) w1 with
            | (Throw e, w2) => (Throw e, w2)
            | (Ret _, w2) =>
                match assets with
                | first :: _ =>
                    Repository.recordUpdate
                      (JStr (clock w (ticks w))) (updated_at first)
                      (JNum (Z.of_nat (List.length assets))) w2
                | [] => (Ret tt, w2)
                end
            end
        end
    end.
Proof.
  unfold CTAManager.process_page, bind, now, lift. cbv zeta.
  destruct (CTAManager.collect assets) as [c|e]; [|reflexivity].
  destruct (Repository.update _ _) as [[[]|e] w1]; [|reflexivity].
  destruct (Repository.burn _ _ _) as [[[]|e] w2]; [|reflexivity].
  destruct assets; reflexivity.
Qed.


Lemma history_fresh_same (w w' : world) :
  update_history (db w') = update_history (db w) ->
  Spec.history_fresh w -> Spec.history_fresh w'.
Proof. unfold Spec.history_fresh. intros E H. rewrite E. exact H. Qed.

Lemma process_page_checkpoint (page : list asset) (w : world) :
  Spec.no_faults w ->
  Spec.history_fresh w ->
  Spec.checkpointable page ->
  fst (CTAManager.process_page page w) = Ret tt ->
  let w' := snd (CTAManager.process_page page w) in
  Spec.history w'
  = (Spec.history w
       ++ [Spec.checkpoint_row (seq (update_history (db w))) (clock w (ticks w))
                               (Spec.as_text (Spec.first_timestamp page))
                               (JNum (Z.of_nat (List.length page)))])%list
  /\ Spec.no_faults w'
  /\ Spec.history_fresh w'.
Proof.
  intros Hf Hfr [Hne [Nts Hn]]. rewrite process_page_unfold. cbv zeta.
  set (w0 := with_ticks (S (ticks w)) w).
  destruct (CTAManager.collect page) as [c|e]; [|discriminate].
  destruct (writes_keep_history (CTAManager.batch_of c)
              (CTAManager.burned_ids "MINT_PASS" page)
              (CTAManager.burned_ids "CARD" page)) as [Ku Kb].
  destruct (writes_keep_no_faults (CTAManager.batch_of c)
              (CTAManager.burned_ids "MINT_PASS" page)
              (CTAManager.burned_ids "CARD" page)) as [Fu Fb].
  specialize (Ku w0). specialize (Fu w0).
  unfold Spec.same_history in Ku. unfold Spec.keeps_no_faults in Fu.
  destruct (Repository.update _ w0) as [[[]|e] w1]; cbn [snd] in *;
    [|discriminate].
  specialize (Kb w1). specialize (Fb w1).
  unfold Spec.same_history in Kb. unfold Spec.keeps_no_faults in Fb.
  destruct (Repository.burn _ _ w1) as [[[]|e] w2]; cbn [snd] in *;
    [|discriminate].
  destruct page as [|first others]; [congruence|]. intros _.
  assert (E2 : update_history (db w2) = update_history (db w))
    by (rewrite Kb, Ku; reflexivity).
  destruct (recordUpdate_appends (clock w (ticks w)) (updated_at first)
              (Z.of_nat (List.length (first :: others))) w2) as [H [H1 H2]];
    try assumption.
  - apply Fb, Fu. exact Hf.
  - eapply history_fresh_same; [exact E2|exact Hfr].
  - split; [|split; assumption]. rewrite H. unfold Spec.history. rewrite E2.
    reflexivity.
Qed.

Lemma process_pages_checkpoints (pages : list (list asset)) :
  forall w,
    Spec.no_faults w ->
    Spec.history_fresh w ->
    Forall Spec.checkpointable pages ->
    fst (Spec.process_pages pages w) = Ret tt ->
    exists added,
      Spec.history (snd (Spec.process_pages pages w))
      = (Spec.history w ++ added)%list
      /\ map (fun r => (get "last_asset_timestamp" r, get "assets_count" r)) added
         = map Spec.page_checkpoint pages.
Proof.
  induction pages as [|p l IH]; intros w Hf Hfr Hall Hok.
  - exists []. simpl. rewrite app_nil_r. auto.
  - inversion Hall as [|x l' Hp Hl]; subst.
    rewrite process_pages_cons in *.
    pose proof (process_page_checkpoint p w Hf Hfr Hp) as H.
    destruct (CTAManager.process_page p w) as [[[]|e] w1];
      [|simpl in Hok; discriminate].
    destruct (H eq_refl) as [H1 [H2 H3]]. cbn [snd] in *.
    destruct (IH w1 H2 H3 Hl Hok) as [added [E M]].
    eexists. split.
    + rewrite E, H1, <- app_assoc. reflexivity.
    + cbn [map app]. rewrite M. reflexivity.
Qed.

(** C7: the checkpoint a non-empty page adds, on a store that rejects
    nothing, holds the time of the cycle, the number of records of the
    page and the update time of the first record of the page,
    [assets[0].updated_at], not that of the last one. *)
Theorem checkpoint_records_first_timestamp (page : list asset) (w : world) :
  Spec.no_faults w ->
  Spec.history_fresh w ->
  Spec.checkpointable page ->
  fst (CTAManager.process_page page w) = Ret tt ->
  Spec.history (snd (CTAManager.process_page page w))
  = (Spec.history w
       ++ [[("id", JNum (seq (update_history (db w))));
            ("update_timestamp", JStr (clock w (ticks w)));
            ("last_asset_timestamp", Spec.as_text (Spec.first_timestamp page));
            ("assets_count", JNum (Z.of_nat (List.length page)))]])%list.
Proof.
  intros Hf Hfr Hc Hok.
  destruct (process_page_checkpoint page w Hf Hfr Hc Hok) as [H _].
  rewrite H. destruct Hc as [Hne _].
  destruct page as [|first others]; [congruence|reflexivity].
Qed.

Lemma checkpoint_records_first_timestamp_witness :
  let w := Samples.on_feed [Some (JStr "cur1", Samples.two_records)] in
  map updated_at Samples.two_records = [JStr "2022-03-01"; JStr "2022-03-05"]
  /\ Spec.history (snd (CTAManager.process_page Samples.two_records w))
     = [[("id", JNum 1); ("update_timestamp", JStr (Samples.iso 0));
         ("last_asset_timestamp", JStr "2022-03-01");
         ("assets_count", JNum 2)]]
  /\ Spec.history (snd (CTAManager.update CTAManager.default_config w))
     = Spec.history (snd (CTAManager.process_page Samples.two_records w)).
Proof.
  intros w. split; [reflexivity|]. split; [|vm_compute; reflexivity].
  rewrite (checkpoint_records_first_timestamp Samples.two_records w).
  - reflexivity.
  - constructor.
  - intros r n [].
  - split; [discriminate|]. split; reflexivity.
  - vm_compute. reflexivity.
Defined.

(** Requests are only ever added, at the end. *)
Lemma try_next_requests (cfg : CTAManager.config) (w : world) :
  exists later,
    requests (snd (CTAManager.try_next cfg w)) = (requests w ++ later)%list.
Proof.
  unfold CTAManager.try_next, CTAManager.getNextAssets.
  destruct (String.eqb (CTAManager.ASSETS_SOURCE cfg) "imx").
  - unfold try_catch, bind, CTAManager._getNewAssetsPage, bind, listAssets.
    destruct (feed w) as [|[[c assets]|] f]; simpl; eauto.
  - unfold try_catch, bind, read_assets_file.
    destruct (assetsFileAlreadyRead w); simpl; [exists []; rewrite app_nil_r; reflexivity|].
    destruct (assets_file w); simpl; exists []; rewrite app_nil_r; reflexivity.
Qed.

Lemma update_loop_requests (cfg : CTAManager.config) (fuel : nat) :
  forall assets n w,
    exists later,
      requests (snd (CTAManager.update_loop fuel cfg assets n w))
      = (requests w ++ later)%list.
Proof.
  induction fuel as [|fuel IH]; intros assets n w; simpl;
    destruct ((0 <? Z.of_nat (List.length assets))
              && (n <? CTAManager.MAX_ASSETS_PER_UPDATE cfg));
    try (exists []; rewrite app_nil_r; reflexivity).
  unfold bind at 1.
  destruct (framed_keeps_upstream (CTAManager.process_page assets) w
              (framed_process_page assets)) as [_ [Kr _]].
  destruct (CTAManager.process_page assets w) as [[[]|e] w1]; cbn [snd] in *;
    [|exists []; rewrite app_nil_r; exact Kr].
  unfold bind at 1. destruct (try_next_requests cfg w1) as [l1 E1].
  destruct (CTAManager.try_next cfg w1) as [[[a|]|e] w2]; cbn [snd] in *.
  - destruct (IH a (Z.of_nat (List.length a)) w2) as [l2 E2].
    exists (l1 ++ l2)%list. rewrite E2, E1, Kr, app_assoc. reflexivity.
  - exists l1. simpl. rewrite E1, Kr. reflexivity.
  - exists l1. simpl. rewrite E1, Kr. reflexivity.
Qed.

Lemma update_first_request (cfg : CTAManager.config) (w : world) :
  CTAManager.ASSETS_SOURCE cfg = "imx" ->
  exists later,
    requests (snd (CTAManager.update cfg w))
    = (requests w
         ++ Request (CTAManager.CTA_PAGE_SIZE cfg) (lastCursor w) :: later)%list.
Proof.
  intros Hs. unfold CTAManager.update, bind.
  rewrite (try_next_imx cfg w Hs).
  destruct (feed w) as [|[[c assets]|] f].
  - exists []. cbn [CTAManager.update_loop]. reflexivity.
  - match goal with
    | |- context [CTAManager.update_loop ?a cfg ?b ?c ?d] =>
        destruct (update_loop_requests cfg a b c d) as [l E]
    end.
    exists l. rewrite E. simpl. rewrite <- app_assoc. reflexivity.
  - exists []. reflexivity.
Qed.

Lemma last_app_map {A B} (f : A -> B) (cs : list A) :
  forall (l : list B) (c0 : A) (d : B),
    last (l ++ map f (c0 :: cs)) d = f (last cs c0).
Proof.
  induction cs as [|c cs IH]; intros l c0 d.
  - simpl. apply last_last.
  - rewrite last_cons_default.
    change (l ++ map f (c0 :: c :: cs))%list
      with (l ++ [f c0] ++ map f (c :: cs))%list.
    rewrite app_assoc, IH. destruct cs; reflexivity.
Qed.

Lemma update_over_pages (cfg : CTAManager.config) (w : world)
      (pages : list (jsval * list asset)) (stop : list response) :
  CTAManager.ASSETS_SOURCE cfg = "imx" ->
  Spec.stops stop ->
  feed w = (map Some pages ++ stop)%list ->
  Forall (fun p => snd p <> []
                   /\ Z.of_nat (List.length (snd p))
                      < CTAManager.MAX_ASSETS_PER_UPDATE cfg) pages ->
  fst (Spec.process_pages (map snd pages) w) = Ret tt ->
  CTAManager.update cfg w
  = (Ret tt,
     Spec.upstream (tl stop)
       (requests w
          ++ map (Request (CTAManager.CTA_PAGE_SIZE cfg))
                 (lastCursor w :: map fst pages))
       (last (map fst pages) (lastCursor w))
       (snd (Spec.process_pages (map snd pages) w))).
Proof.
  intros Hs Hstop Hfeed Hall Hok. unfold CTAManager.update, bind.
  rewrite (try_next_imx cfg w Hs). rewrite Hfeed.
  destruct pages as [|[c1 a1] ps]; cbn [map app fst snd].
  - destruct Hstop as [E|[rest E]]; subst stop; reflexivity.
  - inversion Hall as [|x l [Hne1 Hlt1] Hall']; subst. simpl in Hne1, Hlt1.
    set (w1 := Spec.upstream _ _ c1 w).
    pose proof (framed_process_pages (a1 :: map snd ps)
                  (map Some ps ++ stop)%list
                  (requests w ++ [Request (CTAManager.CTA_PAGE_SIZE cfg) (lastCursor w)])%list
                  c1 w) as Fr.
    fold w1 in Fr.
    rewrite (loop_over_pages cfg stop Hs Hstop ps _ a1 w1 Hne1 Hlt1 Hall').
    + rewrite Fr. simpl snd. rewrite upstream_upstream.
      subst w1. simpl requests. simpl lastCursor.
      rewrite <- app_assoc. cbn [map fst app].
      rewrite last_cons_default. reflexivity.
    + reflexivity.
    + cbn [List.length]. rewrite length_app, length_map. cbn [List.length]. lia.
    + rewrite Fr. exact Hok.
Qed.

(** C3: when the fetch that follows the pages [pages] throws, the
    cycle returns normally; the retained cursor is the one the last
    successful fetch returned (the initial one if none succeeded); the
    store and the statements sent are those of processing [pages] and
    nothing else; when the store rejects nothing there is exactly one
    checkpoint per processed page; and the first request of the next
    cycle is the failing request again. *)
Theorem fetch_failure_aborts_cycle (cfg : CTAManager.config) (w : world)
        (pages : list (jsval * list asset)) (rest : list response) :
  CTAManager.ASSETS_SOURCE cfg = "imx" ->
  feed w = (map Some pages ++ None :: rest)%list ->
  Forall (fun p => snd p <> []
                   /\ Z.of_nat (List.length (snd p))
                      < CTAManager.MAX_ASSETS_PER_UPDATE cfg) pages ->
  fst (Spec.process_pages (map snd pages) w) = Ret tt ->
  let w' := snd (CTAManager.update cfg w) in
  let done := snd (Spec.process_pages (map snd pages) w) in
  let kept := last (map fst pages) (lastCursor w) in
  let failing := Request (CTAManager.CTA_PAGE_SIZE cfg) kept in
  fst (CTAManager.update cfg w) = Ret tt
  /\ lastCursor w' = kept
  /\ requests w'
     = (requests w
          ++ map (Request (CTAManager.CTA_PAGE_SIZE cfg))
                 (lastCursor w :: map fst pages))%list
  /\ last (requests w') failing = failing
  /\ feed w' = rest
  /\ db w' = db done
  /\ sent w' = sent done
  /\ (Spec.no_faults w -> Spec.history_fresh w ->
      Forall Spec.checkpointable (map snd pages) ->
      exists added,
        Spec.history w' = (Spec.history w ++ added)%list
        /\ map (fun r => (get "last_asset_timestamp" r, get "assets_count" r)) added
           = map Spec.page_checkpoint (map snd pages))
  /\ (exists later,
         requests (snd (CTAManager.update cfg w'))
         = (requests w' ++ failing :: later)%list).
Proof.
  intros Hs Hfeed Hall Hok w' done kept failing.
  pose proof (update_over_pages cfg w pages (None :: rest) Hs
                                (or_intror (ex_intro _ rest eq_refl))
                                Hfeed Hall Hok) as E.
  cbn [tl] in E.
  assert (Ew : w' = Spec.upstream rest
                      (requests w
                         ++ map (Request (CTAManager.CTA_PAGE_SIZE cfg))
                                (lastCursor w :: map fst pages))%list
                      kept done)
    by (subst w'; rewrite E; reflexivity).
  split; [rewrite E; reflexivity|].
  split; [rewrite Ew; reflexivity|].
  split; [rewrite Ew; reflexivity|].
  split.
  { rewrite Ew. simpl requests. subst failing kept. apply last_app_map. }
  split; [rewrite Ew; reflexivity|].
  split; [rewrite Ew; reflexivity|].
  split; [rewrite Ew; reflexivity|].
  split.
  - intros Hf Hfr Hcp.
    destruct (process_pages_checkpoints (map snd pages) w Hf Hfr Hcp Hok)
      as [added [Ea Em]].
    exists added. split; [|exact Em]. rewrite Ew. exact Ea.
  - destruct (update_first_request cfg w' Hs) as [later El].
    exists later. rewrite El. subst failing. rewrite Ew at 2. reflexivity.
Qed.

Lemma fetch_failure_aborts_cycle_witness :
  let w := Samples.on_feed Samples.one_page_then_failure in
  let w' := snd (CTAManager.update CTAManager.default_config w) in
  fst (CTAManager.update CTAManager.default_config w) = Ret tt
  /\ lastCursor w' = JStr "cur1"
  /\ feed w' = []
  /\ List.length (Spec.history w') = 1%nat.
Proof.
  intros w w'.
  destruct (fetch_failure_aborts_cycle CTAManager.default_config w
              [(JStr "cur1", Samples.page1)] [])
    as [H1 [H2 [_ [_ [H5 [H6 _]]]]]].
  - reflexivity.
  - reflexivity.
  - constructor; [split; [discriminate|reflexivity]|constructor].
  - vm_compute. reflexivity.
  - split; [exact H1|]. split; [exact H2|]. split; [exact H5|].
    unfold Spec.history. subst w'. rewrite H6. vm_compute. reflexivity.
Defined.

(** C2: the loop compares the ceiling with the length of the page just
    fetched, not with a running total.  A cycle processes every page
    of a feed whose pages are each non-empty and shorter than the
    ceiling, however many they are, until the feed has nothing more or
    a fetch fails: it sends one request per page and one more, and on
    a store that rejects nothing it leaves one checkpoint per page. *)
Theorem cycle_exceeds_record_ceiling (cfg : CTAManager.config) (w : world)
        (pages : list (jsval * list asset)) (stop : list response) :
  CTAManager.ASSETS_SOURCE cfg = "imx" ->
  Spec.stops stop ->
  feed w = (map Some pages ++ stop)%list ->
  Forall (fun p => snd p <> []
                   /\ Z.of_nat (List.length (snd p))
                      < CTAManager.MAX_ASSETS_PER_UPDATE cfg) pages ->
  fst (Spec.process_pages (map snd pages) w) = Ret tt ->
  let w' := snd (CTAManager.update cfg w) in
  let done := snd (Spec.process_pages (map snd pages) w) in
  fst (CTAManager.update cfg w) = Ret tt
  /\ db w' = db done
  /\ sent w' = sent done
  /\ List.length (requests w')
     = (List.length (requests w) + S (List.length pages))%nat
  /\ (Spec.no_faults w -> Spec.history_fresh w ->
      Forall Spec.checkpointable (map snd pages) ->
      exists added,
        Spec.history w' = (Spec.history w ++ added)%list
        /\ map (get "assets_count") added
           = map (fun p => JNum (Z.of_nat (List.length (snd p)))) pages).
Proof.
  intros Hs Hstop Hfeed Hall Hok w' done.
  pose proof (update_over_pages cfg w pages stop Hs Hstop Hfeed Hall Hok) as E.
  subst w'. rewrite E. cbn [fst snd].
  split; [reflexivity|]. split; [reflexivity|]. split; [reflexivity|]. split.
  - unfold Spec.upstream. simpl. rewrite length_app. simpl.
    rewrite !length_map. reflexivity.
  - intros Hf Hfr Hcp.
    destruct (process_pages_checkpoints (map snd pages) w Hf Hfr Hcp Hok)
      as [added [Ea Em]].
    exists added. split; [exact Ea|].
    apply (f_equal (map snd)) in Em. rewrite !map_map in Em. exact Em.
Qed.

(** Ceiling of two records, three pages of one record each: the three
    pages are written in one cycle. *)
Lemma cycle_exceeds_record_ceiling_witness :
  let w := Samples.on_feed Samples.three_pages in
  let w' := snd (CTAManager.update Samples.small_budget w) in
  CTAManager.MAX_ASSETS_PER_UPDATE Samples.small_budget = 2
  /\ fst (CTAManager.update Samples.small_budget w) = Ret tt
  /\ map (get "assets_count") (rows (update_history (db w')))
     = [JNum 1; JNum 1; JNum 1]
  /\ map (get "id") (rows (card (db w'))) = [JNum 1; JNum 2; JNum 3]
  /\ List.length (requests w') = 4%nat.
Proof.
  intros w w'.
  destruct (cycle_exceeds_record_ceiling Samples.small_budget w
              [(JStr "cur1", Samples.page1); (JStr "cur2", Samples.page2);
               (JStr "cur3", Samples.page3)] [])
    as [H1 [H2 [_ [H4 _]]]].
  - reflexivity.
  - left. reflexivity.
  - reflexivity.
  - repeat (constructor; [split; [discriminate|reflexivity]|]). constructor.
  - vm_compute. reflexivity.
  - split; [reflexivity|]. split; [exact H1|].
    subst w'. rewrite H2, H4. vm_compute. repeat split; reflexivity.
Defined.

(* ================================================================== *)
(** ** Order of the checkpoints of a run                               *)
(* ================================================================== *)





Lemma subseq_map {A B} (f : A -> B) (a b : list A) :
  Spec.subseq a b -> Spec.subseq (map f a) (map f b).
Proof. intros H. induction H; simpl; constructor; assumption. Qed.









Lemma update_loop_step (cfg : CTAManager.config) (fuel : nat)
      (assets : list asset) (n : Z) (w : world) :
  CTAManager.update_loop (S fuel) cfg assets n w
  = if (0 <? Z.of_nat (List.length assets))
       && (n <? CTAManager.MAX_ASSETS_PER_UPDATE cfg)
    then match CTAManager.process_page assets w with
         | (Throw e, w1) => (Throw e, w1)
         | (Ret _, w1) =>
             match CTAManager.try_next cfg w1 with
             | (Ret (Some assets'), w2) =>
                 CTAManager.update_loop fuel cfg assets'
                                        (Z.of_nat (List.length assets')) w2
             | (Ret None, w2) => (Ret tt, w2)
             | (Throw e, w2) => (Throw e, w2)
             end
         end
    else (Ret tt, w).
Proof.
  cbn [CTAManager.update_loop].
  destruct ((0 <? Z.of_nat (List.length assets))
            && (n <? CTAManager.MAX_ASSETS_PER_UPDATE cfg)); [|reflexivity].
  unfold bind.
  destruct (CTAManager.process_page assets w) as [[[]|e] w1]; [|reflexivity].
  destruct (CTAManager.try_next cfg w1) as [[[a|]|e] w2]; reflexivity.
Qed.






(* ================================================================== *)
(** ** Owners of passes                                                *)
(* ================================================================== *)







(** *** Reading the maps back *)

Lemma map_get_set_other {V} (k k' : jsval) (v : V) (m : list (jsval * V)) :
  same_value k k' = false -> map_get k (map_set k' v m) = map_get k m.
Proof.
  intros Hk. induction m as [|[k1 v1] m IH]; simpl.
  - rewrite Hk. reflexivity.
  - destruct (same_value k' k1) eqn:E1; simpl.
    + apply same_value_eq in E1. subst k1. rewrite Hk. reflexivity.
    + rewrite IH. reflexivity.
Qed.

Lemma map_of_pairs_absent {V} (k : jsval) (ps : list (jsval * V)) :
  ~ In k (map fst ps) -> map_get k (map_of_pairs ps) = None.
Proof.
  unfold map_of_pairs.
  assert (G : forall m, map_get k m = None -> ~ In k (map fst ps) ->
                        map_get k (fold_left (fun m p => map_set (fst p) (snd p) m)
                                             ps m) = None).
  { induction ps as [|[k1 v1] ps IH]; simpl; intros m Hm Hn; [assumption|].
    apply IH; [|tauto].
    rewrite map_get_set_other; [assumption|].
    destruct (same_value k k1) eqn:E; [|reflexivity].
    apply same_value_eq in E. subst. tauto. }
  intros Hn. apply G; [reflexivity|assumption].
Qed.

Lemma get_set_same (k : string) (v : jsval) (o : jsobj) :
  get k (set k v o) = v.
Proof.
  induction o as [|[k' v'] o IH]; simpl.
  - rewrite String.eqb_refl. reflexivity.
  - destruct (String.eqb k k') eqn:E; simpl; [rewrite String.eqb_refl|rewrite E];
      [reflexivity|assumption].
Qed.





Lemma get_set_other (k k' : string) (v : jsval) (o : jsobj) :
  String.eqb k k' = false -> get k (set k' v o) = get k o.
Proof.
  intros Hk. induction o as [|[k1 v1] o IH]; simpl.
  - rewrite Hk. reflexivity.
  - destruct (String.eqb k' k1) eqn:E1; simpl.
    + apply String.eqb_eq in E1. subst k1. rewrite Hk. reflexivity.
    + rewrite IH. reflexivity.
Qed.


(** A page with a card of 0xA and a pass of 0xB, on an empty store:
    0xA alone becomes a user, the card points to it and the pass
    points to nobody. *)
Lemma pass_of_cardless_owner :
  let w' := snd (CTAManager.process_page Samples.card_and_pass Samples.fresh) in
  map (get "address") (rows (cta_user (db w'))) = [JStr "0xA"]
  /\ map (fun r => (get "id" r, get "user_id" r)) (rows (card (db w')))
     = [(JNum 1, JNum 1)]
  /\ map (fun r => (get "id" r, get "user_id" r)) (rows (mint_pass (db w')))
     = [(JNum 7, JNull)].
Proof. vm_compute. repeat split. Qed.



(* ================================================================== *)
(** ** The loop of the model has fuel enough                           *)
(* ================================================================== *)

Lemma bounded_ret {A} (a : A) : Spec.bounded (ret a).
Proof. intros w. simpl. split; [discriminate|split; reflexivity]. Qed.

Lemma bounded_lift {A} (o : outcome A) :
  o <> Throw OutOfFuel -> Spec.bounded (lift o).
Proof. intros H w. simpl. split; [assumption|split; reflexivity]. Qed.

Lemma bounded_now : Spec.bounded now.
Proof. intros w. simpl. split; [discriminate|split; reflexivity]. Qed.

Lemma bounded_bind {A B} (m : M A) (k : A -> M B) :
  Spec.bounded m -> (forall a, Spec.bounded (k a)) -> Spec.bounded (bind m k).
Proof.
  intros Hm Hk w. unfold bind. destruct (Hm w) as [H1 [H2 H3]].
  destruct (m w) as [[a|e] w1]; simpl in *.
  - destruct (Hk a w1) as [K1 [K2 K3]]. split; [|split]; congruence.
  - split; [|split; assumption].
    intros E. apply H1. inversion E. reflexivity.
Qed.

Lemma bounded_try_catch {A} (m : M A) (h : error -> M A) :
  Spec.bounded m -> (forall e, Spec.bounded (h e)) ->
  Spec.bounded (try_catch m h).
Proof.
  intros Hm Hh w. unfold try_catch. destruct (Hm w) as [H1 [H2 H3]].
  destruct (m w) as [[a|e] w1]; simpl in *.
  - split; [|split]; assumption.
  - destruct (Hh e w1) as [K1 [K2 K3]]. split; [|split]; congruence.
Qed.

Lemma bounded_pool_query (s : statement) : Spec.bounded (pool_query s).
Proof.
  intros w.
  destruct (pool_query_cases s w) as [[H1 H2] | [out [d [_ [_ H]]]]].
  - rewrite H1, H2. split; [discriminate|split; reflexivity].
  - rewrite H. split; [discriminate|split; reflexivity].
Qed.

Lemma bounded_recordUpdate (a b c : jsval) :
  Spec.bounded (Repository.recordUpdate a b c).
Proof.
  unfold Repository.recordUpdate, DatabaseService.insert.
  apply bounded_bind; [|intros; apply bounded_ret].
  apply bounded_bind.
  { apply bounded_lift. intros E. apply map_values_error in E. discriminate. }
  intros newRows. apply bounded_bind; [|intros; apply bounded_ret].
  apply bounded_try_catch; [apply bounded_pool_query|].
  intros e. apply bounded_ret.
Qed.

(** Classifying a page fails with a TypeError or not at all. *)
Lemma collect_all_error (l : list asset) :
  forall c e, CTAManager.collect_all l c = Throw e -> e = TypeError.
Proof.
  assert (Hi : forall a s e, CTAManager.image_filename a = s -> s = Throw e ->
                             e = TypeError).
  { intros a s e Hs He. subst s. unfold CTAManager.image_filename in He.
    destruct (get "image" (metadata a)); congruence. }
  assert (Hp : forall a c e, CTAManager.collect_mint_pass a c = Throw e ->
                             e = TypeError).
  { intros a c e. unfold CTAManager.collect_mint_pass, CTAManager.getMintPassType.
    destruct (CTAManager.image_filename a) eqn:E; [discriminate|].
    intros H. inversion H; subst. eapply Hi; [exact E|reflexivity]. }
  assert (Hc : forall a c e, CTAManager.collect_card a c = Throw e ->
                             e = TypeError).
  { intros a c e. unfold CTAManager.collect_card, CTAManager.getMetaCardId.
    destruct (CTAManager.image_filename a) eqn:E; [discriminate|].
    intros H. inversion H; subst. eapply Hi; [exact E|reflexivity]. }
  induction l as [|a l IH]; simpl; intros c e H; [discriminate|].
  destruct (CTAManager.collect_one a c) as [c1|e1] eqn:E1; [eapply IH; eassumption|].
  inversion H; subst e1. clear H. unfold CTAManager.collect_one in E1.
  destruct (same_value (CTAManager.tokenType a) (JStr "MINT_PASS")).
  - destruct (CTAManager.collect_mint_pass a c) as [c1|e1] eqn:E2.
    + destruct (same_value (CTAManager.tokenType a) (JStr "CARD"));
        [eapply Hc; eassumption|discriminate].
    + inversion E1; subst. eapply Hp; eassumption.
  - destruct (same_value (CTAManager.tokenType a) (JStr "CARD"));
      [eapply Hc; eassumption|discriminate].
Qed.

Lemma bounded_process_page (assets : list asset) :
  Spec.bounded (CTAManager.process_page assets).
Proof.
  unfold CTAManager.process_page.
  apply bounded_bind; [apply bounded_now|]. intros updateTs.
  apply bounded_bind.
  { apply bounded_lift. unfold CTAManager.collect. intros E.
    apply collect_all_error in E. discriminate. }
  intros c. apply bounded_bind.
  { apply (closed_repository_update (fun A m => Spec.bounded m)).
    - intros; apply bounded_ret.
    - intros; apply bounded_lift; assumption.
    - intros; apply bounded_bind; assumption.
    - intros; apply bounded_try_catch; assumption.
    - intros; apply bounded_pool_query. }
  intros _. apply bounded_bind.
  { apply (closed_repository_burn (fun A m => Spec.bounded m)).
    - intros; apply bounded_ret.
    - intros; apply bounded_bind; assumption.
    - intros; apply bounded_pool_query. }
  intros _. destruct assets as [|first r]; [apply bounded_ret|].
  apply bounded_recordUpdate.
Qed.

(** The next fetch never raises; when it hands over a non-empty page
    it has used up an answer of the feed or the one read of the file. *)
Lemma try_next_uses_source (cfg : CTAManager.config) (w : world) :
  exists next w2,
    CTAManager.try_next cfg w = (Ret next, w2)
    /\ forall assets', next = Some assets' ->
         assets' = []
         \/ (String.eqb (CTAManager.ASSETS_SOURCE cfg) "imx" = true
             /\ (List.length (feed w2) < List.length (feed w))%nat)
         \/ (String.eqb (CTAManager.ASSETS_SOURCE cfg) "imx" = false
             /\ assetsFileAlreadyRead w = false
             /\ assetsFileAlreadyRead w2 = true).
Proof.
  unfold CTAManager.try_next, CTAManager.getNextAssets, try_catch, bind, ret.
  destruct (String.eqb (CTAManager.ASSETS_SOURCE cfg) "imx") eqn:Src.
  - unfold CTAManager._getNewAssetsPage, bind, listAssets.
    destruct (feed w) as [|[[c a]|] f] eqn:F; simpl.
    + eexists _, _. split; [reflexivity|]. intros a' H. inversion H. auto.
    + eexists _, _. split; [reflexivity|]. intros a' H.
      right. left. split; [reflexivity|]. simpl. lia.
    + eexists _, _. split; [reflexivity|]. discriminate.
  - destruct (assetsFileAlreadyRead w) eqn:Fl.
    + eexists _, _. split; [reflexivity|]. intros a' H. inversion H. auto.
    + unfold read_assets_file. simpl. destruct (assets_file w) as [l|].
      * eexists _, _. split; [reflexivity|]. intros a' H.
        right. right. auto.
      * eexists _, _. split; [reflexivity|]. discriminate.
Qed.

Lemma update_loop_fuel (cfg : CTAManager.config) (fuel : nat) :
  forall assets n w,
    Spec.enough cfg fuel assets w ->
    fst (CTAManager.update_loop fuel cfg assets n w) <> Throw OutOfFuel.
Proof.
  induction fuel as [|fuel IH]; intros assets n w He.
  - assert (Ea : assets = []).
    { destruct He as [H|[[_ H]|[_ [_ H]]]]; [assumption|lia|lia]. }
    subst assets. simpl. discriminate.
  - rewrite update_loop_step.
    destruct ((0 <? Z.of_nat (List.length assets))
              && (n <? CTAManager.MAX_ASSETS_PER_UPDATE cfg)) eqn:C;
      [|simpl; discriminate].
    assert (Hne : assets <> []).
    { intros E. subst assets. simpl in C. discriminate. }
    destruct (bounded_process_page assets w) as [P1 [P2 P3]].
    destruct (CTAManager.process_page assets w) as [[[]|e] w1]; simpl in *;
      [|assumption].
    destruct (try_next_uses_source cfg w1) as [next [w2 [E Hn]]].
    rewrite E. destruct next as [assets'|]; [|simpl; discriminate].
    apply IH. destruct (Hn assets' eq_refl) as [H|[[S L]|[S [F1 F2]]]].
    + left. assumption.
    + right. left. split; [assumption|].
      rewrite P2 in L.
      destruct He as [H|[[_ H]|[S' _]]]; [contradiction|lia|congruence].
    + destruct He as [H|[[S' _]|[_ [F _]]]]; [contradiction|congruence|congruence].
Qed.

(** A cycle never ends on the bound of the model's loop: the fuel
    [update] gives it is enough for every feed and every store. *)
Lemma update_fuel_suffices (cfg : CTAManager.config) (w : world) :
  fst (CTAManager.update cfg w) <> Throw OutOfFuel.
Proof.
  unfold CTAManager.update. unfold bind at 1.
  destruct (try_next_uses_source cfg w) as [next [w2 [E Hn]]].
  rewrite E. destruct next as [assets|]; [|simpl; discriminate].
  apply update_loop_fuel.
  destruct (Hn assets eq_refl) as [H|[[S L]|[S [F1 F2]]]].
  - left. assumption.
  - right. left. split; [assumption|lia].
  - right. right. split; [assumption|]. split; [assumption|lia].
Qed.

(* ================================================================== *)
(** * Further properties of the store access layer                     *)
(* ================================================================== *)

(** ** [insert] only appends *)

Lemma insert_tuples_appends (cols : list column) (fields : list string)
      (pk : string) (tuples : list lit) :
  forall stored sq returned stored' sq' returned',
    insert_tuples cols fields pk tuples stored sq returned
    = Some (stored', sq', returned') ->
    exists added,
      stored' = (stored ++ added)%list
      /\ returned' = (returned ++ map (fun r => [(pk, get pk r)]) added)%list.
Proof.
  induction tuples as [|x xs IH]; simpl; intros stored sq returned stored' sq' returned' H.
  - inversion H; subst. exists []. rewrite !app_nil_r. auto.
  - destruct (tuple_values x) as [vals|]; [|discriminate].
    destruct (fields_ok cols fields vals); [|discriminate].
    destruct (make_row cols (combine fields vals) sq) as [[r sq1]|]; [|discriminate].
    destruct (conflicts cols stored r).
    + eapply IH; eassumption.
    + destruct (IH _ _ _ _ _ _ H) as [added [E1 E2]].
      exists (r :: added). rewrite E1, E2, <- !app_assoc. auto.
Qed.

Lemma exec_insert_appends (t : table_name) (f : fieldNames) (newRows : list lit)
      (pk : string) (d : database) (out : list jsobj) (d' : database) :
  exec (Insert t f newRows pk) d = Some (out, d') ->
  exists added,
    rows (get_table t d') = (rows (get_table t d) ++ added)%list
    /\ map (get pk) out = map (get pk) added
    /\ forall t', t <> t' -> get_table t' d' = get_table t' d.
Proof.
  simpl. unfold exec_insert.
  destruct newRows as [|x xs]; [discriminate|].
  destruct (find_column pk (schema t)); [|discriminate].
  destruct (insert_tuples _ _ _ _ _ _ _) as [[[stored sq] returned]|] eqn:I;
    [|discriminate].
  intros H. inversion H; subst. clear H.
  destruct (insert_tuples_appends _ _ _ _ _ _ _ _ _ _ I) as [added [E1 E2]].
  exists added. rewrite get_set_table_same. simpl rows.
  split; [assumption|]. split.
  - rewrite E2. simpl. rewrite map_map. apply map_ext. intros r. simpl.
    rewrite String.eqb_refl. reflexivity.
  - intros t' Ht. apply get_set_table_other. assumption.
Qed.

(** [insert] leaves every stored row as it is and in place: whatever
    the values and whatever the pool answers, the table ends as the
    rows it had followed by the rows added, no other table changes,
    and the keys [insert] returns are those of the added rows, in
    order. *)
Theorem insert_appends_and_returns_keys (t : table_name) (f : fieldNames)
        (pk : string) (values : list DatabaseService.item) (w : world) :
  let out := DatabaseService.insert t f pk values w in
  exists added,
    rows (get_table t (db (snd out))) = (rows (get_table t (db w)) ++ added)%list
    /\ (forall t', t <> t' -> get_table t' (db (snd out)) = get_table t' (db w))
    /\ (forall ks, fst out = Ret ks -> ks = map (get pk) added)
    /\ (fst out = Throw TypeError -> snd out = w).
Proof.
  unfold DatabaseService.insert, bind, lift.
  destruct (DatabaseService.map_values f values) as [xs|e] eqn:E.
  - destruct (query_cases (Insert t f xs pk) w) as [H | [res [d [_ [Ex H]]]]];
      rewrite H; simpl.
    + exists []. rewrite app_nil_r. split; [reflexivity|].
      split; [reflexivity|]. split; [|discriminate].
      intros ks Hk. inversion Hk. reflexivity.
    + destruct (exec_insert_appends _ _ _ _ _ _ _ Ex) as [added [E1 [E2 E3]]].
      exists added. split; [assumption|]. split; [assumption|].
      split; [|discriminate]. intros ks Hk. inversion Hk. assumption.
  - simpl. exists []. rewrite app_nil_r. split; [reflexivity|].
    split; [reflexivity|]. split; [discriminate|reflexivity].
Qed.

(** ** [update] rewrites rows in place *)





Lemma field_values_tuple (f : fieldNames) (v : jsobj) :
  tuple_values (DatabaseService.field_values f v)
  = Some (map (fun n => get n v) (field_list f)).
Proof.
  destruct f as [n|fs]; simpl; [reflexivity|].
  induction fs as [|a l IH]; simpl; [reflexivity|]. rewrite IH. reflexivity.
Qed.






(** ** [burn] only removes the rows it is asked to *)

Lemma lost_listed_refl (t : table_name) (ids : list jsval) (d : database) :
  Spec.lost_listed t ids d d.
Proof.
  exists (fun _ => true). rewrite filter_true.
  split; [reflexivity|]. split; [discriminate|reflexivity].
Qed.

Lemma coerce_ids_In (ids keys : list jsval) (x : jsval) :
  coerce_ids ids = Some keys -> In x keys ->
  exists k, In k ids /\ coerce TInt k = Some x.
Proof.
  revert keys. induction ids as [|v r IH]; simpl; intros keys H Hx.
  - inversion H; subst. contradiction.
  - destruct (coerce TInt v) as [v'|] eqn:Cv; [|discriminate].
    destruct (coerce_ids r) as [r'|]; [|discriminate].
    inversion H; subst. destruct Hx as [Hx|Hx].
    + subst. exists v. auto.
    + destruct (IH r' eq_refl Hx) as [k [Hk Ck]]. exists k. auto.
Qed.

Lemma exec_delete_lost_listed (t : table_name) (ids : list jsval)
      (d : database) (out : list jsobj) (d' : database) :
  exec (Delete t ids) d = Some (out, d') ->
  Spec.lost_listed t ids d d'
  /\ forall t', t <> t' -> get_table t' d' = get_table t' d.
Proof.
  simpl. unfold exec_delete. destruct ids as [|i r]; [discriminate|].
  destruct (coerce_ids (i :: r)) as [keys|] eqn:Ck; [|discriminate].
  intros H. inversion H; subst. clear H. split.
  - eexists. rewrite get_set_table_same. simpl rows. simpl seq.
    split; [reflexivity|]. split; [|reflexivity].
    intros x Hx Hk. apply negb_false_iff in Hk. apply includes_In in Hk.
    apply filter_In in Hk. destruct Hk as [Hk _].
    eapply coerce_ids_In; eassumption.
  - intros t' Ht. apply get_set_table_other. assumption.
Qed.

(** [Repository.burn] never adds or rewrites a row: whatever the pool
    answers, MINT_PASS and CARD keep their rows in order, less rows
    whose id is among the ids to burn, and no other table changes.
    When the deletion of the passes is rejected the burn raises and
    the cards are not deleted either. *)
Theorem burn_only_removes_listed (passIds cardIds : list jsval) (w : world) :
  let out := Repository.burn passIds cardIds w in
  Spec.lost_listed MINT_PASS passIds (db w) (db (snd out))
  /\ Spec.lost_listed CARD cardIds (db w) (db (snd out))
  /\ (forall t, t <> MINT_PASS -> t <> CARD ->
                get_table t (db (snd out)) = get_table t (db w))
  /\ (passIds <> [] -> hd false (faults w) = true ->
      fst out = Throw StoreError /\ db (snd out) = db w
      /\ sent (snd out) = (sent w ++ [sql_text (Delete MINT_PASS passIds)])%list).
Proof.
  cbv zeta.
  assert (D : forall t ids w0,
             let o := DatabaseService.delete t ids w0 in
             (db (snd o) = db w0
              \/ exists out, exec (Delete t ids) (db w0) = Some (out, db (snd o)))
             /\ (hd false (faults w0) = true ->
                 fst o = Throw StoreError /\ db (snd o) = db w0
                 /\ sent (snd o) = (sent w0 ++ [sql_text (Delete t ids)])%list)).
  { intros t ids w0. unfold DatabaseService.delete, bind. cbv zeta.
    destruct (pool_query_cases (Delete t ids) w0)
      as [[H1 H2] | [out [d [Hf [He Hq]]]]].
    - destruct (pool_query (Delete t ids) w0) as [o w1]. simpl in H1, H2.
      subst o w1. simpl. split; [left; reflexivity|auto].
    - rewrite Hq. simpl. split; [right; eauto|]. congruence. }
  assert (P : forall ids w0,
             let o := Repository.burnPasses ids w0 in
             (db (snd o) = db w0
              \/ exists out, exec (Delete MINT_PASS ids) (db w0)
                             = Some (out, db (snd o)))
             /\ (ids <> [] -> hd false (faults w0) = true ->
                 fst o = Throw StoreError /\ db (snd o) = db w0
                 /\ sent (snd o)
                    = (sent w0 ++ [sql_text (Delete MINT_PASS ids)])%list)).
  { intros [|i r] w0; [split; [left; reflexivity|congruence]|].
    destruct (D MINT_PASS (i :: r) w0) as [D1 D2]. split; [exact D1|].
    intros _. exact D2. }
  assert (C : forall ids w0,
             let o := Repository.burnCards ids w0 in
             db (snd o) = db w0
             \/ exists out, exec (Delete CARD ids) (db w0) = Some (out, db (snd o))).
  { intros [|i r] w0; [left; reflexivity|]. apply (D CARD (i :: r) w0). }
  unfold Repository.burn, bind.
  destruct (P passIds w) as [P1 P2].
  destruct (Repository.burnPasses passIds w) as [[[]|e] w1]; cbn [fst snd] in *.
  - specialize (C cardIds w1).
    destruct (Repository.burnCards cardIds w1) as [o2 w2]; cbn [fst snd] in *.
    assert (A : Spec.lost_listed MINT_PASS passIds (db w) (db w1)
                /\ forall t', MINT_PASS <> t' -> get_table t' (db w1) = get_table t' (db w)).
    { destruct P1 as [E|[out E]].
      - rewrite E. split; [apply lost_listed_refl|reflexivity].
      - apply exec_delete_lost_listed in E. exact E. }
    assert (B : Spec.lost_listed CARD cardIds (db w1) (db w2)
                /\ forall t', CARD <> t' -> get_table t' (db w2) = get_table t' (db w1)).
    { destruct C as [E|[out E]].
      - rewrite E. split; [apply lost_listed_refl|reflexivity].
      - apply exec_delete_lost_listed in E. exact E. }
    destruct A as [A1 A2]. destruct B as [B1 B2].
    split; [|split; [|split]].
    + unfold Spec.lost_listed in *. rewrite (B2 MINT_PASS) by discriminate.
      exact A1.
    + unfold Spec.lost_listed in *. rewrite <- (A2 CARD) by discriminate. exact B1.
    + intros t H1 H2. rewrite B2 by congruence. apply A2. congruence.
    + intros Hne Hf. destruct (P2 Hne Hf) as [X _]. discriminate.
  - assert (A : Spec.lost_listed MINT_PASS passIds (db w) (db w1)
                /\ forall t', MINT_PASS <> t' -> get_table t' (db w1) = get_table t' (db w)).
    { destruct P1 as [E|[out E]].
      - rewrite E. split; [apply lost_listed_refl|reflexivity].
      - apply exec_delete_lost_listed in E. exact E. }
    destruct A as [A1 A2].
    split; [exact A1|]. split; [|split].
    + unfold Spec.lost_listed. rewrite (A2 CARD) by discriminate.
      apply lost_listed_refl.
    + intros t H1 H2. apply A2. congruence.
    + exact P2.
Qed.

(** ** [upsert] when the bulk INSERT is rejected *)

(** When the pool rejects the INSERT of [upsert] and accepts what
    follows, [upsert] returns normally, rewrites the stored rows that
    have the key of a candidate, and leaves out every candidate whose
    key is new: the table has the keys it had. *)
Theorem upsert_drops_new_rows_when_insert_rejected (t : table_name)
        (values : list jsobj) (w : world) (fs : list bool) :
  Spec.keyed t = true ->
  faults w = true :: fs ->
  Forall (fun b => b = false) fs ->
  Forall (fun v => Spec.stored_form t v <> None) values ->
  NoDup (map (get "id") (map (Spec.row_of t) values)) ->
  Spec.table_ok t (get_table t (db w)) ->
  let out := DatabaseService.upsert t (Spec.all_fields t) "id" values true w in
  let before := rows (get_table t (db w)) in
  let after := rows (get_table t (db (snd out))) in
  let batch := map (Spec.row_of t) values in
  fst out = Ret tt
  /\ after = map (Spec.replaced_by "id" batch) before
  /\ map (get "id") after = map (get "id") before
  /\ (forall v, In v values -> Spec.is_fresh "id" before (Spec.row_of t v) = true ->
                ~ In (Spec.row_of t v) after).
Proof.
  intros Hk Hfault Hfs Hall ND Hok out before after batch.
  destruct (keyed_schema t Hk) as [rest [Hs [Hp Hn]]].
  set (w1 := with_pool fs
               (sent w ++ [sql_text (Insert t (FList (Spec.all_fields t))
                                      (map (DatabaseService.field_values
                                              (FList (Spec.all_fields t))) values)
                                      "id")])%list w).
  assert (E1 : DatabaseService.insert t (FList (Spec.all_fields t)) "id"
                 (map DatabaseService.Obj values) w = (Ret [], w1)).
  { unfold DatabaseService.insert. unfold bind at 1. unfold lift.
    rewrite map_values_objects. unfold bind at 1.
    unfold DatabaseService.query, try_catch, pool_query. rewrite Hfault.
    reflexivity. }
  assert (Hf1 : Spec.no_faults w1) by exact Hfs.
  destruct (keyed_update_loop t rest Hs Hp Hn values w1 Hall Hok Hf1)
    as [w2 [E2 [T2 _]]].
  assert (Eo : out = (Ret tt, w2)).
  { subst out. unfold DatabaseService.upsert. unfold bind at 1. rewrite E1.
    cbv iota beta zeta. destruct values as [|v vs]; [|exact E2].
    simpl in E2. unfold ret in *. exact E2. }
  assert (Ea : after = map (Spec.replaced_by "id" batch) before).
  { subst after. rewrite Eo. cbn [snd]. rewrite T2. simpl rows.
    apply fold_replace_rows. exact ND. }
  assert (Ek : map (get "id") after = map (get "id") before).
  { rewrite Ea, map_map. apply map_ext. intros r. apply replaced_by_key. }
  split; [rewrite Eo; reflexivity|]. split; [exact Ea|]. split; [exact Ek|].
  intros v Hv Hfr Hin.
  apply is_fresh_iff in Hfr. apply Hfr. rewrite <- Ek.
  apply in_map. exact Hin.
Qed.

Lemma upsert_drops_new_rows_when_insert_rejected_witness :
  let w := Samples.failing (Samples.on_db Samples.three_cards) in
  map (fun r => (get "id" r, get "grade" r))
      (rows (card (db (snd (DatabaseService.upsert CARD (Spec.all_fields CARD) "id"
                              Samples.mixed_batch true w)))))
  = [(JNum 1, JStr "A"); (JNum 2, JStr "S"); (JNum 3, JStr "C")].
Proof.
  intros w.
  destruct (upsert_drops_new_rows_when_insert_rejected CARD Samples.mixed_batch w [])
    as [_ [H _]].
  - reflexivity.
  - reflexivity.
  - constructor.
  - repeat constructor; discriminate.
  - apply distinct_NoDup. reflexivity.
  - unfold Spec.table_ok. split; [|split].
    + repeat constructor.
    + repeat constructor.
    + apply distinct_NoDup. reflexivity.
  - change (rows (card ?d)) with (rows (get_table CARD d)). rewrite H.
    reflexivity.
Defined.

(* ================================================================== *)
(** * Further properties of the synchronisation path                   *)
(* ================================================================== *)

(** ** What makes a page raise *)

Lemma returns_ret {A} (a : A) : Spec.returns (ret a).
Proof. intros w. exists a. reflexivity. Qed.

Lemma returns_bind {A B} (m : M A) (k : A -> M B) :
  Spec.returns m -> (forall a, Spec.returns (k a)) -> Spec.returns (bind m k).
Proof.
  intros Hm Hk w. unfold bind. destruct (Hm w) as [a Ha].
  destruct (m w) as [o w1]. simpl in Ha. subst o. apply Hk.
Qed.

Lemma returns_query (s : statement) : Spec.returns (DatabaseService.query s).
Proof. intros w. apply query_returns. Qed.





Lemma map_values_null (f : string) (vs : list jsval) :
  In JNull vs ->
  DatabaseService.map_values (FName f) (map DatabaseService.Prim vs)
  = Throw TypeError.
Proof.
  induction vs as [|v l IH]; simpl; intros H; [contradiction|].
  destruct H as [H|H].
  - subst v. reflexivity.
  - rewrite (IH H). destruct v; reflexivity.
Qed.

Lemma returns_get_enum_table (t : table_name) (f : string) :
  Spec.returns (Repository._get_enum_table t f).
Proof.
  unfold Repository._get_enum_table.
  apply returns_bind; [apply returns_query|]. intros rs. apply returns_ret.
Qed.





(** *** The sets of a classification *)

Lemma set_add_keeps (x v : jsval) (s : list jsval) :
  In x s -> In x (set_add v s).
Proof.
  unfold set_add. destruct (includes s v); [auto|].
  intros H. apply in_or_app. auto.
Qed.

Lemma set_add_has (v : jsval) (s : list jsval) : In v (set_add v s).
Proof.
  unfold set_add. destruct (includes s v) eqn:E.
  - apply includes_In. exact E.
  - apply in_or_app. right. left. reflexivity.
Qed.









(** *** A [null] among the dimension values *)

Lemma collect_one_elements (a : asset) (c c' : CTAManager.collected) :
  CTAManager.collect_one a c = Ret c' ->
  (forall x, In x (CTAManager.elements c) -> In x (CTAManager.elements c'))
  /\ (CTAManager.tokenType a = JStr "CARD" ->
      In (get "element" (metadata a)) (CTAManager.elements c')).
Proof.
  unfold CTAManager.collect_one.
  destruct (same_value (CTAManager.tokenType a) (JStr "MINT_PASS")) eqn:Em.
  - apply same_value_eq in Em. rewrite Em. simpl.
    unfold CTAManager.collect_mint_pass.
    destruct (CTAManager.getMintPassType a); [|discriminate].
    intros H. inversion H; subst. simpl. split; [auto|discriminate].
  - destruct (same_value (CTAManager.tokenType a) (JStr "CARD")) eqn:Ec.
    + unfold CTAManager.collect_card.
      destruct (CTAManager.getMetaCardId a); [|discriminate].
      intros H. inversion H; subst. simpl. split.
      * intros x Hx. apply set_add_keeps. assumption.
      * intros _. apply set_add_has.
    + intros H. inversion H; subst. split; [auto|].
      intros E. rewrite E in Ec. discriminate.
Qed.

Lemma collect_all_elements (l : list asset) :
  forall c c',
    CTAManager.collect_all l c = Ret c' ->
    (forall x, In x (CTAManager.elements c) -> In x (CTAManager.elements c'))
    /\ (forall a, In a l -> CTAManager.tokenType a = JStr "CARD" ->
                  In (get "element" (metadata a)) (CTAManager.elements c')).
Proof.
  induction l as [|a l IH]; simpl; intros c c' H.
  - inversion H; subst. split; [auto|contradiction].
  - destruct (CTAManager.collect_one a c) as [c1|e] eqn:E1; [|discriminate].
    destruct (collect_one_elements _ _ _ E1) as [K1 A1].
    destruct (IH _ _ H) as [K2 A2]. split; [auto|].
    intros b [Hb|Hb] Tb; [subst b; auto|eauto].
Qed.

(** The map [_get_enum_table] returns has no key that no row holds. *)
Lemma enum_read_absent (t : table_name) (f : string) (w : world) (k : jsval) :
  ~ In k (map (get f) (rows (get_table t (db w)))) ->
  forall m, fst (Repository._get_enum_table t f w) = Ret m -> map_has k m = false.
Proof.
  intros Hk m. unfold Repository._get_enum_table, bind.
  destruct (query_cases (Select t ["id"; f]) w) as [H | [out [d [_ [E H]]]]];
    rewrite H; unfold ret; simpl; intros Hm; inversion Hm; subst m; clear Hm.
  - reflexivity.
  - unfold map_has. rewrite map_of_pairs_absent; [reflexivity|].
    simpl in E. unfold exec_select in E.
    destruct (forallb _ _); [|discriminate].
    inversion E; subst. rewrite !map_map. simpl.
    intros Hin. apply Hk. apply in_map_iff in Hin.
    destruct Hin as [r [Er Hr]]. apply in_map_iff. exists r. split; [|assumption].
    rewrite <- Er. destruct (String.eqb f "id") eqn:Ef.
    + apply String.eqb_eq in Ef. subst f. reflexivity.
    + rewrite String.eqb_refl. reflexivity.
Qed.

(** A live card whose element is [null] makes the page raise a
    TypeError before anything is written: [updateElements] hands the
    [null] to [insert], which reads a property of it.  The store is
    left as it was and no checkpoint is recorded. *)
Theorem null_element_makes_page_raise (page : list asset) (a : asset)
        (c : CTAManager.collected) (w : world) :
  CTAManager.collect page = Ret c ->
  In a page ->
  CTAManager.is_burned a = false ->
  CTAManager.tokenType a = JStr "CARD" ->
  get "element" (metadata a) = JNull ->
  ~ In JNull (map (get "name") (rows (element (db w)))) ->
  fst (CTAManager.process_page page w) = Throw TypeError
  /\ db (snd (CTAManager.process_page page w)) = db w.
Proof.
  intros Ec Ha Hb Ht He Hn.
  assert (Hin : In JNull (CTAManager.elements c)).
  { unfold CTAManager.collect in Ec.
    destruct (collect_all_elements _ _ _ Ec) as [_ A]. rewrite <- He.
    apply A; [|assumption]. apply filter_In. rewrite Hb. auto. }
  rewrite process_page_unfold. cbv zeta. rewrite Ec.
  set (w0 := with_ticks (S (ticks w)) w).
  assert (Eu : exists w1,
             Repository.updateElements (CTAManager.elements c) w0
             = (Throw TypeError, w1) /\ db w1 = db w).
  { unfold Repository.updateElements, Repository._insertNewValuesInEnumTable,
      Repository._read_elements.
    unfold bind at 1.
    pose proof (enum_read_keeps_db ELEMENT "name" w0) as Hdb.
    pose proof (enum_read_absent ELEMENT "name" w0 JNull Hn) as Habs.
    destruct (returns_get_enum_table ELEMENT "name" w0) as [m Hm].
    destruct (Repository._get_enum_table ELEMENT "name" w0) as [o w1].
    simpl in Hm, Hdb. subst o. specialize (Habs m eq_refl).
    set (newValues := filter _ (CTAManager.elements c)).
    assert (Hnew : In JNull newValues).
    { apply filter_In. rewrite Habs. auto. }
    destruct newValues as [|n ns] eqn:En; [contradiction|].
    rewrite <- En in *.
    unfold DatabaseService.insert, lift, bind.
    rewrite (map_values_null "name" newValues Hnew). exists w1. auto. }
  destruct Eu as [w1 [E1 E2]].
  assert (Er : Repository.update (CTAManager.batch_of c) w0 = (Throw TypeError, w1)).
  { unfold Repository.update. unfold bind at 1.
    change (Repository.arkomes (CTAManager.batch_of c))
      with (CTAManager.elements c).
    rewrite E1. reflexivity. }
  rewrite Er. simpl. auto.
Qed.

Lemma null_element_makes_page_raise_witness :
  let page := (Samples.page1 ++ [Samples.card_without_element])%list in
  fst (CTAManager.process_page page Samples.fresh) = Throw TypeError
  /\ db (snd (CTAManager.process_page page Samples.fresh)) = empty_database.
Proof.
  intros page.
  apply (null_element_makes_page_raise page Samples.card_without_element
           (match CTAManager.collect page with
            | Ret c => c
            | Throw _ => CTAManager.nothing_collected
            end) Samples.fresh).
  - reflexivity.
  - right. left. reflexivity.
  - reflexivity.
  - reflexivity.
  - reflexivity.
  - simpl. tauto.
Defined.

(** ** The classification of a page *)

Lemma map_has_In {V} (k : jsval) (m : list (jsval * V)) :
  map_has k m = true <-> In k (map fst m).
Proof.
  unfold map_has. induction m as [|[k' v] m IH]; simpl.
  - split; [discriminate|contradiction].
  - destruct (same_value k k') eqn:E.
    + apply same_value_eq in E. subst. split; auto.
    + rewrite IH. split; [auto|]. intros [H|H]; [|assumption].
      subst. rewrite same_value_refl in E. discriminate.
Qed.

Lemma map_set_absent {V} (k : jsval) (v : V) (m : list (jsval * V)) :
  map_has k m = false -> map_set k v m = (m ++ [(k, v)])%list.
Proof.
  unfold map_has. induction m as [|[k' v'] m IH]; simpl; [reflexivity|].
  destruct (same_value k k'); [discriminate|].
  intros H. rewrite IH by assumption. reflexivity.
Qed.

Lemma set_if_absent_keys {V} (k : jsval) (v : V) (m : list (jsval * V)) :
  NoDup (map fst m) ->
  NoDup (map fst (CTAManager.set_if_absent k v m))
  /\ In k (map fst (CTAManager.set_if_absent k v m))
  /\ (forall x, In x (map fst m) -> In x (map fst (CTAManager.set_if_absent k v m))).
Proof.
  intros ND. unfold CTAManager.set_if_absent.
  destruct (map_has k m) eqn:E.
  - split; [assumption|]. split; [apply map_has_In; assumption|auto].
  - rewrite map_set_absent by assumption. rewrite map_app. simpl.
    split; [|split].
    + apply NoDup_snoc; [assumption|]. intros H. apply map_has_In in H. congruence.
    + apply in_or_app. right. left. reflexivity.
    + intros x Hx. apply in_or_app. auto.
Qed.

Lemma set_add_NoDup (v : jsval) (s : list jsval) :
  NoDup s -> NoDup (set_add v s).
Proof.
  intros ND. unfold set_add. destruct (includes s v) eqn:E; [assumption|].
  apply NoDup_snoc; [assumption|]. intros H. apply includes_In in H. congruence.
Qed.

Lemma collect_one_keys (a : asset) (c c' : CTAManager.collected) :
  CTAManager.collect_one a c = Ret c' ->
  Spec.keys_distinct c ->
  Spec.keys_distinct c' /\ Spec.extends c c'
  /\ (CTAManager.tokenType a = JStr "CARD" ->
      In (token_id a) (map fst (CTAManager.cards c'))
      /\ In (user a) (CTAManager.users c'))
  /\ (CTAManager.tokenType a = JStr "MINT_PASS" ->
      In (token_id a) (map fst (CTAManager.mintPasses c'))).
Proof.
  unfold CTAManager.collect_one.
  intros H [D1 [D2 [D3 [D4 [D5 [D6 [D7 D8]]]]]]].
  destruct (same_value (CTAManager.tokenType a) (JStr "MINT_PASS")) eqn:Em.
  - apply same_value_eq in Em. rewrite Em in H. simpl in H.
    unfold CTAManager.collect_mint_pass in H.
    destruct (CTAManager.getMintPassType a) as [pt|]; [|discriminate].
    inversion H; subst c'. clear H.
    match goal with
    | |- context [CTAManager.set_if_absent (JStr pt) ?v (CTAManager.mintPassTypes c)] =>
        destruct (set_if_absent_keys (JStr pt) v _ D2) as [T1 _]
    end.
    match goal with
    | |- context [CTAManager.set_if_absent (token_id a) ?v (CTAManager.mintPasses c)] =>
        destruct (set_if_absent_keys (token_id a) v _ D8) as [P1 [P2 P3]]
    end.
    split; [repeat split; assumption|]. split.
    + unfold Spec.extends. simpl. repeat split; auto using incl_refl.
    + split; [rewrite Em; discriminate|]. intros _. exact P2.
  - destruct (same_value (CTAManager.tokenType a) (JStr "CARD")) eqn:Ec.
    + unfold CTAManager.collect_card in H.
      destruct (CTAManager.getMetaCardId a) as [mc|]; [|discriminate].
      inversion H; subst c'. clear H.
      match goal with
      | |- context [CTAManager.set_if_absent (JStr mc) ?v (CTAManager.metaCards c)] =>
          destruct (set_if_absent_keys (JStr mc) v _ D1) as [M1 _]
      end.
      match goal with
      | |- context [CTAManager.set_if_absent (token_id a) ?v (CTAManager.cards c)] =>
          destruct (set_if_absent_keys (token_id a) v _ D7) as [C1 [C2 C3]]
      end.
      split; [repeat split; simpl; try assumption; apply set_add_NoDup; assumption|].
      split.
      * unfold Spec.extends. simpl. repeat split; auto using incl_refl.
        intros x Hx. apply set_add_keeps. assumption.
      * split.
        -- intros _. simpl. split; [exact C2|apply set_add_has].
        -- intros E. rewrite E in Em. discriminate.
    + inversion H; subst c'. split; [repeat split; assumption|].
      split; [repeat split; apply incl_refl|].
      split; intros E; rewrite E in *; discriminate.
Qed.

Lemma collect_all_keys (l : list asset) :
  forall c c',
    CTAManager.collect_all l c = Ret c' ->
    Spec.keys_distinct c ->
    Spec.keys_distinct c' /\ Spec.extends c c'
    /\ (forall a, In a l -> CTAManager.tokenType a = JStr "CARD" ->
                  In (token_id a) (map fst (CTAManager.cards c'))
                  /\ In (user a) (CTAManager.users c'))
    /\ (forall a, In a l -> CTAManager.tokenType a = JStr "MINT_PASS" ->
                  In (token_id a) (map fst (CTAManager.mintPasses c'))).
Proof.
  induction l as [|a l IH]; simpl; intros c c' H D.
  - inversion H; subst. split; [assumption|].
    split; [repeat split; apply incl_refl|]. split; contradiction.
  - destruct (CTAManager.collect_one a c) as [c1|e] eqn:E1; [|discriminate].
    destruct (collect_one_keys _ _ _ E1 D) as [D1 [[X1 [X2 X3]] [A1 A2]]].
    destruct (IH _ _ H D1) as [D2 [[Y1 [Y2 Y3]] [B1 B2]]].
    split; [assumption|]. split.
    + repeat split; eapply incl_tran; eassumption.
    + split.
      * intros b [Hb|Hb] Tb; [subst b|auto].
        destruct (A1 Tb) as [K1 K2]. split; [apply Y1|apply Y3]; assumption.
      * intros b [Hb|Hb] Tb; [subst b|auto]. apply Y2. auto.
Qed.

(** The maps and sets a page is classified into hold each key once,
    and no live card or pass is left out: the token id of every live
    card is a key of the card candidates and its owner is among the
    user candidates, and the token id of every live pass is a key of
    the pass candidates. *)
Theorem classification_covers_live_records (assets : list asset)
        (c : CTAManager.collected) :
  CTAManager.collect assets = Ret c ->
  Spec.keys_distinct c
  /\ (forall a, In a (Spec.live "CARD" assets) ->
                In (token_id a) (map fst (CTAManager.cards c))
                /\ In (user a) (CTAManager.users c))
  /\ (forall a, In a (Spec.live "MINT_PASS" assets) ->
                In (token_id a) (map fst (CTAManager.mintPasses c))).
Proof.
  unfold CTAManager.collect. intros H.
  destruct (collect_all_keys _ _ _ H) as [D [_ [A B]]].
  { repeat split; constructor. }
  split; [exact D|]. unfold Spec.live. split.
  - intros a Ha. apply filter_In in Ha. destruct Ha as [Ha Hc].
    apply andb_prop in Hc. destruct Hc as [Hl Ht].
    apply same_value_eq in Ht. apply A; [|assumption].
    apply filter_In. auto.
  - intros a Ha. apply filter_In in Ha. destruct Ha as [Ha Hc].
    apply andb_prop in Hc. destruct Hc as [Hl Ht].
    apply same_value_eq in Ht. apply B; [|assumption].
    apply filter_In. auto.
Qed.

Lemma classification_covers_live_records_witness :
  exists c, CTAManager.collect Samples.card_and_pass = Ret c
            /\ map fst (CTAManager.cards c) = [JStr "1"]
            /\ map fst (CTAManager.mintPasses c) = [JStr "7"]
            /\ NoDup (CTAManager.users c).
Proof.
  eexists. split; [reflexivity|]. split; [reflexivity|]. split; [reflexivity|].
  destruct (classification_covers_live_records Samples.card_and_pass _ eq_refl)
    as [[_ [_ [D _]]] _].
  exact D.
Defined.

(** Burned records and records that are neither cards nor passes add
    nothing to the classification. *)
Theorem classification_ignores_other_records (assets : list asset) :
  CTAManager.collect assets
  = CTAManager.collect (filter Spec.relevant assets).
Proof.
  unfold CTAManager.collect.
  generalize CTAManager.nothing_collected.
  induction assets as [|a l IH]; intros c; [reflexivity|].
  simpl. unfold Spec.relevant at 1.
  destruct (CTAManager.is_burned a) eqn:Eb; simpl; [apply IH|].
  destruct (same_value (CTAManager.tokenType a) (JStr "CARD")) eqn:Ec; simpl.
  - unfold Spec.relevant at 1. rewrite Eb. simpl.
    destruct (CTAManager.collect_one a c); [apply IH|reflexivity].
  - destruct (same_value (CTAManager.tokenType a) (JStr "MINT_PASS")) eqn:Em; simpl.
    + unfold Spec.relevant at 1. rewrite Eb. simpl.
      destruct (CTAManager.collect_one a c); [apply IH|reflexivity].
    + unfold CTAManager.collect_one. rewrite Ec, Em. apply IH.
Qed.

(** ** File names in image URLs *)

Lemma prefix_char (c x : ascii) (r : string) :
  prefix (String c "") (String x r) = Ascii.eqb x c.
Proof.
  simpl. destruct (ascii_dec c x) as [E|E].
  - subst. rewrite Ascii.eqb_refl. destruct r; reflexivity.
  - destruct (Ascii.eqb x c) eqn:E'; [|reflexivity].
    apply Ascii.eqb_eq in E'. congruence.
Qed.

Lemma lastIndexOf_from_lacks (c : ascii) (s : string) :
  forall i acc, Spec.lacks c s = true ->
                lastIndexOf_from (String c "") s i acc = acc.
Proof.
  induction s as [|x r IH]; intros i acc H; [reflexivity|].
  simpl in H. apply andb_prop in H. destruct H as [Hx Hr].
  cbn [lastIndexOf_from]. rewrite prefix_char.
  apply negb_true_iff in Hx. rewrite Hx. apply IH. assumption.
Qed.

Lemma lastIndexOf_from_last (c : ascii) (a b : string) :
  forall i acc, Spec.lacks c b = true ->
                lastIndexOf_from (String c "") (a ++ String c b) i acc
                = i + Z.of_nat (String.length a).
Proof.
  induction a as [|x r IH]; intros i acc H.
  - cbn [append lastIndexOf_from String.length]. rewrite prefix_char.
    rewrite Ascii.eqb_refl. rewrite lastIndexOf_from_lacks by assumption.
    simpl. lia.
  - cbn [append lastIndexOf_from String.length]. rewrite IH by assumption. lia.
Qed.

Lemma substring_all (s : string) : substring 0 (String.length s) s = s.
Proof. induction s as [|x r IH]; simpl; [reflexivity|]. rewrite IH. reflexivity. Qed.

Lemma substring_after (a b : string) :
  substring (String.length a) (String.length b) (a ++ b) = b.
Proof.
  induction a as [|x r IH]; simpl; [apply substring_all|exact IH].
Qed.

Lemma length_append (a b : string) :
  String.length (a ++ b) = (String.length a + String.length b)%nat.
Proof. induction a as [|x r IH]; simpl; [reflexivity|]. rewrite IH. reflexivity. Qed.

Lemma append_assoc (a b c : string) : ((a ++ b) ++ c = a ++ (b ++ c))%string.
Proof. induction a as [|x r IH]; simpl; [reflexivity|]. rewrite IH. reflexivity. Qed.

(** [url.substring(url.lastIndexOf("/") + 1)] is the file name. *)
Lemma image_filename_file (a : asset) (url file : string) :
  get "image" (metadata a) = JStr url ->
  Spec.ends_in_file url file ->
  CTAManager.image_filename a = Ret file.
Proof.
  intros Hi [Hl [E|[dir E]]]; unfold CTAManager.image_filename; rewrite Hi;
    f_equal; subst url; unfold substring_from, lastIndexOf.
  - rewrite lastIndexOf_from_lacks by assumption. simpl Z.to_nat.
    rewrite Nat.sub_0_r. apply substring_all.
  - change (dir ++ "/" ++ file)%string with (dir ++ String "/" file)%string.
    rewrite lastIndexOf_from_last by assumption.
    replace (Z.to_nat (Z.max 0 (0 + Z.of_nat (String.length dir) + 1)))
      with (String.length (dir ++ "/")) by (rewrite length_append; simpl; lia).
    replace (dir ++ String "/" file)%string with ((dir ++ "/") ++ file)%string
      by (rewrite append_assoc; reflexivity).
    rewrite (length_append (dir ++ "/") file), Nat.add_comm, Nat.add_sub.
    apply substring_after.
Qed.

Lemma split_head_at (c : ascii) (a b : string) :
  Spec.lacks c a = true ->
  split_head (String c "") (a ++ String c b) = a.
Proof.
  induction a as [|x r IH]; intros H.
  - cbn [append]. unfold split_head. rewrite prefix_char, Ascii.eqb_refl.
    reflexivity.
  - simpl in H. apply andb_prop in H. destruct H as [Hx Hr].
    cbn [append]. cbn [split_head]. rewrite prefix_char.
    apply negb_true_iff in Hx. rewrite Hx. rewrite IH by assumption. reflexivity.
Qed.

Lemma split_head_whole (c : ascii) (a : string) :
  Spec.lacks c a = true -> split_head (String c "") a = a.
Proof.
  induction a as [|x r IH]; intros H; [reflexivity|].
  simpl in H. apply andb_prop in H. destruct H as [Hx Hr].
  cbn [split_head]. rewrite prefix_char.
  apply negb_true_iff in Hx. rewrite Hx. rewrite IH by assumption. reflexivity.
Qed.

(** The archetype id of a card is the part of its image's file name
    before the first dash, whatever the directory; a file name
    without a dash is taken whole. *)
Theorem getMetaCardId_reads_file_name (a : asset) (url file : string) :
  get "image" (metadata a) = JStr url ->
  Spec.ends_in_file url file ->
  (forall id rest, file = id ++ "-" ++ rest -> Spec.lacks "-" id = true ->
                   CTAManager.getMetaCardId a = Ret id)
  /\ (Spec.lacks "-" file = true -> CTAManager.getMetaCardId a = Ret file).
Proof.
  intros Hi Hf. unfold CTAManager.getMetaCardId.
  rewrite (image_filename_file a url file Hi Hf). split.
  - intros id rest E Hl. subst file. f_equal.
    apply (split_head_at "-" id rest Hl).
  - intros Hl. f_equal. apply split_head_whole. assumption.
Qed.

Lemma getMetaCardId_reads_file_name_witness :
  CTAManager.getMetaCardId
    (Samples.card_asset "1" "0xA" "https://cdn/10-0001.png" "2022-03-01")
  = Ret "10".
Proof.
  destruct (getMetaCardId_reads_file_name
              (Samples.card_asset "1" "0xA" "https://cdn/10-0001.png" "2022-03-01")
              "https://cdn/10-0001.png" "10-0001.png") as [H _].
  - reflexivity.
  - split; [reflexivity|]. right. exists "https://cdn". reflexivity.
  - apply (H "10" "0001.png"); reflexivity.
Defined.







(** ** The local file as source *)

Lemma try_next_local (cfg : CTAManager.config) (w : world) :
  String.eqb (CTAManager.ASSETS_SOURCE cfg) "imx" = false ->
  CTAManager.try_next cfg w
  = if assetsFileAlreadyRead w then (Ret (Some []), w)
    else match assets_file w with
         | Some l => (Ret (Some l), with_assetsFileAlreadyRead true w)
         | None => (Ret None, with_assetsFileAlreadyRead true w)
         end.
Proof.
  intros Hs. unfold CTAManager.try_next, CTAManager.getNextAssets.
  rewrite Hs. unfold try_catch, bind, ret.
  destruct (assetsFileAlreadyRead w); [reflexivity|].
  unfold read_assets_file. simpl. destruct (assets_file w); reflexivity.
Qed.

Lemma update_loop_local (cfg : CTAManager.config) :
  String.eqb (CTAManager.ASSETS_SOURCE cfg) "imx" = false ->
  forall fuel assets n w,
    assetsFileAlreadyRead w = true ->
    assetsFileAlreadyRead
      (snd (CTAManager.update_loop fuel cfg assets n w)) = true.
Proof.
  intros Hs fuel assets n w Hw. destruct fuel as [|fuel].
  - simpl. destruct (_ && _); simpl; assumption.
  - rewrite update_loop_step. destruct (_ && _); [|simpl; assumption].
    destruct (bounded_process_page assets w) as [_ [_ P]].
    destruct (CTAManager.process_page assets w) as [[[]|e] w1]; simpl in P;
      [|simpl; congruence].
    rewrite (try_next_local cfg w1 Hs). rewrite P, Hw.
    rewrite loop_on_empty_page. simpl. congruence.
Qed.

(** With the local file as source, the file is read in the first
    cycle at most: after any cycle the manager has marked it as read,
    and every later cycle returns at once, sends nothing and leaves
    the world as it is.  A file that could not be read, or that
    holds as many records as the ceiling or more, is therefore never
    imported: the first cycle marks it as read and writes nothing. *)
Theorem local_file_is_read_once (cfg : CTAManager.config) (w : world) :
  String.eqb (CTAManager.ASSETS_SOURCE cfg) "imx" = false ->
  let w1 := snd (CTAManager.update cfg w) in
  assetsFileAlreadyRead w1 = true
  /\ CTAManager.update cfg w1 = (Ret tt, w1)
  /\ (assetsFileAlreadyRead w = false ->
      assets_file w = None
      \/ (exists l, assets_file w = Some l
                    /\ CTAManager.MAX_ASSETS_PER_UPDATE cfg
                       <= Z.of_nat (List.length l)) ->
      CTAManager.update cfg w = (Ret tt, with_assetsFileAlreadyRead true w)).
Proof.
  intros Hs w1.
  assert (Hread : forall w0, assetsFileAlreadyRead w0 = true ->
                             CTAManager.update cfg w0 = (Ret tt, w0)).
  { intros w0 H0. unfold CTAManager.update, bind.
    rewrite (try_next_local cfg w0 Hs), H0. apply loop_on_empty_page. }
  assert (H1 : assetsFileAlreadyRead w1 = true).
  { subst w1. destruct (assetsFileAlreadyRead w) eqn:Fw.
    - rewrite (Hread w Fw). exact Fw.
    - unfold CTAManager.update, bind. rewrite (try_next_local cfg w Hs), Fw.
      destruct (assets_file w) as [l|]; [|reflexivity].
      apply update_loop_local; [assumption|reflexivity]. }
  split; [exact H1|]. split; [apply Hread; exact H1|].
  intros Fw [Hn|[l [Hl Hm]]]; unfold CTAManager.update, bind;
    rewrite (try_next_local cfg w Hs), Fw.
  - rewrite Hn. reflexivity.
  - rewrite Hl.
    assert (C : (0 <? Z.of_nat (List.length l))
                && (Z.of_nat (List.length l)
                    <? CTAManager.MAX_ASSETS_PER_UPDATE cfg) = false)
      by (apply andb_false_iff; right; apply Z.ltb_ge; assumption).
    cbn [CTAManager.update_loop]. rewrite C. reflexivity.
Qed.

Lemma local_file_is_read_once_witness :
  let w1 := snd (CTAManager.update Samples.local_config
                   (Samples.on_file Samples.page1)) in
  map (get "id") (rows (card (db w1))) = [JNum 1]
  /\ CTAManager.update Samples.local_config w1 = (Ret tt, w1).
Proof.
  intros w1. split; [reflexivity|].
  destruct (local_file_is_read_once Samples.local_config
              (Samples.on_file Samples.page1)) as [_ [H _]].
  - reflexivity.
  - exact H.
Defined.

(** ** A page the loop does not enter *)

Lemma loop_halts (cfg : CTAManager.config) (fuel : nat) (a : list asset)
      (w : world) :
  a = [] \/ CTAManager.MAX_ASSETS_PER_UPDATE cfg <= Z.of_nat (List.length a) ->
  CTAManager.update_loop fuel cfg a (Z.of_nat (List.length a)) w = (Ret tt, w).
Proof.
  intros H.
  assert (C : (0 <? Z.of_nat (List.length a))
              && (Z.of_nat (List.length a)
                  <? CTAManager.MAX_ASSETS_PER_UPDATE cfg) = false).
  { destruct H as [H|H].
    - subst a. reflexivity.
    - apply andb_false_iff. right. apply Z.ltb_ge. assumption. }
  destruct fuel; simpl; rewrite C; reflexivity.
Qed.

Lemma loop_to_halt (cfg : CTAManager.config) (stop : list response) :
  CTAManager.ASSETS_SOURCE cfg = "imx" ->
  Spec.halts cfg stop ->
  forall pages fuel assets w,
    assets <> [] ->
    Z.of_nat (List.length assets) < CTAManager.MAX_ASSETS_PER_UPDATE cfg ->
    Forall (fun p => snd p <> []
                     /\ Z.of_nat (List.length (snd p))
                        < CTAManager.MAX_ASSETS_PER_UPDATE cfg) pages ->
    feed w = (map Some pages ++ stop)%list ->
    (List.length pages < fuel)%nat ->
    fst (Spec.process_pages (assets :: map snd pages) w) = Ret tt ->
    CTAManager.update_loop fuel cfg assets (Z.of_nat (List.length assets)) w
    = (Ret tt,
       Spec.upstream (tl stop)
         (requests w
            ++ map (Request (CTAManager.CTA_PAGE_SIZE cfg))
                   (lastCursor w :: map fst pages))
         (Spec.final_cursor stop (last (map fst pages) (lastCursor w)))
         (snd (Spec.process_pages (assets :: map snd pages) w))).
Proof.
  intros Hs Hstop. induction pages as [|[c1 a1] ps IH];
    intros fuel assets w Hne Hlt Hall Hfeed Hfuel Hok.
  - destruct fuel as [|fuel]; [inversion Hfuel|].
    cbn [CTAManager.update_loop].
    assert (C : (0 <? Z.of_nat (List.length assets))
                && (Z.of_nat (List.length assets)
                    <? CTAManager.MAX_ASSETS_PER_UPDATE cfg) = true).
    { apply andb_true_intro. split; [|apply Z.ltb_lt; assumption].
      apply Z.ltb_lt. destruct assets; [congruence|simpl; lia]. }
    rewrite C. unfold bind at 1.
    rewrite process_pages_cons in Hok. rewrite process_pages_cons.
    destruct (framed_keeps_upstream (CTAManager.process_page assets) w
                (framed_process_page assets)) as [Kf [Kr Kc]].
    destruct (CTAManager.process_page assets w) as [[[]|e] w1];
      [|simpl in Hok; discriminate].
    simpl in Kf, Kr, Kc. unfold bind at 1.
    rewrite (try_next_imx cfg w1 Hs). rewrite Kf, Hfeed, Kr, Kc.
    destruct stop as [|[[c big]|] rest]; simpl.
    + apply loop_on_empty_page.
    + apply loop_halts. exact Hstop.
    + reflexivity.
  - destruct fuel as [|fuel]; [inversion Hfuel|].
    cbn [CTAManager.update_loop].
    assert (C : (0 <? Z.of_nat (List.length assets))
                && (Z.of_nat (List.length assets)
                    <? CTAManager.MAX_ASSETS_PER_UPDATE cfg) = true).
    { apply andb_true_intro. split; [|apply Z.ltb_lt; assumption].
      apply Z.ltb_lt. destruct assets; [congruence|simpl; lia]. }
    rewrite C. unfold bind at 1.
    cbn [map snd] in Hok. cbn [map snd].
    rewrite process_pages_cons in Hok. rewrite process_pages_cons.
    destruct (framed_keeps_upstream (CTAManager.process_page assets) w
                (framed_process_page assets)) as [Kf [Kr Kc]].
    destruct (CTAManager.process_page assets w) as [[[]|e] w1];
      [|simpl in Hok; discriminate].
    simpl in Kf, Kr, Kc. unfold bind at 1.
    rewrite (try_next_imx cfg w1 Hs). rewrite Kf, Hfeed, Kr, Kc.
    cbn [map app].
    inversion Hall as [|x l [Hne1 Hlt1] Hall']; subst. simpl in Hne1, Hlt1.
    set (w2 := Spec.upstream _ _ c1 w1).
    pose proof (framed_process_pages (a1 :: map snd ps)
                  (map Some ps ++ stop)%list
                  (requests w ++ [Request (CTAManager.CTA_PAGE_SIZE cfg) (lastCursor w)])%list
                  c1 w1) as Fr.
    fold w2 in Fr.
    rewrite (IH fuel a1 w2 Hne1 Hlt1 Hall').
    + rewrite Fr. simpl snd. rewrite upstream_upstream.
      subst w2. simpl requests. simpl lastCursor.
      rewrite <- app_assoc. cbn [map fst app].
      rewrite (last_cons_default (map fst ps) c1 (lastCursor w)). reflexivity.
    + reflexivity.
    + simpl in Hfuel. lia.
    + rewrite Fr. exact Hok.
Qed.

Lemma update_to_halt (cfg : CTAManager.config) (w : world)
      (pages : list (jsval * list asset)) (stop : list response) :
  CTAManager.ASSETS_SOURCE cfg = "imx" ->
  Spec.halts cfg stop ->
  feed w = (map Some pages ++ stop)%list ->
  Forall (fun p => snd p <> []
                   /\ Z.of_nat (List.length (snd p))
                      < CTAManager.MAX_ASSETS_PER_UPDATE cfg) pages ->
  fst (Spec.process_pages (map snd pages) w) = Ret tt ->
  CTAManager.update cfg w
  = (Ret tt,
     Spec.upstream (tl stop)
       (requests w
          ++ map (Request (CTAManager.CTA_PAGE_SIZE cfg))
                 (lastCursor w :: map fst pages))
       (Spec.final_cursor stop (last (map fst pages) (lastCursor w)))
       (snd (Spec.process_pages (map snd pages) w))).
Proof.
  intros Hs Hstop Hfeed Hall Hok. unfold CTAManager.update, bind.
  rewrite (try_next_imx cfg w Hs). rewrite Hfeed.
  destruct pages as [|[c1 a1] ps]; cbn [map app fst snd].
  - destruct stop as [|[[c big]|] rest]; try reflexivity.
    etransitivity; [apply loop_halts; exact Hstop|reflexivity].
  - inversion Hall as [|x l [Hne1 Hlt1] Hall']; subst. simpl in Hne1, Hlt1.
    set (w1 := Spec.upstream _ _ c1 w).
    pose proof (framed_process_pages (a1 :: map snd ps)
                  (map Some ps ++ stop)%list
                  (requests w ++ [Request (CTAManager.CTA_PAGE_SIZE cfg) (lastCursor w)])%list
                  c1 w) as Fr.
    fold w1 in Fr.
    rewrite (loop_to_halt cfg stop Hs Hstop ps _ a1 w1 Hne1 Hlt1 Hall').
    + rewrite Fr. simpl snd. rewrite upstream_upstream.
      subst w1. simpl requests. simpl lastCursor.
      rewrite <- app_assoc. cbn [map fst app].
      rewrite (last_cons_default (map fst ps) c1 (lastCursor w)). reflexivity.
    + reflexivity.
    + cbn [List.length]. rewrite length_app, length_map. cbn [List.length]. lia.
    + rewrite Fr. exact Hok.
Qed.

(** A page with as many records as the ceiling, or more, is fetched
    and dropped: the cycle ends without writing anything for it, the
    retained cursor is already the one that follows it, and the next
    cycle starts from that cursor. *)
Theorem page_at_ceiling_is_dropped (cfg : CTAManager.config) (w : world)
        (pages : list (jsval * list asset)) (c : jsval) (big : list asset)
        (rest : list response) :
  CTAManager.ASSETS_SOURCE cfg = "imx" ->
  feed w = (map Some pages ++ Some (c, big) :: rest)%list ->
  CTAManager.MAX_ASSETS_PER_UPDATE cfg <= Z.of_nat (List.length big) ->
  Forall (fun p => snd p <> []
                   /\ Z.of_nat (List.length (snd p))
                      < CTAManager.MAX_ASSETS_PER_UPDATE cfg) pages ->
  fst (Spec.process_pages (map snd pages) w) = Ret tt ->
  let w' := snd (CTAManager.update cfg w) in
  let done := snd (Spec.process_pages (map snd pages) w) in
  fst (CTAManager.update cfg w) = Ret tt
  /\ db w' = db done
  /\ sent w' = sent done
  /\ lastCursor w' = c
  /\ feed w' = rest
  /\ (exists later,
         requests (snd (CTAManager.update cfg w'))
         = (requests w'
              ++ Request (CTAManager.CTA_PAGE_SIZE cfg) c :: later)%list).
Proof.
  intros Hs Hfeed Hbig Hall Hok w' done.
  pose proof (update_to_halt cfg w pages (Some (c, big) :: rest) Hs
                             (or_intror Hbig) Hfeed Hall Hok) as E.
  cbn [tl Spec.final_cursor] in E.
  assert (Ew : w' = Spec.upstream rest
                      (requests w
                         ++ map (Request (CTAManager.CTA_PAGE_SIZE cfg))
                                (lastCursor w :: map fst pages))%list
                      c done)
    by (subst w'; rewrite E; reflexivity).
  split; [rewrite E; reflexivity|].
  split; [rewrite Ew; reflexivity|].
  split; [rewrite Ew; reflexivity|].
  split; [rewrite Ew; reflexivity|].
  split; [rewrite Ew; reflexivity|].
  destruct (update_first_request cfg w' Hs) as [later El].
  exists later. rewrite El. rewrite Ew at 2. reflexivity.
Qed.

Lemma page_at_ceiling_is_dropped_witness :
  let w := Samples.on_feed [Some (JStr "cur1", Samples.page1);
                            Some (JStr "cur2", Samples.two_records);
                            Some (JStr "cur3", Samples.page3)] in
  let w' := snd (CTAManager.update Samples.small_budget w) in
  map (get "id") (rows (card (db w'))) = [JNum 1]
  /\ lastCursor w' = JStr "cur2"
  /\ feed w' = [Some (JStr "cur3", Samples.page3)].
Proof.
  intros w w'.
  destruct (page_at_ceiling_is_dropped Samples.small_budget w
              [(JStr "cur1", Samples.page1)] (JStr "cur2") Samples.two_records
              [Some (JStr "cur3", Samples.page3)])
    as [_ [H2 [_ [H4 [H5 _]]]]].
  - reflexivity.
  - reflexivity.
  - simpl. lia.
  - constructor; [split; [discriminate|reflexivity]|constructor].
  - vm_compute. reflexivity.
  - split; [|split; assumption].
    subst w'. rewrite H2. vm_compute. reflexivity.
Defined.

(* ================================================================== *)
(** * Further properties of the dimension tables                       *)
(* ================================================================== *)

Section EnumComplete.
Variable f : string.
Hypothesis f_not_id : String.eqb "id" f = false.

Local Abbreviation cols := [serial_pk "id"; text_unique f] (only parsing).


End EnumComplete.

Lemma map_get_set_same {V} (k : jsval) (v : V) (m : list (jsval * V)) :
  map_get k (map_set k v m) = Some v.
Proof.
  induction m as [|[k1 v1] m IH]; simpl.
  - rewrite same_value_refl. reflexivity.
  - destruct (same_value k k1) eqn:E; simpl.
    + rewrite same_value_refl. reflexivity.
    + rewrite E. exact IH.
Qed.






(* ================================================================== *)
(** * The reports on the checkpoint table                              *)
(* ================================================================== *)

Lemma greatest_from (gt : row -> row -> bool) (l : list row) :
  forall best,
    fold_left (fun best r =>
                 match best with
                 | None => Some r
                 | Some b => if gt r b then Some r else Some b
                 end) l best
    = match best, l with
      | None, [] => None
      | _, _ =>
          Some (fold_left (fun b r => if gt r b then r else b)
                          (match best with Some _ => l | None => tl l end)
                          (match best with Some b => b | None => hd [] l end))
      end.
Proof.
  induction l as [|x l IH]; intros [b|]; simpl; try reflexivity.
  - rewrite IH. destruct (gt x b); reflexivity.
  - rewrite IH. reflexivity.
Qed.

Lemma greatest_cases (gt : row -> row -> bool) (l : list row) :
  (l = [] /\ greatest gt l = None)
  \/ (exists r, In r l /\ greatest gt l = Some r).
Proof.
  unfold greatest. rewrite greatest_from.
  destruct l as [|x l]; [left; auto|right]. simpl.
  eexists. split; [|reflexivity].
  assert (G : forall l b, In (fold_left (fun b r => if gt r b then r else b) l b)
                             (b :: l)).
  { clear. induction l as [|y l IH]; intros b; simpl; [auto|].
    destruct (IH (if gt y b then y else b)) as [H|H]; [|auto].
    destruct (gt y b); auto. }
  apply G.
Qed.

Lemma greatest_null_stays (l : list row) (b : row) :
  (forall k, get "id" b <> JNum k) ->
  fold_left (fun b r => if int_after "id" r b then r else b) l b = b.
Proof.
  intros Hb. induction l as [|y l IH]; simpl; [reflexivity|].
  assert (E : int_after "id" y b = false).
  { unfold int_after. destruct (get "id" y), (get "id" b) eqn:Eb;
      try reflexivity; exfalso; eapply Hb; reflexivity. }
  rewrite E. exact IH.
Qed.

(** The row [ORDER BY id DESC LIMIT 1] returns has the greatest id. *)
Lemma greatest_id (l : list row) (r : row) :
  greatest (int_after "id") l = Some r ->
  forall r' n n', In r' l -> get "id" r = JNum n -> get "id" r' = JNum n' ->
                  n' <= n.
Proof.
  unfold greatest. rewrite greatest_from.
  destruct l as [|x l]; [discriminate|]. simpl. intros H. inversion H. clear H.
  assert (G : forall l b r' n n',
             In r' (b :: l) ->
             get "id" (fold_left (fun b r => if int_after "id" r b then r else b) l b)
             = JNum n ->
             get "id" r' = JNum n' -> n' <= n).
  { clear. induction l as [|y l IH]; intros b r' n n' Hin Hn Hn'.
    - simpl in *. destruct Hin as [Hin|[]]. subst. rewrite Hn in Hn'.
      inversion Hn'. lia.
    - simpl in Hn.
      destruct (get "id" y) as [| | |k| |] eqn:Ey.
      4:{ (* y has a number for id *)
        destruct (get "id" b) as [| | |kb| |] eqn:Eb.
        4:{ assert (E : int_after "id" y b = (kb <? k))
              by (unfold int_after; rewrite Ey, Eb; reflexivity).
            rewrite E in Hn. destruct (kb <? k) eqn:L.
            - apply Z.ltb_lt in L.
              pose proof (IH y y n k (or_introl eq_refl) Hn Ey) as Hy.
              destruct Hin as [Hin|[Hin|Hin]].
              + subst r'. rewrite Eb in Hn'. inversion Hn'. lia.
              + subst r'. rewrite Ey in Hn'. inversion Hn'. lia.
              + eapply IH; [right; exact Hin|exact Hn|exact Hn'].
            - apply Z.ltb_ge in L.
              pose proof (IH b b n kb (or_introl eq_refl) Hn Eb) as Hbb.
              destruct Hin as [Hin|[Hin|Hin]].
              + subst r'. rewrite Eb in Hn'. inversion Hn'. lia.
              + subst r'. rewrite Ey in Hn'. inversion Hn'. lia.
              + eapply IH; [right; exact Hin|exact Hn|exact Hn']. }
        all: assert (E : int_after "id" y b = false)
          by (unfold int_after; rewrite Ey, Eb; reflexivity);
          rewrite E in Hn;
          rewrite greatest_null_stays in Hn by (rewrite Eb; discriminate);
          rewrite Eb in Hn; discriminate. }
      all: destruct (get "id" b) as [| | |kb| |] eqn:Eb;
        try (assert (E : int_after "id" y b = false)
               by (unfold int_after; rewrite Ey, Eb; reflexivity);
             rewrite E in Hn;
             rewrite greatest_null_stays in Hn by (rewrite Eb; discriminate);
             rewrite Eb in Hn; discriminate);
        assert (E : int_after "id" y b = true)
          by (unfold int_after; rewrite Ey, Eb; reflexivity);
        rewrite E in Hn;
        rewrite greatest_null_stays in Hn by (rewrite Ey; discriminate);
        rewrite Ey in Hn; discriminate. }
  intros r' n n' Hin. apply G. exact Hin.
Qed.

Lemma query_select_cases (text : string) (result : database -> list jsobj)
      (w : world) :
  let w1 := with_pool (tl (faults w)) (sent w ++ [text]) w in
  DatabaseService.query_select text result w
  = (Ret (if hd false (faults w) then [] else result (db w)), w1).
Proof.
  unfold DatabaseService.query_select, try_catch, pool_select.
  destruct (faults w) as [|[|] fs]; reflexivity.
Qed.

(** [get_last_update] raises a TypeError when there is no checkpoint
    yet or when the query is rejected; otherwise it returns the time
    of the checkpoint with the greatest id.  It never changes the
    store. *)
Theorem get_last_update_needs_a_checkpoint (w : world) :
  let out := Repository.get_last_update w in
  db (snd out) = db w
  /\ (Spec.history w = [] \/ hd false (faults w) = true ->
      fst out = Throw TypeError)
  /\ (Spec.history w <> [] -> hd false (faults w) = false ->
      exists r, In r (Spec.history w)
                /\ fst out = Ret (get "update_timestamp" r)
                /\ forall r' n n', In r' (Spec.history w) ->
                                   get "id" r = JNum n -> get "id" r' = JNum n' ->
                                   n' <= n).
Proof.
  unfold Repository.get_last_update, bind. rewrite query_select_cases.
  unfold first_desc, Spec.history.
  destruct (greatest_cases (int_after "id") (rows (update_history (db w))))
    as [[E G]|[r [Hr G]]]; rewrite G.
  - destruct (hd false (faults w)); simpl;
      (split; [reflexivity|]); (split; [reflexivity|]); congruence.
  - destruct (hd false (faults w)) eqn:F; simpl.
    + split; [reflexivity|]. split; [reflexivity|discriminate].
    + split; [reflexivity|]. split.
      * intros [E|E]; [|discriminate]. rewrite E in Hr. contradiction.
      * intros _ _. exists r. split; [assumption|].
        split; [reflexivity|].
        apply greatest_id. assumption.
Qed.

(** What [recordUpdate] has recorded, [get_last_update] reads back: on
    a pool that rejects nothing and a checkpoint table whose ids come
    from its sequence, [get_last_update] called after [recordUpdate]
    returns the time of the cycle that was just recorded. *)
Theorem checkpoint_time_is_read_back (u : string) (ts : jsval) (n : Z)
        (w : world) :
  Spec.no_faults w ->
  Spec.serial_ids (update_history (db w)) ->
  is_null ts = false ->
  in_int4 n = true ->
  fst (bind (Repository.recordUpdate (JStr u) ts (JNum n))
            (fun _ => Repository.get_last_update) w)
  = Ret (JStr u).
Proof.
  intros Hf Hs Nts Hn.
  assert (Hfr : Spec.history_fresh w).
  { intros r k Hr Hk. destruct (Hs r Hr) as [k' [E L]]. congruence. }
  destruct (recordUpdate_appends u ts n w Hf Hfr Nts Hn) as [Eh [Hf' _]].
  unfold bind. rewrite recordUpdate_query in *. cbn [snd] in *.
  set (w' := snd (DatabaseService.query _ w)) in *.
  destruct (get_last_update_needs_a_checkpoint w') as [_ [_ H]].
  destruct H as [r [Hr [Er Hmax]]].
  - rewrite Eh. intros E. apply app_eq_nil in E. destruct E; discriminate.
  - apply no_faults_hd. assumption.
  - fold w'. rewrite Er. f_equal. rewrite Eh in Hr, Hmax.
    apply in_app_or in Hr. destruct Hr as [Hr|[Hr|[]]].
    + exfalso. destruct (Hs r Hr) as [k [Ek Lk]].
      specialize (Hmax (Spec.checkpoint_row (seq (update_history (db w))) u
                                            (Spec.as_text ts) (JNum n))
                       k (seq (update_history (db w)))).
      assert (X : seq (update_history (db w)) <= k).
      { apply Hmax; [|assumption|reflexivity].
        apply in_or_app. right. left. reflexivity. }
      lia.
    + subst r. reflexivity.
Qed.

Lemma checkpoint_time_is_read_back_witness :
  fst (bind (Repository.recordUpdate (JStr "T1") (JStr "2022-03-01") (JNum 2))
            (fun _ => Repository.get_last_update) Samples.fresh)
  = Ret (JStr "T1").
Proof.
  apply checkpoint_time_is_read_back.
  - constructor.
  - intros r [].
  - reflexivity.
  - reflexivity.
Defined.

(** [readLastAssetTimestamp] never raises and never changes the
    store, whatever the collation of the database: it returns
    [undefined] when there is no checkpoint or when the query is
    rejected, and otherwise the upstream time of a stored checkpoint. *)
Theorem readLastAssetTimestamp_never_raises (lt : string -> string -> bool)
        (w : world) :
  let out := Repository.readLastAssetTimestamp lt w in
  db (snd out) = db w
  /\ (Spec.history w = [] \/ hd false (faults w) = true -> fst out = Ret JUndef)
  /\ (Spec.history w <> [] -> hd false (faults w) = false ->
      exists r, In r (Spec.history w)
                /\ fst out = Ret (get "last_asset_timestamp" r)).
Proof.
  unfold Repository.readLastAssetTimestamp, bind. rewrite query_select_cases.
  unfold first_desc, Spec.history.
  destruct (greatest_cases (text_after lt "update_timestamp")
                           (rows (update_history (db w))))
    as [[E G]|[r [Hr G]]]; rewrite G.
  - destruct (hd false (faults w)); simpl;
      (split; [reflexivity|]); (split; [reflexivity|]); congruence.
  - destruct (hd false (faults w)) eqn:F; simpl.
    + split; [reflexivity|]. split; [reflexivity|discriminate].
    + split; [reflexivity|]. split.
      * intros [E|E]; [|discriminate]. rewrite E in Hr. contradiction.
      * intros _ _. exists r. split; [assumption|reflexivity].
Qed.

(* ================================================================== *)
(** * The array helpers                                                *)
(* ================================================================== *)

(** [partition] returns the items that satisfy the filter and the
    others, each part in the order of the array. *)
Theorem partition_splits_in_order {A} (data : list A) (keep : A -> bool) :
  Utils.partition data keep
  = (filter keep data, filter (fun o => negb (keep o)) data).
Proof.
  unfold Utils.partition.
  assert (G : forall l a b,
             fold_left (fun r o => if keep o
                                   then ((fst r ++ [o])%list, snd r)
                                   else (fst r, (snd r ++ [o])%list)) l (a, b)
             = (a ++ filter keep l, b ++ filter (fun o => negb (keep o)) l)%list).
  { induction l as [|x l IH]; intros a b; simpl.
    - rewrite !app_nil_r. reflexivity.
    - destruct (keep x); simpl; rewrite IH, <- app_assoc; reflexivity. }
  apply (G data [] []).
Qed.

Lemma splitInChunks_loop_some {A} (size : Z) :
  0 < size ->
  forall fuel (rows : list A) chunks,
    (List.length rows <= fuel)%nat ->
    exists more,
      Utils.splitInChunks_loop fuel rows chunks size
      = Some ((chunks ++ more)%list, [])
      /\ List.concat more = rows
      /\ Forall (fun c => c <> [] /\ Z.of_nat (List.length c) <= size) more
      /\ Forall (fun c => Z.of_nat (List.length c) = size) (removelast more).
Proof.
  intros Hs. induction fuel as [|fuel IH]; intros rows chunks Hl.
  - destruct rows; [|simpl in Hl; lia].
    exists []. simpl. rewrite app_nil_r. repeat split; constructor.
  - destruct rows as [|x rows].
    + exists []. simpl. rewrite app_nil_r. repeat split; constructor.
    + cbn [Utils.splitInChunks_loop]. unfold Utils.splice0.
      set (n := Z.to_nat (Z.max 0 size)).
      assert (Hn : (0 < n)%nat) by (subst n; lia).
      destruct (IH (skipn n (x :: rows)) (chunks ++ [firstn n (x :: rows)])%list)
        as [more [E [C [F L]]]].
      { rewrite length_skipn. cbn [List.length] in *. clearbody n. lia. }
      exists (firstn n (x :: rows) :: more).
      split; [rewrite E, <- app_assoc; reflexivity|]. split; [|split].
      * simpl List.concat. rewrite C. apply firstn_skipn.
      * constructor; [|exact F]. split.
        -- destruct n; [lia|]. discriminate.
        -- rewrite length_firstn. subst n. lia.
      * destruct more as [|m more']; [constructor|].
        change (removelast (firstn n (x :: rows) :: m :: more'))
          with (firstn n (x :: rows) :: removelast (m :: more')).
        constructor; [|exact L].
        (* a chunk that is not the last one is full *)
        assert (Hrest : skipn n (x :: rows) <> []).
        { intros E0. rewrite E0 in C. inversion F as [|c l [Hc _] _]; subst.
          simpl in C. apply app_eq_nil in C. destruct C. contradiction. }
        rewrite length_firstn.
        assert (Hlen : (n < List.length (x :: rows))%nat).
        { destruct (Nat.lt_ge_cases n (List.length (x :: rows))) as [H|H];
            [exact H|].
          exfalso. apply Hrest. apply skipn_all2. exact H. }
        subst n. lia.
Qed.

(** With a positive chunk size, [splitInChunks] ends, empties the
    array it was given and returns its items in order, cut into
    non-empty chunks of [size] items, the last one possibly shorter. *)
Theorem splitInChunks_cuts_in_order {A} (rows : list A) (size : Z)
        (fuel : nat) :
  0 < size ->
  (List.length rows <= fuel)%nat ->
  exists chunks,
    Utils.splitInChunks fuel rows size = Some (chunks, [])
    /\ List.concat chunks = rows
    /\ Forall (fun c => c <> [] /\ Z.of_nat (List.length c) <= size) chunks
    /\ Forall (fun c => Z.of_nat (List.length c) = size) (removelast chunks).
Proof.
  intros Hs Hl. unfold Utils.splitInChunks.
  destruct (splitInChunks_loop_some size Hs fuel rows [] Hl) as [more H].
  exists more. exact H.
Qed.

Lemma splitInChunks_cuts_in_order_witness :
  Utils.splitInChunks 5 [1; 2; 3; 4; 5] 2 = Some ([[1; 2]; [3; 4]; [5]], []).
Proof.
  destruct (splitInChunks_cuts_in_order [1; 2; 3; 4; 5] 2 5) as [chunks [E _]].
  - lia.
  - simpl. lia.
  - rewrite E. vm_compute in E. inversion E. reflexivity.
Defined.

(** With a chunk size of zero or less, [splice] removes nothing and
    the loop of [splitInChunks] never ends on a non-empty array: no
    number of iterations completes it. *)
Theorem splitInChunks_needs_positive_size {A} (rows : list A) (size : Z)
        (fuel : nat) :
  size <= 0 -> rows <> [] ->
  Utils.splitInChunks fuel rows size = None.
Proof.
  intros Hs Hr. unfold Utils.splitInChunks. generalize (@nil (list A)).
  induction fuel as [|fuel IH]; intros chunks.
  - destruct rows; [congruence|reflexivity].
  - destruct rows as [|x rows]; [congruence|].
    cbn [Utils.splitInChunks_loop]. unfold Utils.splice0.
    replace (Z.to_nat (Z.max 0 size)) with 0%nat by lia.
    simpl. apply IH.
Qed.

Lemma splitInChunks_needs_positive_size_witness :
  Utils.splitInChunks 1000 [1; 2; 3] 0 = None.
Proof. apply splitInChunks_needs_positive_size; [lia|discriminate]. Defined.

(* ================================================================== *)
(** * Pass types: a table without a unique name                        *)
(* ================================================================== *)

Lemma coerce_text_total (v : jsval) : coerce TText v = Some (Spec.as_text v).
Proof. unfold Spec.as_text. destruct v as [| | |n|s|[|]]; reflexivity. Qed.

Lemma pass_type_make_row (v : jsobj) (sq : Z) :
  make_row (schema MINT_PASS_TYPE)
           (combine Spec.pass_type_fields
                    (map (fun n => get n v) Spec.pass_type_fields)) sq
  = Some (Spec.pass_type_row sq v, sq + 1).
Proof.
  cbn -[coerce Z.add]. rewrite !coerce_text_total. reflexivity.
Qed.

Lemma pass_type_no_conflict (stored : list row) (sq : Z) (v : jsobj) :
  (forall r n, In r stored -> get "id" r = JNum n -> n < sq) ->
  conflicts (schema MINT_PASS_TYPE) stored (Spec.pass_type_row sq v) = false.
Proof.
  intros Hb. unfold conflicts.
  cbn [schema existsb serial_pk text_col col_unique col_name andb orb].
  change (get "id" (Spec.pass_type_row sq v)) with (JNum sq).
  cbn [is_null negb andb]. rewrite orb_false_r.
  match goal with |- ?x = false => destruct x eqn:E end; [|reflexivity].
  apply existsb_exists in E. destruct E as [r [Hr E]].
  apply same_value_eq in E. specialize (Hb r sq Hr E). lia.
Qed.

(** An INSERT of pass types without id appends one row per value. *)
Lemma pass_type_insert_tuples (values : list jsobj) :
  forall stored sq returned,
    (forall r n, In r stored -> get "id" r = JNum n -> n < sq) ->
    exists returned',
      insert_tuples (schema MINT_PASS_TYPE) Spec.pass_type_fields "id"
                    (map (DatabaseService.field_values
                            (FList Spec.pass_type_fields)) values)
                    stored sq returned
      = Some ((stored ++ Spec.pass_type_rows sq values)%list,
              sq + Z.of_nat (List.length values), returned')
      /\ (forall r n, In r (stored ++ Spec.pass_type_rows sq values)%list ->
                      get "id" r = JNum n ->
                      n < sq + Z.of_nat (List.length values)).
Proof.
  induction values as [|v vs IH]; intros stored sq returned Hb.
  - exists returned. simpl. rewrite app_nil_r, Z.add_0_r. auto.
  - cbn [map insert_tuples].
    rewrite (field_values_tuple (FList Spec.pass_type_fields) v).
    cbn [field_list].
    assert (Fo : fields_ok (schema MINT_PASS_TYPE) Spec.pass_type_fields
                           (map (fun n => get n v) Spec.pass_type_fields) = true)
      by reflexivity.
    rewrite Fo, pass_type_make_row, pass_type_no_conflict by assumption.
    destruct (IH (stored ++ [Spec.pass_type_row sq v])%list (sq + 1)
                 (returned ++ [[("id", get "id" (Spec.pass_type_row sq v))]])%list)
      as [rt [E B]].
    { intros r n Hr Hn. apply in_app_or in Hr. destruct Hr as [Hr|[Hr|[]]].
      - specialize (Hb r n Hr Hn). lia.
      - subst r. simpl in Hn. inversion Hn. lia. }
    exists rt. cbn [Spec.pass_type_rows List.length].
    rewrite <- app_assoc in E, B. cbn [app] in E, B.
    replace (sq + Z.of_nat (S (List.length vs)))
      with (sq + 1 + Z.of_nat (List.length vs)) by lia.
    auto.
Qed.

Lemma pass_type_exec_insert (values : list jsobj) (d : database) :
  values <> [] ->
  Spec.ids_behind (mint_pass_type d) ->
  exists out,
    exec (Insert MINT_PASS_TYPE (FList Spec.pass_type_fields)
                 (map (DatabaseService.field_values
                         (FList Spec.pass_type_fields)) values) "id") d
    = Some (out,
            set_table MINT_PASS_TYPE
              (Table (rows (mint_pass_type d)
                        ++ Spec.pass_type_rows (seq (mint_pass_type d)) values)
                     (seq (mint_pass_type d) + Z.of_nat (List.length values)))
              d).
Proof.
  intros Hne Hb.
  destruct (pass_type_insert_tuples values (rows (mint_pass_type d))
              (seq (mint_pass_type d)) [] Hb) as [rt [E _]].
  exists rt. cbn [exec]. unfold exec_insert.
  change (get_table MINT_PASS_TYPE d) with (mint_pass_type d).
  cbn [field_list]. rewrite E.
  destruct values as [|v vs]; [congruence|]. reflexivity.
Qed.

Lemma pass_type_rows_names (sq : Z) (vs : list jsobj) :
  map (get "pass_type") (Spec.pass_type_rows sq vs)
  = map (fun v => Spec.as_text (get "pass_type" v)) vs.
Proof.
  revert sq. induction vs as [|v vs IH]; intros sq; simpl; [reflexivity|].
  rewrite IH. reflexivity.
Qed.

(** When the SELECT of the known pass types is rejected and the INSERT
    is accepted, [updateMintPassTypes] inserts every candidate, known
    or not: the table has no unique constraint on the type that would
    skip a known one, so a known type is then stored twice. *)
Theorem pass_types_are_duplicated_after_failed_read (candidates : list jsobj)
        (w : world) (fs : list bool) :
  faults w = true :: fs ->
  Forall (fun b => b = false) fs ->
  candidates <> [] ->
  Spec.ids_behind (mint_pass_type (db w)) ->
  let out := Repository.updateMintPassTypes candidates w in
  fst out = Ret tt
  /\ map (get "pass_type") (rows (mint_pass_type (db (snd out))))
     = (map (get "pass_type") (rows (mint_pass_type (db w)))
          ++ map (fun p => Spec.as_text (get "passType" p)) candidates)%list.
Proof.
  intros Hfault Hfs Hne Hb.
  set (rws := map (fun p => set "image_url" (get "imageUrl" p)
                              (set "pass_type" (get "passType" p) p)) candidates).
  assert (E : exists w2,
             Repository.updateMintPassTypes candidates w = (Ret tt, w2)
             /\ rows (mint_pass_type (db w2))
                = (rows (mint_pass_type (db w))
                     ++ Spec.pass_type_rows (seq (mint_pass_type (db w))) rws)%list).
  { unfold Repository.updateMintPassTypes.
    destruct candidates as [|c0 cs0] eqn:Ec; [congruence|].
    subst rws. rewrite <- Ec in *. clear Ec c0 cs0.
    set (rws := map (fun p => set "image_url" (get "imageUrl" p)
                                (set "pass_type" (get "passType" p) p)) candidates).
    set (w1 := with_pool fs (sent w ++ [sql_text (Select MINT_PASS_TYPE
                                                     ["id"; "pass_type"])])%list w).
    assert (R : Repository._read_mint_pass_types w = (Ret [], w1)).
    { unfold Repository._read_mint_pass_types, bind.
      unfold DatabaseService.query, try_catch, pool_query. rewrite Hfault.
      reflexivity. }
    unfold bind at 1. rewrite R. cbv zeta.
    change (map_keys (@nil (jsval * jsval))) with (@nil jsval).
    assert (Ef : filter (fun p => negb (includes [] (get "passType" p))) candidates
                 = candidates) by (apply filter_all; reflexivity).
    rewrite Ef. fold rws.
    assert (Hrws : rws <> []).
    { subst rws. destruct candidates; [congruence|discriminate]. }
    destruct rws as [|r0 rs0] eqn:Er; [congruence|]. rewrite <- Er in *.
    destruct (pass_type_exec_insert rws (db w1) Hrws Hb) as [res Ex].
    assert (Hw1 : Spec.no_faults w1) by exact Hfs.
    unfold DatabaseService.insert, lift. unfold bind at 1. unfold bind at 1.
    rewrite map_values_objects. unfold bind at 1.
    change (FList ["pass_type"; "name"; "description"; "image_url"])
      with (FList Spec.pass_type_fields).
    rewrite (query_accepted _ _ _ _ Hw1 Ex). unfold ret.
    eexists. split; [reflexivity|]. reflexivity. }
  destruct E as [w2 [E1 E2]]. cbv zeta. rewrite E1. cbn [fst snd].
  split; [reflexivity|].
  rewrite E2, map_app, pass_type_rows_names.
  f_equal. subst rws. rewrite map_map.
  apply map_ext. intros p. f_equal.
  rewrite get_set_other by reflexivity. apply get_set_same.
Qed.

Lemma pass_types_are_duplicated_after_failed_read_witness :
  let w := Samples.failing (Samples.on_db Samples.gold_stored) in
  map (get "pass_type")
      (rows (mint_pass_type
               (db (snd (Repository.updateMintPassTypes [Samples.gold_candidate] w)))))
  = [JStr "gold"; JStr "gold"].
Proof.
  intros w.
  destruct (pass_types_are_duplicated_after_failed_read
              [Samples.gold_candidate] w []) as [_ H].
  - reflexivity.
  - constructor.
  - discriminate.
  - intros r n [Hr|[]] Hn. subst r. simpl in Hn. inversion Hn. reflexivity.
  - rewrite H. reflexivity.
Defined.

(** ** [upsert] that leaves the key to the store *)





(* ================================================================== *)
(** ** The supply of a card                                            *)
(* ================================================================== *)

Lemma known_rarity_cases (v : jsval) :
  includes Constants.KNOWN_SUPPLY_RARITIES v = true ->
  In v Constants.KNOWN_SUPPLY_RARITIES.
Proof.
  unfold includes. intros H. apply existsb_exists in H.
  destruct H as [x [Hx E]]. apply same_value_eq in E. subst x. exact Hx.
Qed.

Ltac each_rarity H :=
  apply known_rarity_cases in H;
  repeat (destruct H as [H|H]; [symmetry in H|]); [..|destruct H].

(** [getSupply] never reads a property of [undefined]: every rarity of
    [KNOWN_SUPPLY_RARITIES] has its entry in both halves of
    [CARD_SUPPLY]; and it answers [null] for the cards of any other
    rarity and for no other card. *)
Theorem getSupply_is_null_for_unknown_rarity_only (card : jsobj) :
  Constants.getSupply card <> Constants.Raises
  /\ (Constants.getSupply card = Constants.Null
      <-> includes Constants.KNOWN_SUPPLY_RARITIES (get "rarity" card) = false).
Proof.
  unfold Constants.getSupply.
  destruct (includes Constants.KNOWN_SUPPLY_RARITIES (get "rarity" card)) eqn:E;
    cbn [negb]; [|split; [discriminate|split; reflexivity]].
  assert (Hn : forall x y : Constants.member,
             Constants.Supply x y <> Constants.Raises
             /\ (Constants.Supply x y = Constants.Null <-> true = false))
    by (intros x y; split; [discriminate|split; discriminate]).
  destruct (strict_equal (get "card_name" card) (JStr "Hannibal & Honora"));
    [apply Hn|].
  each_rarity E; rewrite E; apply Hn.
Qed.

(** For a card of a known rarity and a listed advancement, other than
    Hannibal & Honora, [getSupply] gives two positive numbers, the
    supply of non-foil cards being five times that of foil cards. *)
Theorem listed_supply_is_five_to_one (card : jsobj) (advancement : string) :
  includes Constants.KNOWN_SUPPLY_RARITIES (get "rarity" card) = true ->
  get "card_name" card <> JStr "Hannibal & Honora" ->
  get "advancement" card = JStr advancement ->
  In advancement Spec.listed_advancements ->
  exists f, 0 < f
            /\ Constants.getSupply card
               = Constants.Supply (Constants.Units (5 * f)) (Constants.Units f).
Proof.
  intros E Hn Ha Hl. unfold Constants.getSupply. rewrite E, Ha. cbn [negb].
  assert (Es : strict_equal (get "card_name" card) (JStr "Hannibal & Honora")
               = false).
  { destruct (get "card_name" card) as [| | |n|s|b] eqn:G; try reflexivity.
    cbn. apply String.eqb_neq. congruence. }
  rewrite Es.
  destruct Hl as [H|[H|[H|[]]]]; subst advancement;
    each_rarity E; rewrite E; cbn;
      match goal with
      | |- exists f, _ /\ Constants.Supply _ (Constants.Units ?n) = _ => exists n
      end; split; reflexivity.
Qed.

Lemma listed_supply_is_five_to_one_witness :
  Constants.getSupply [("card_name", JStr "Aurora"); ("rarity", JStr "RARE");
                       ("advancement", JStr "ALTERNATIVE")]
  = Constants.Supply (Constants.Units 50000) (Constants.Units 10000).
Proof.
  destruct (listed_supply_is_five_to_one
              [("card_name", JStr "Aurora"); ("rarity", JStr "RARE");
               ("advancement", JStr "ALTERNATIVE")] "ALTERNATIVE")
    as [f [_ H]].
  - reflexivity.
  - discriminate.
  - reflexivity.
  - right; left; reflexivity.
  - reflexivity.
Defined.

Lemma member_of_unlisted (o : list (string * Z)) (key : jsval) :
  map fst o = Spec.listed_advancements ->
  ~ In (to_string key) Spec.listed_advancements ->
  Constants.member_of o key
  = if existsb (String.eqb (to_string key)) Constants.Object_prototype
    then Constants.Inherited (to_string key) else Constants.Missing.
Proof.
  intros Ho Hk. unfold Constants.member_of.
  assert (E : Constants.own (to_string key) o = None).
  { rewrite <- Ho in Hk. clear Ho.
    induction o as [|[k v] o IH]; [reflexivity|]. simpl in *.
    destruct (String.eqb (to_string key) k) eqn:Ek.
    - apply String.eqb_eq in Ek. exfalso. apply Hk. left. congruence.
    - apply IH. intros H. apply Hk. right. exact H. }
  rewrite E. reflexivity.
Qed.

(** For a card of a known rarity whose advancement is not a listed
    one, Hannibal & Honora apart, [getSupply] does not answer [null]:
    it gives an object whose two fields are the same and hold no
    number. *)
Theorem unlisted_advancement_gives_supply_without_numbers (card : jsobj) :
  includes Constants.KNOWN_SUPPLY_RARITIES (get "rarity" card) = true ->
  get "card_name" card <> JStr "Hannibal & Honora" ->
  ~ In (to_string (get "advancement" card)) Spec.listed_advancements ->
  exists m, Spec.is_units m = false
            /\ Constants.getSupply card = Constants.Supply m m.
Proof.
  intros E Hn Ha. unfold Constants.getSupply. rewrite E. cbn [negb].
  assert (Es : strict_equal (get "card_name" card) (JStr "Hannibal & Honora")
               = false).
  { destruct (get "card_name" card) as [| | |n|s|b] eqn:G; try reflexivity.
    cbn. apply String.eqb_neq. congruence. }
  rewrite Es.
  exists (if existsb (String.eqb (to_string (get "advancement" card)))
                     Constants.Object_prototype
          then Constants.Inherited (to_string (get "advancement" card))
          else Constants.Missing).
  split; [destruct (existsb _ _); reflexivity|].
  each_rarity E; rewrite E; cbn [to_string Constants.own Constants.CARD_SUPPLY_normal
                                   Constants.CARD_SUPPLY_foil String.eqb Ascii.eqb
                                   Bool.eqb];
    rewrite !member_of_unlisted by (assumption || reflexivity); reflexivity.
Qed.

Lemma unlisted_advancement_gives_supply_without_numbers_witness :
  Constants.getSupply [("card_name", JStr "Aurora"); ("rarity", JStr "RARE");
                       ("advancement", JNull)]
  = Constants.Supply Constants.Missing Constants.Missing.
Proof.
  destruct (unlisted_advancement_gives_supply_without_numbers
              [("card_name", JStr "Aurora"); ("rarity", JStr "RARE");
               ("advancement", JNull)])
    as [m [_ H]].
  - reflexivity.
  - discriminate.
  - simpl. intros [H|[H|[H|[]]]]; discriminate.
  - reflexivity.
Defined.

(* ================================================================== *)
(** ** The counting loops of the statistics                            *)
(* ================================================================== *)






Lemma map_set_In {V} (k k0 : jsval) (v e : V) (m : list (jsval * V)) :
  In (k, e) (map_set k0 v m) -> (k = k0 /\ e = v) \/ In (k, e) m.
Proof.
  induction m as [|[k1 v1] m IH]; simpl.
  - intros [H|[]]. inversion H. auto.
  - destruct (same_value k0 k1) eqn:E; simpl.
    + intros [H|H]; [inversion H; auto|auto].
    + intros [H|H]; [auto|]. destruct (IH H) as [H1|H1]; auto.
Qed.

Lemma map_get_In {V} (k : jsval) (e : V) (m : list (jsval * V)) :
  map_get k m = Some e -> In (k, e) m.
Proof.
  induction m as [|[k1 v1] m IH]; simpl; [discriminate|].
  destruct (same_value k k1) eqn:E.
  - apply same_value_eq in E. subst k1. intros H. inversion H. auto.
  - auto.
Qed.




Lemma map_set_keys {V} (k : jsval) (v : V) (m : list (jsval * V)) :
  map fst (map_set k v m) = set_add k (map fst m).
Proof.
  unfold set_add, includes.
  induction m as [|[k1 v1] m IH]; simpl; [reflexivity|].
  destruct (same_value k k1) eqn:E; simpl.
  - apply same_value_eq in E. subst k1. reflexivity.
  - rewrite IH. destruct (existsb (same_value k) (map fst m)); reflexivity.
Qed.

Lemma collect_keys (slot : jsobj -> string) (zeros : jsobj) (cards : list jsobj) :
  map fst (CollectionStats.collect slot zeros cards)
  = Spec.distinct (map (get "id") cards).
Proof.
  unfold CollectionStats.collect, Spec.distinct.
  change (@nil jsval) with (map fst (@nil (jsval * CollectionStats.card_stats))).
  generalize (@nil (jsval * CollectionStats.card_stats)) as collection.
  induction cards as [|c cs IH]; intros collection; simpl; [reflexivity|].
  rewrite IH. unfold CollectionStats.count_row at 1.
  rewrite map_set_keys. reflexivity.
Qed.

Lemma count_row_ids (slot : jsobj -> string) (zeros : jsobj)
      (collection : list (jsval * CollectionStats.card_stats)) (c : jsobj) :
  (forall k e, In (k, e) collection -> CollectionStats.id e = k) ->
  forall k e, In (k, e) (CollectionStats.count_row slot zeros collection c) ->
              CollectionStats.id e = k.
Proof.
  intros Hc k e Hi. unfold CollectionStats.count_row in Hi.
  apply map_set_In in Hi. destruct Hi as [[Hk He]|Hi]; [|exact (Hc k e Hi)].
  subst e k. cbn.
  destruct (map_get (get "id" c) collection) as [e0|] eqn:G.
  - apply map_get_In in G. exact (Hc _ _ G).
  - reflexivity.
Qed.

Lemma collect_ids (slot : jsobj -> string) (zeros : jsobj) (cards : list jsobj) :
  forall k e, In (k, e) (CollectionStats.collect slot zeros cards) ->
              CollectionStats.id e = k.
Proof.
  unfold CollectionStats.collect.
  assert (G : forall collection,
             (forall k e, In (k, e) collection -> CollectionStats.id e = k) ->
             forall k e,
               In (k, e) (fold_left (CollectionStats.count_row slot zeros)
                                    cards collection) ->
               CollectionStats.id e = k).
  { induction cards as [|c cs IH]; intros collection Hc; simpl; [exact Hc|].
    apply IH. apply count_row_ids. exact Hc. }
  apply G. intros k e [].
Qed.

(** The statistics hold one entry per card: the ids of the entries,
    in their order, are the ids of the rows without repetition, each at
    its first place; this for standard and alternative cards alike. *)
Theorem one_entry_per_card (cards : list jsobj) :
  map (fun ke => CollectionStats.id (snd ke)) (CollectionStats.stdCollection cards)
  = Spec.distinct (map (get "id") cards)
  /\ map (fun ke => CollectionStats.id (snd ke)) (CollectionStats.altCollection cards)
     = Spec.distinct (map (get "id") cards).
Proof.
  assert (G : forall slot zeros,
             map (fun ke => CollectionStats.id (snd ke))
                 (CollectionStats.collect slot zeros cards)
             = Spec.distinct (map (get "id") cards)).
  { intros slot zeros. rewrite <- (collect_keys slot zeros).
    apply map_ext_in. intros [k e] Hi. apply (collect_ids _ _ _ _ _ Hi). }
  split; apply G.
Qed.

Lemma map_get_set {V} (k k' : jsval) (v : V) (m : list (jsval * V)) :
  map_get k (map_set k' v m)
  = if same_value k k' then Some v else map_get k m.
Proof.
  destruct (same_value k k') eqn:E.
  - apply same_value_eq in E. subst k'. apply map_get_set_same.
  - apply map_get_set_other. exact E.
Qed.

(** The total a collection holds for card [k], 0 when it has none. *)
Lemma collect_total_from (slot : jsobj -> string) (zeros : jsobj)
      (k : jsval) (cards : list jsobj) :
  forall collection e,
    map_get k (fold_left (CollectionStats.count_row slot zeros) cards collection)
    = Some e ->
    CollectionStats.total_count e
    = fold_left plus
        (map Spec.row_count (filter (fun c => same_value k (get "id" c)) cards))
        (match map_get k collection with
         | Some e0 => CollectionStats.total_count e0
         | None => JNum 0
         end).
Proof.
  induction cards as [|c cs IH]; intros collection e; simpl.
  - intros H. rewrite H. reflexivity.
  - intros H. rewrite (IH _ _ H). clear IH H.
    unfold CollectionStats.count_row at 1. rewrite map_get_set.
    destruct (same_value k (get "id" c)) eqn:E; [|reflexivity].
    apply same_value_eq in E. subst k. simpl.
    destruct (map_get (get "id" c) collection); reflexivity.
Qed.

(** The total of a card in the statistics is the sum of the counts of
    its rows, each read by [parseInt], added in the order of the rows;
    this for standard and alternative cards alike. *)
Theorem card_total_is_sum_of_counts (cards : list jsobj) (k : jsval)
        (e : CollectionStats.card_stats) :
  map_get k (CollectionStats.stdCollection cards) = Some e
  \/ map_get k (CollectionStats.altCollection cards) = Some e ->
  CollectionStats.total_count e = Spec.sum_of_counts k cards.
Proof.
  unfold CollectionStats.stdCollection, CollectionStats.altCollection,
    CollectionStats.collect, Spec.sum_of_counts.
  intros [H|H]; rewrite (collect_total_from _ _ _ _ _ _ H); reflexivity.
Qed.

Lemma card_total_is_sum_of_counts_witness :
  exists e,
    map_get (JNum 7) (CollectionStats.stdCollection Samples.stats_rows) = Some e
    /\ CollectionStats.total_count e = JNum 7
    /\ Spec.sum_of_counts (JNum 7) Samples.stats_rows = JNum 7.
Proof.
  eexists. split; [reflexivity|]. split; [|reflexivity].
  erewrite (card_total_is_sum_of_counts Samples.stats_rows (JNum 7));
    [reflexivity|left; reflexivity].
Defined.
